(** * claude-menubar: the pacing model and the icon encoder

  A shallow embedding of the core of [claude-usage.10m.py]: the pacing
  score, the colour ramp, the RGBA canvas with its rounded-rectangle fill,
  the bar layout and the PNG serialiser.

  Python [float]s are IEEE-754 binary64 numbers: they are modelled by
  Rocq's primitive [float]s, whose operations are specified bit for bit by
  [SpecFloat].  Python [int]s are [Z].  The numeric fields of a tier
  snapshot are read as floats; a JSON integer such as [-1], [50] or [100]
  is identified with the float of the same value, which is exact for the
  comparisons and the clamped arithmetic the code performs on them.
  Exceptions are results in [option]: [None] stands for a raised
  exception. *)

From Stdlib Require Import Strings.String.
From Stdlib Require Import ZArith List Bool Lia Floats.
From Stdlib Require Strings.Byte FinFun.

Set Warnings "-inexact-float".
Import ListNotations.

Local Open Scope Z_scope.

(** ** Python's numeric built-ins on floats *)

Module Py.

(** [min(a, b)]: the first argument is kept unless the second is strictly
    smaller. *)
Definition min (a b : float) : float := if (b <? a)%float then b else a.

(** [max(a, b)]: the first argument is kept unless the second is strictly
    larger. *)
Definition max (a b : float) : float := if (a <? b)%float then b else a.

(** [a / b]: float division raises [ZeroDivisionError] on a zero divisor. *)
Definition div (a b : float) : option float :=
  if (b =? 0)%float then None else Some (a / b)%float.

(** Truncation of a finite binary float [(-1)^s * m * 2^e] toward zero. *)
Definition trunc_sf (x : spec_float) : option Z :=
  match x with
  | S754_zero _ => Some 0
  | S754_finite s m e => Some (cond_Zopp s (Z.shiftl (Zpos m) e))
  | S754_infinity _ | S754_nan => None
  end.

(** [int(x)]: truncation toward zero; [ValueError] on a NaN and
    [OverflowError] on an infinity. *)
Definition int (x : float) : option Z := trunc_sf (Prim2SF x).

(** [float(n)]: the nearest binary64 number, ties to even;
    [OverflowError] when [n] is too large. *)
Definition float_of_int (n : Z) : option float :=
  match binary_normalize prec emax n 0 false with
  | S754_infinity _ | S754_nan => None
  | x => Some (SF2Prim x)
  end.

Definition bind {A B : Type} (x : option A) (f : A -> option B) : option B :=
  match x with
  | Some a => f a
  | None => None
  end.

End Py.

Notation "x <- e ;; k" := (Py.bind e (fun x => k))
(at level 61, e at next level, right associativity).
Notation "' p <- e ;; k" := (Py.bind e (fun p => k))
(at level 61, p pattern, e at next level, right associativity).

(** ** Classes of binary64 numbers used in the proofs *)

Module FloatPred.

(** A number that is neither a NaN nor negative: [+-0], a positive finite
    number or [+oo]. *)
Definition nonneg_sf (x : spec_float) : bool :=
  match x with
  | S754_zero _ => true
  | S754_finite s _ _ => negb s
  | S754_infinity s => negb s
  | S754_nan => false
  end.

Definition pos_sf (x : spec_float) : bool :=
  match x with
  | S754_finite s _ _ => negb s
  | S754_infinity s => negb s
  | _ => false
  end.

(** Sign bit clear and not a NaN: [+0], a positive finite number or [+oo]. *)
Definition plus_sf (x : spec_float) : bool :=
  match x with
  | S754_zero s | S754_infinity s | S754_finite s _ _ => negb s
  | S754_nan => false
  end.

Definition posfin_sf (x : spec_float) : bool :=
  match x with
  | S754_finite s _ _ => negb s
  | _ => false
  end.

(** Zero or a positive finite number, sign bit clear. *)
Definition fin_sf (x : spec_float) : bool :=
  match x with
  | S754_zero s | S754_finite s _ _ => negb s
  | _ => false
  end.

Definition plus (x : float) : Prop := plus_sf (Prim2SF x) = true.
Definition fin (x : float) : Prop := fin_sf (Prim2SF x) = true.
Definition posfin (x : float) : Prop := posfin_sf (Prim2SF x) = true.

(** The order of floats as propositions. *)
Definition fle (x y : float) : Prop := (x <=? y)%float = true.
Definition flt (x y : float) : Prop := (x <? y)%float = true.

(** [x] lies between the finite non-negative bounds [lo] and [hi]. *)
Definition within (lo hi x : float) : Prop :=
  fin lo /\ fin hi /\ fin x /\ fle lo x /\ fle x hi.

End FloatPred.

(** ** Checking a property on every byte value *)

Module ByteCheck.

Local Open Scope float_scope.

(** The floats [0.0], [1.0], ..., counted up from zero. *)
Definition byte_float (k : nat) : float := Nat.iter k (fun f => f + 1) 0.

(** [P] on [k] consecutive floats starting at [f]. *)
Fixpoint all_bytes_from (k : nat) (f : float) (P : float -> bool) : bool :=
  match k with
  | O => true
  | S k' => P f && all_bytes_from k' (f + 1) P
  end.

Definition all_bytes (P : float -> bool) : bool := all_bytes_from 256 0 P.

(** The float of lines 130 to 132 before truncation. *)
Definition chan_float (fs fd a : float) : float := fs * a + fd * (1 - a).

Definition in_byte_range (v : float) : bool := (0 <=? v) && (v <? 256).

(** One channel of the blend, from the floats of the source alpha, the
    source channel and the destination channel, lies in [0, 256). *)
Definition channel_ok (fsa fs fd : float) : bool :=
  in_byte_range (chan_float fs fd (fsa / 255)).

(** [float(k)] is the [k]-th float of the enumeration. *)
Definition byte_float_agrees (k : nat) : bool :=
  match Py.float_of_int (Z.of_nat k) with
  | Some f => PrimFloat.Leibniz.eqb f (byte_float k)
  | None => false
  end.

End ByteCheck.

(** ** Round to nearest even, seen on integers

    [SpecFloat] rounds a positive quantity held as a mantissa, an exponent
    and a location (exact, below, at or above the midpoint to the next
    mantissa).  The proofs read mantissa and location together as one
    integer position in quarter units. *)

Module RoundDefs.

(** Twice the floor of [n / d], plus one when the division is inexact. *)
Definition sticky_div (n d : Z) : Z :=
  2 * (n / d) + (if n mod d =? 0 then 0 else 1).

(** The position of a shift record: mantissa, round bit, sticky bit. *)
Definition record_pos (mrs : shr_record) : Z :=
  4 * shr_m mrs + (if shr_r mrs then 2 else 0) + (if shr_s mrs then 1 else 0).

(** The position after a shift by one bit. *)
Definition halve_pos (p : Z) : Z :=
  2 * (p / 4) + (if p mod 4 =? 0 then 0 else 1).

(** The mantissa a position rounds to, ties to even. *)
Definition round_pos (p : Z) : Z :=
  let m := p / 4 in
  let c := p mod 4 in
  if c <=? 1 then m
  else if c =? 2 then (if Z.even m then m else m + 1)
  else m + 1.

(** A rounded mantissa of 54 digits is renormalised. *)
Definition renorm (M E : Z) : Z * Z :=
  if M =? 2 ^ 53 then (2 ^ 52, E + 1) else (M, E).

(** The float of a mantissa and an exponent. *)
Definition pack (M E : Z) : spec_float :=
  match M with
  | Z0 => S754_zero false
  | Zpos m => if E <=? 971 then S754_finite false m E else S754_infinity false
  | Zneg _ => S754_nan
  end.

(** The mantissa and the exponent of a float, zero for a zero, and the
    mantissa scaled to the exponent [c]. *)
Definition sf_mant (x : spec_float) : Z :=
  match x with
  | S754_finite _ m _ => Zpos m
  | _ => 0
  end.

Definition sf_exp (x : spec_float) : Z :=
  match x with
  | S754_finite _ _ e => e
  | _ => 0
  end.

Definition scaled (x : spec_float) (c : Z) : Z := sf_mant x * 2 ^ (sf_exp x - c).

(** The float [t] holds the integer [k] exactly. *)
Definition holds_int (t : spec_float) (k : Z) : bool :=
  FloatPred.fin_sf t && valid_binary t && (sf_exp t <=? 0)
  && (sf_mant t =? k * 2 ^ (- sf_exp t)).

End RoundDefs.

(** ** Pacing and colour ([pace_score], [score_to_rgb]) *)

Module Pacing.

Local Open Scope float_scope.

(** The clamp of lines 64 and 65: [max(0.0, min(100.0, x))]. *)
Definition clamp_pct (x : float) : float := Py.max 0 (Py.min 100 x).

(** [pace_score], lines 59 to 75. *)
Definition pace_score (remaining_pct time_remaining_pct : float) : option float :=
  let r := Py.max 0 (Py.min 100 remaining_pct) in
  let t := Py.max 0 (Py.min 100 time_remaining_pct) in
  if r <=? 3 then Some 0
  else if 92 <=? r then Some 1
  else if t <=? 5 then
    q <- Py.div r 35 ;;
    Some (Py.min 1 q)
  else
    pace <- Py.div r (Py.max t 0.1) ;;
    q <- Py.div pace 1.3 ;;
    Some (Py.min 1 (Py.max 0 q)).

(** The smaller and the larger of two numbers, as the specification reads
    [min] and [max]. *)
Definition fmin (a b : float) : float := if a <=? b then a else b.
Definition fmax (a b : float) : float := if a <=? b then b else a.

(** The four rules of the specification, in priority order, on inputs that
    are already clamped. *)
Definition pace_rules (r t : float) : float :=
  if r <=? 3 then 0
  else if 92 <=? r then 1
  else if t <=? 5 then fmin 1 (r / 35)
  else fmin 1 (fmax 0 ((r / fmax t 0.1) / 1.3)).

(** [colorsys.hsv_to_rgb] of the Python standard library, which
    [score_to_rgb] calls. *)
Definition hsv_to_rgb (h s v : float) : option (float * float * float) :=
  if s =? 0 then Some (v, v, v)
  else
    i <- Py.int (h * 6) ;;
    fi <- Py.float_of_int i ;;
    let f := h * 6 - fi in
    let p := v * (1 - s) in
    let q := v * (1 - s * f) in
    let t := v * (1 - s * (1 - f)) in
    let i := (i mod 6)%Z in
    if (i =? 0)%Z then Some (v, t, p)
    else if (i =? 1)%Z then Some (q, v, p)
    else if (i =? 2)%Z then Some (p, v, t)
    else if (i =? 3)%Z then Some (p, q, v)
    else if (i =? 4)%Z then Some (t, p, v)
    else if (i =? 5)%Z then Some (v, p, q)
    else None.

(** An RGBA colour: a 4-tuple of Python integers. *)
Definition rgba : Type := Z * Z * Z * Z.

(** [score_to_rgb], lines 78 to 82. *)
Definition score_to_rgb (score : float) : option rgba :=
  let hue := score * (120 / 360) in
  '(r, g, b) <- hsv_to_rgb hue 0.78 0.88 ;;
  ri <- Py.int (r * 255) ;;
  gi <- Py.int (g * 255) ;;
  bi <- Py.int (b * 255) ;;
  Some (ri, gi, bi, 230%Z).

End Pacing.

(** ** The bitmap canvas ([draw_rounded_rect]) *)

Module Canvas.
Import Pacing.

(** A pixel buffer: a list of rows, each a list of RGBA tuples.  The rows
    are distinct objects, as line 141 builds them, so a write to one row
    leaves the others alone. *)
Definition canvas : Type := list (list rgba).

(** Python's list index: a negative index counts from the end; an index
    out of range raises [IndexError]. *)
Definition py_index (len i : Z) : option nat :=
  let j := if i <? 0 then i + len else i in
  if (0 <=? j) && (j <? len) then Some (Z.to_nat j) else None.

(** [l[i]] *)
Definition getitem {A : Type} (l : list A) (i : Z) : option A :=
  k <- py_index (Z.of_nat (length l)) i ;;
  nth_error l k.

Fixpoint replace_nth {A : Type} (l : list A) (k : nat) (v : A) : list A :=
  match l, k with
  | [], _ => []
  | _ :: l', O => v :: l'
  | a :: l', S k' => a :: replace_nth l' k' v
  end.

(** [l[i] = v] *)
Definition setitem {A : Type} (l : list A) (i : Z) (v : A) : option (list A) :=
  k <- py_index (Z.of_nat (length l)) i ;;
  Some (replace_nth l k v).

(** [range(lo, hi)] *)
Definition range (lo hi : Z) : list Z :=
  map (fun k => lo + Z.of_nat k) (seq 0 (Z.to_nat (hi - lo))).

(** A [for] loop over a list of integers whose body updates a state or
    raises. *)
Fixpoint for_each {S : Type} (l : list Z) (body : Z -> S -> option S) (s : S)
  : option S :=
  match l with
  | [] => Some s
  | i :: l' => s' <- body i s ;; for_each l' body s'
  end.

(** The [draw] flag of lines 112 to 124: the pixel is kept unless it lies in
    a corner square and farther than [r] from that corner's centre. *)
Definition draw_flag (x0 y0 x1 y1 r x y : Z) : bool :=
  if (x <? x0 + r) && (y <? y0 + r) then
    negb ((x - (x0 + r)) ^ 2 + (y - (y0 + r)) ^ 2 >? r * r)
  else if (x >? x1 - r) && (y <? y0 + r) then
    negb ((x - (x1 - r)) ^ 2 + (y - (y0 + r)) ^ 2 >? r * r)
  else if (x <? x0 + r) && (y >? y1 - r) then
    negb ((x - (x0 + r)) ^ 2 + (y - (y1 - r)) ^ 2 >? r * r)
  else if (x >? x1 - r) && (y >? y1 - r) then
    negb ((x - (x1 - r)) ^ 2 + (y - (y1 - r)) ^ 2 >? r * r)
  else true.

(** One colour channel of lines 130 to 132: [int(s * a + d * (1 - a))]. *)
Definition blend_channel (s d : Z) (a : float) : option Z :=
  fs <- Py.float_of_int s ;;
  fd <- Py.float_of_int d ;;
  Py.int (fs * a + fd * (1 - a))%float.

(** Lines 126 to 134: the colour composited over the pixel already there. *)
Definition blend (color dst : rgba) : option rgba :=
  let '(sr, sg, sb, sa) := color in
  let '(dr, dg, db, da) := dst in
  fsa <- Py.float_of_int sa ;;
  a <- Py.div fsa 255 ;;
  cr <- blend_channel sr dr a ;;
  cg <- blend_channel sg dg a ;;
  cb <- blend_channel sb db a ;;
  Some (cr, cg, cb, Z.min 255 (sa + da)).

(** Lines 125 to 134 for one pixel: read [pixels[y][x]], blend, store. *)
Definition put_pixel (color : rgba) (x y : Z) (pixels : canvas) : option canvas :=
  row <- getitem pixels y ;;
  dst <- getitem row x ;;
  px <- blend color dst ;;
  row' <- setitem row x px ;;
  setitem pixels y row'.

(** [draw_rounded_rect], lines 108 to 134. *)
Definition draw_rounded_rect (pixels : canvas) (x0 y0 x1 y1 r : Z) (color : rgba)
  : option canvas :=
  for_each (range y0 (y1 + 1)) (fun y =>
    for_each (range x0 (x1 + 1)) (fun x pixels =>
      if draw_flag x0 y0 x1 y1 r x y then put_pixel color x y pixels
      else Some pixels)) pixels.

(** Line 141: [[(0, 0, 0, 0) for _ in range(W)] for _ in range(H)]. *)
Definition blank (W H : Z) : canvas :=
  map (fun _ => map (fun _ => (0, 0, 0, 0)) (range 0 W)) (range 0 H).

(** All four components of a colour are bytes. *)
Definition is_byte (v : Z) : bool := (0 <=? v) && (v <=? 255).

Definition byte_rgba (c : rgba) : bool :=
  let '(r, g, b, a) := c in is_byte r && is_byte g && is_byte b && is_byte a.

Definition byte_canvas (pixels : canvas) : bool :=
  forallb (forallb byte_rgba) pixels.

(** The canvas has [H] rows of [W] pixels. *)
Definition has_dims (W H : Z) (pixels : canvas) : Prop :=
  Z.of_nat (length pixels) = H
  /\ Forall (fun row => Z.of_nat (length row) = W) pixels.

(** [H] rows of [W] pixels, every component a byte. *)
Definition well_formed (W H : Z) (pixels : canvas) : Prop :=
  has_dims W H pixels /\ byte_canvas pixels = true.

(** The pixels of the inclusive rectangle. *)
Definition in_rect (x0 y0 x1 y1 x y : Z) : bool :=
  (x0 <=? x) && (x <=? x1) && (y0 <=? y) && (y <=? y1).

(** Membership in a list of integers. *)
Definition mem (x : Z) (xs : list Z) : bool := existsb (Z.eqb x) xs.

(** The pixel at column [x] of row [y]: [pixels[y][x]]. *)
Definition pixel_at (pixels : canvas) (x y : Z) : option rgba :=
  row <- getitem pixels y ;;
  getitem row x.

(** A rounded-rectangle fill with its arguments, and a sequence of fills
    applied one after the other. *)
Record fill : Type := {
  fill_x0 : Z; fill_y0 : Z; fill_x1 : Z; fill_y1 : Z;
  fill_r : Z; fill_color : rgba
}.

Fixpoint draw_all (fills : list fill) (pixels : canvas) : option canvas :=
  match fills with
  | [] => Some pixels
  | f :: fills' =>
      pixels <- draw_rounded_rect pixels (fill_x0 f) (fill_y0 f) (fill_x1 f)
                  (fill_y1 f) (fill_r f) (fill_color f) ;;
      draw_all fills' pixels
  end.

(** The components of a colour. *)
Definition red (c : rgba) : Z := let '(r, _, _, _) := c in r.
Definition green (c : rgba) : Z := let '(_, g, _, _) := c in g.
Definition blue (c : rgba) : Z := let '(_, _, b, _) := c in b.
Definition alpha (c : rgba) : Z := let '(_, _, _, a) := c in a.

(** [out] is [src * a + dst * (1 - a)] computed in floats and truncated. *)
Definition over (src dst : Z) (a : float) (out : Z) : Prop :=
  exists fs fd,
    Py.float_of_int src = Some fs /\ Py.float_of_int dst = Some fd
    /\ Py.int (fs * a + fd * (1 - a))%float = Some out.

(** The alpha of canonical "over" compositing, in byte units rounded down:
    [sa + da * (255 - sa) / 255]. *)
Definition canonical_over_alpha (sa da : Z) : Z := sa + da * (255 - sa) / 255.

End Canvas.

(** ** The image encoder ([_png_chunk], [create_png]) *)

Module Png.
Import Pacing Canvas.

Definition bytes : Type := list Byte.byte.

Definition byte_of_Z (z : Z) : Byte.byte :=
  match Byte.of_N (Z.to_N (z mod 256)) with
  | Some b => b
  | None => Byte.x00
  end.

Definition Z_of_byte (b : Byte.byte) : Z := Z.of_N (Byte.to_N b).

(** [struct.pack("B", v)]: [struct.error] unless [0 <= v <= 255]. *)
Definition pack_B (v : Z) : option Byte.byte :=
  if (0 <=? v) && (v <=? 255) then Some (byte_of_Z v) else None.

(** [struct.pack(">I", n)]: four bytes, most significant first;
    [struct.error] unless [0 <= n < 2^32]. *)
Definition pack_I (n : Z) : option bytes :=
  if (0 <=? n) && (n <? 2 ^ 32) then
    Some [byte_of_Z (Z.shiftr n 24); byte_of_Z (Z.shiftr n 16);
          byte_of_Z (Z.shiftr n 8); byte_of_Z n]
  else None.

(** [zlib.crc32]: the CRC-32 of ISO 3309 and of the PNG specification,
    bit by bit with the reflected polynomial [0xEDB88320]. *)
Definition crc32_bit (c : Z) : Z :=
  if Z.testbit c 0 then Z.lxor (Z.shiftr c 1) 0xEDB88320 else Z.shiftr c 1.

Definition crc32_byte (c : Z) (b : Byte.byte) : Z :=
  Nat.iter 8 crc32_bit (Z.lxor c (Z_of_byte b)).

Definition crc32 (data : bytes) : Z :=
  Z.lxor (fold_left crc32_byte data 0xFFFFFFFF) 0xFFFFFFFF.

(** [_png_chunk], lines 89 to 92. *)
Definition _png_chunk (chunk_type data : bytes) : option bytes :=
  let c := chunk_type ++ data in
  crc <- pack_I (Z.land (crc32 c) 0xFFFFFFFF) ;;
  len <- pack_I (Z.of_nat (length data)) ;;
  Some (len ++ c ++ crc).

Definition sig : bytes :=
  [Byte.x89; Byte.x50; Byte.x4e; Byte.x47; Byte.x0d; Byte.x0a; Byte.x1a; Byte.x0a].

Definition tag_IHDR : bytes := [Byte.x49; Byte.x48; Byte.x44; Byte.x52].
Definition tag_IDAT : bytes := [Byte.x49; Byte.x44; Byte.x41; Byte.x54].
Definition tag_IEND : bytes := [Byte.x49; Byte.x45; Byte.x4e; Byte.x44].

(** [struct.pack("BBBB", r, g, b, a)] *)
Definition pack_BBBB (px : rgba) : option bytes :=
  let '(r, g, b, a) := px in
  br <- pack_B r ;; bg <- pack_B g ;; bb <- pack_B b ;; ba <- pack_B a ;;
  Some [br; bg; bb; ba].

(** Lines 98 to 103: every scanline is a zero filter byte followed by the
    packed pixels of the row. *)
Definition raw_scanlines (width height : Z) (pixels : canvas) : option bytes :=
  for_each (range 0 height) (fun y raw =>
    let raw := raw ++ [Byte.x00] in
    for_each (range 0 width) (fun x raw =>
      row <- getitem pixels y ;;
      px <- getitem row x ;;
      b <- pack_BBBB px ;;
      Some (raw ++ b)) raw) [].

Section Zlib.

(** [zlib.compress(raw, 9)] and the matching [zlib.decompress]: the code
    calls the first, a decoder the second. *)
Variable compress : bytes -> bytes.
Variable decompress : bytes -> option bytes.

(** [create_png], lines 95 to 105. *)
Definition create_png (width height : Z) (pixels : canvas) : option bytes :=
  w <- pack_I width ;;
  h <- pack_I height ;;
  let ihdr := w ++ h ++ [Byte.x08; Byte.x06; Byte.x00; Byte.x00; Byte.x00] in
  raw <- raw_scanlines width height pixels ;;
  let compressed := compress raw in
  c1 <- _png_chunk tag_IHDR ihdr ;;
  c2 <- _png_chunk tag_IDAT compressed ;;
  c3 <- _png_chunk tag_IEND [] ;;
  Some (sig ++ c1 ++ c2 ++ c3).

(** *** A PNG decoder

    The reading side, after the PNG specification: the signature, then
    chunks framed as length, type, payload and CRC; an [IHDR] of 13 bytes
    with positive dimensions below [2^31]; the [IDAT] payloads concatenated
    and inflated; scanlines of [1 + 4 * width] bytes.  Of the formats PNG
    allows it accepts the one this encoder writes: 8-bit RGBA, not
    interlaced, filter type 0 on every scanline, no ancillary chunks. *)

Definition unpack_I (s : bytes) : option (Z * bytes) :=
  match s with
  | b3 :: b2 :: b1 :: b0 :: rest =>
      Some (Z_of_byte b3 * 2 ^ 24 + Z_of_byte b2 * 2 ^ 16
            + Z_of_byte b1 * 2 ^ 8 + Z_of_byte b0, rest)
  | _ => None
  end.

(** Splits [n] bytes off the front. *)
Definition take (n : nat) (s : bytes) : option (bytes * bytes) :=
  if (n <=? length s)%nat then Some (firstn n s, skipn n s) else None.

Definition bytes_eqb (a b : bytes) : bool :=
  if list_eq_dec Byte.byte_eq_dec a b then true else false.

(** One chunk: its type, its payload and the rest of the stream. *)
Definition read_chunk (s : bytes) : option (bytes * bytes * bytes) :=
  '(len, s) <- unpack_I s ;;
  if len <? 2 ^ 31 then
    '(ty, s) <- take 4 s ;;
    '(data, s) <- take (Z.to_nat len) s ;;
    '(crc, s) <- unpack_I s ;;
    if crc =? Z.land (crc32 (ty ++ data)) 0xFFFFFFFF then Some (ty, data, s)
    else None
  else None.

(** The chunks after [IHDR]: [IDAT] payloads up to the [IEND] that ends the
    stream. *)
Fixpoint read_idat (fuel : nat) (s acc : bytes) : option bytes :=
  match fuel with
  | O => None
  | S fuel' =>
      '(ty, data, rest) <- read_chunk s ;;
      if bytes_eqb ty tag_IDAT then read_idat fuel' rest (acc ++ data)
      else if bytes_eqb ty tag_IEND then
        match data, rest with
        | [], [] => Some acc
        | _, _ => None
        end
      else None
  end.

Definition read_pixel (s : bytes) : option (rgba * bytes) :=
  match s with
  | r :: g :: b :: a :: rest =>
      Some ((Z_of_byte r, Z_of_byte g, Z_of_byte b, Z_of_byte a), rest)
  | _ => None
  end.

Fixpoint read_row (width : nat) (s : bytes) : option (list rgba * bytes) :=
  match width with
  | O => Some ([], s)
  | S w =>
      '(px, s) <- read_pixel s ;;
      '(row, s) <- read_row w s ;;
      Some (px :: row, s)
  end.

Fixpoint read_scanlines (width height : nat) (s : bytes) : option canvas :=
  match height with
  | O => match s with [] => Some [] | _ => None end
  | S h =>
      match s with
      | Byte.x00 :: s =>
          '(row, s) <- read_row width s ;;
          rows <- read_scanlines width h s ;;
          Some (row :: rows)
      | _ => None
      end
  end.

Definition decode_png (s : bytes) : option (Z * Z * canvas) :=
  '(magic, s) <- take 8 s ;;
  if bytes_eqb magic sig then
    '(ty, ihdr, s) <- read_chunk s ;;
    if bytes_eqb ty tag_IHDR then
      '(width, ihdr) <- unpack_I ihdr ;;
      '(height, ihdr) <- unpack_I ihdr ;;
      if bytes_eqb ihdr [Byte.x08; Byte.x06; Byte.x00; Byte.x00; Byte.x00]
         && (0 <? width) && (width <? 2 ^ 31)
         && (0 <? height) && (height <? 2 ^ 31)
      then
        idat <- read_idat (length s) s [] ;;
        raw <- decompress idat ;;
        pixels <- read_scanlines (Z.to_nat width) (Z.to_nat height) raw ;;
        Some (width, height, pixels)
      else None
    else None
  else None.

End Zlib.

(** *** The container as the specification describes it *)

(** A 4-byte big-endian integer. *)
Definition be32 (n : Z) : bytes :=
  [byte_of_Z (n / 2 ^ 24); byte_of_Z (n / 2 ^ 16); byte_of_Z (n / 2 ^ 8); byte_of_Z n].

(** A chunk: payload length, type tag, payload, CRC-32 of tag and payload. *)
Definition framed (tag payload : bytes) : bytes :=
  be32 (Z.of_nat (length payload)) ++ tag ++ payload ++ be32 (crc32 (tag ++ payload)).

(** The four bytes of a pixel: R, G, B, A. *)
Definition pixel_bytes (px : rgba) : bytes :=
  let '(r, g, b, a) := px in [byte_of_Z r; byte_of_Z g; byte_of_Z b; byte_of_Z a].

(** A scanline: the filter byte 0, then the pixels of the row. *)
Definition scanline (row : list rgba) : bytes :=
  Byte.x00 :: concat (map pixel_bytes row).

(** The scanlines of a canvas, top row first. *)
Definition scanlines (pixels : canvas) : bytes := concat (map scanline pixels).

(** The header payload: width, height, bit depth 8, colour type 6 (RGBA),
    compression 0, filter 0, no interlace. *)
Definition ihdr_payload (width height : Z) : bytes :=
  be32 width ++ be32 height ++ [Byte.x08; Byte.x06; Byte.x00; Byte.x00; Byte.x00].

End Png.

(** ** Time helpers ([parse_dt], [time_remaining_str], [time_remaining_pct]) *)

Module Clock.

Local Open Scope float_scope.

(** A [datetime] as the time helpers use it: one with a time zone, known
    by the seconds from now to it, or one without a time zone. *)
Inductive datetime : Type :=
| Aware (secs_left : float)
| Naive.

(** [(dt - now).total_seconds()], lines 178 and 195, with
    [now = datetime.now(timezone.utc)]: subtracting an aware datetime from
    one without a time zone raises [TypeError]. *)
Definition seconds_left (dt : datetime) : option float :=
  match dt with
  | Aware secs => Some secs
  | Naive => None
  end.

Section Parsing.

(** [datetime.fromisoformat(s.replace("Z", "+00:00"))] of line 168;
    [None] when it raises, which [parse_dt] catches. *)
Variable parse_iso : string -> option datetime.

(** Lines 181 to 187: the text for a positive number of seconds. *)
Variable fmt_left : float -> string.

(** [parse_dt], lines 164 to 170. *)
Definition parse_dt (s : string) : option datetime :=
  if (s =? "")%string then None else parse_iso s.


(** [time_remaining_pct], lines 190 to 197; [None] is the [TypeError] of
    line 195 or the [ZeroDivisionError] of line 197.  [window_hours] is a
    float, as annotated. *)
Definition time_remaining_pct (reset_at_str : string) (window_hours : float)
  : option float :=
  match parse_dt reset_at_str with
  | None => Some 50
  | Some dt =>
      if window_hours <=? 0 then Some 50
      else
        secs_left <- seconds_left dt ;;
        let window_secs := window_hours * 3600 in
        q <- Py.div secs_left window_secs ;;
        Some (Py.max 0 (Py.min 100 (q * 100)))
  end.

End Parsing.

End Clock.

(** ** The bar layout ([generate_bars_image]) and its callers *)

Module Bars.
Import Pacing Canvas Png.

(** Bar geometry, lines 48 to 53. *)
Definition ICON_H : Z := 22.
Definition BAR_W : Z := 3.
Definition BAR_H : Z := 11.
Definition GAP : Z := 2.
Definition PAD_X : Z := 1.
Definition CORNER_R : Z := 1.

(** A tier snapshot: the keys of the dictionary the program reads; [None]
    is an absent key. *)
Record tier : Type := {
  remaining_pct : option float;
  time_remaining_pct : option float;
  reset_at : option string;
  spent : option float;
  cap : option float
}.

(** The renderer's view of a tier: its two percentages. *)
Definition bar (rpct tpct : option float) : tier :=
  {| remaining_pct := rpct; time_remaining_pct := tpct;
     reset_at := None; spent := None; cap := None |}.

(** [d.get(key, default)] *)
Definition get (field : option float) (default : float) : float :=
  match field with
  | Some v => v
  | None => default
  end.


(** Line 145: [y_top = (H - bh) // 2]. *)
Definition y_top : Z := (ICON_H - BAR_H) / 2.

(** Line 151: [fill_h = max(2, int(bh * max(0, min(100, rpct)) / 100.0))]. *)
Definition fill_height (rpct : float) : option Z :=
  fbh <- Py.float_of_int BAR_H ;;
  q <- Py.div (fbh * Py.max 0 (Py.min 100 rpct))%float 100 ;;
  v <- Py.int q ;;
  Some (Z.max 2 v).

(** The rectangles of one bar as [(x0, y0, x1, y1)]: the track of line 150
    and the fill of line 155. *)
Definition track_rect (x : Z) : Z * Z * Z * Z :=
  (x, y_top, x + BAR_W - 1, y_top + BAR_H - 1).

Definition fill_rect (x fill_h : Z) : Z * Z * Z * Z :=
  let y_fill := y_top + BAR_H - fill_h in
  (x, y_fill, x + BAR_W - 1, y_top + BAR_H - 1).

Definition draw_rect (pixels : canvas) (rect : Z * Z * Z * Z) (r : Z) (color : rgba)
  : option canvas :=
  let '(x0, y0, x1, y1) := rect in draw_rounded_rect pixels x0 y0 x1 y1 r color.

(** The colour of a bar, lines 153 and 154. *)
Definition bar_color (rpct tpct : float) : option rgba :=
  score <- pace_score rpct tpct ;;
  score_to_rgb score.

(** The body of the loop, lines 148 to 156, on the buffer and the
    abscissa [x]. *)
Definition draw_bar (bar : tier) (st : canvas * Z) : option (canvas * Z) :=
  let '(pixels, x) := st in
  let rpct := get (remaining_pct bar) 100 in
  let tpct := get (time_remaining_pct bar) 100 in
  pixels <- draw_rect pixels (track_rect x) CORNER_R (140, 140, 140, 45) ;;
  fill_h <- fill_height rpct ;;
  color <- bar_color rpct tpct ;;
  pixels <- draw_rect pixels (fill_rect x fill_h) CORNER_R color ;;
  Some (pixels, x + BAR_W + GAP).

Fixpoint draw_bars (bars : list tier) (st : canvas * Z) : option (canvas * Z) :=
  match bars with
  | [] => Some st
  | bar :: bars' => st' <- draw_bar bar st ;; draw_bars bars' st'
  end.

(** Line 139: the width of the image for [n] bars. *)
Definition image_width (n : Z) : Z := PAD_X * 2 + BAR_W * n + GAP * (n - 1).

(** Lines 138 to 156: the painted buffer with its dimensions. *)
Definition generate_bars_canvas (bars : list tier) : option (Z * Z * canvas) :=
  let n := Z.of_nat (length bars) in
  let W := image_width n in
  let H := ICON_H in
  '(pixels, _) <- draw_bars bars (blank W H, PAD_X) ;;
  Some (W, H, pixels).

Section Encoding.

Variable compress : bytes -> bytes.
(** [base64.b64encode(...).decode("ascii")] *)
Variable b64encode : bytes -> string.

(** [generate_bars_image], lines 137 to 157. *)
Definition generate_bars_image (bars : list tier) : option string :=
  '(W, H, pixels) <- generate_bars_canvas bars ;;
  png <- create_png compress W H pixels ;;
  Some (b64encode png).

End Encoding.

(** *** The callers that decide on "no data" *)



Definition HINT_STYLE : string := "color=#222222,#dddddd size=12"%string.

(** [pace_dot], lines 301 to 309. *)
Definition pace_dot (score : float) : string :=
  if (0.8 <=? score)%float then "🟢"%string
  else if (0.5 <=? score)%float then "🟡"%string
  else if (0.25 <=? score)%float then "🟠"%string
  else "🔴"%string.

(** The message of [format_pace_hint], lines 335 to 342. *)
Definition pace_message (score : float) : string :=
  if (0.8 <=? score)%float then "↳ Comfortable pace"%string
  else if (0.5 <=? score)%float then "↳ Burning a bit fast"%string
  else if (0.25 <=? score)%float then "↳ Slow down to avoid hitting limit"%string
  else "⚠️ Near limit — conserve usage"%string.

(** [format_pace_hint], lines 329 to 343. *)
Definition format_pace_hint (t : tier) : option string :=
  let rpct := get (remaining_pct t) (-1) in
  let tpct := get (time_remaining_pct t) 50 in
  if (rpct <? 0)%float then Some ""%string
  else
    score <- pace_score rpct tpct ;;
    Some (pace_message score ++ " | " ++ HINT_STYLE)%string.

Section Formatting.

(** The float formats [:.0f] and [:.2f] of the f-strings. *)
Variable fmt_0f : float -> string.
Variable fmt_2f : float -> string.

(** The two library calls of the time helpers: the ISO parser of line 168
    and the text of lines 181 to 187. *)
Variable parse_iso : string -> option Clock.datetime.
Variable fmt_left : float -> string.


End Formatting.



End Bars.

(** ** Derived fields ([load_usage]) *)

Module Usage.

Local Open Scope float_scope.

(** Line 242 of [load_usage] and line 35 of [get_remaining]:
    [max(0, (1 - used / limit)) * 100]. *)
Definition derived_remaining (used limit : float) : option float :=
  q <- Py.div used limit ;;
  Some (Py.max 0 (1 - q) * 100).


End Usage.

(** ** The history builder ([build-history.py]) *)

Module History.
Import Usage.

Local Open Scope float_scope.

(** A tier object of a history line: the keys [normalize] reads, [None]
    for an absent key.  Numbers are floats, [reset_at] is a string. *)
Record raw_tier : Type := {
  raw_remaining_pct : option float;
  raw_used : option float;
  raw_limit : option float;
  raw_spent : option float;
  raw_cap : option float;
  raw_reset_at : option string
}.

(** The empty dictionary [{}]. *)
Definition no_tier : raw_tier :=
  {| raw_remaining_pct := None; raw_used := None; raw_limit := None;
     raw_spent := None; raw_cap := None; raw_reset_at := None |}.

(** A line of [history.jsonl] once parsed. *)
Record raw_entry : Type := {
  raw_ts : option string;
  raw_updated_at : option string;
  (** ["event" in entry] *)
  raw_event : bool;
  raw_session : option raw_tier;
  raw_weekly : option raw_tier;
  raw_extra : option raw_tier
}.

(** The truth value of [d.get(key)] for a string: absent and empty are
    false. *)
Definition truthy (s : option string) : bool :=
  match s with
  | Some s => negb (s =? "")%string
  | None => false
  end.

(** [d.get(key, {})] *)
Definition get_tier (t : option raw_tier) : raw_tier :=
  match t with
  | Some t => t
  | None => no_tier
  end.

Definition present {A : Type} (x : option A) : bool :=
  match x with
  | Some _ => true
  | None => false
  end.

(** [get_remaining], lines 31 to 36; the outer [None] is an exception. *)
Definition get_remaining (tier : raw_tier) : option (option float) :=
  match raw_remaining_pct tier with
  | Some v => Some (Some v)
  | None =>
      match raw_used tier, raw_limit tier with
      | Some used, Some limit =>
          if 0 <? limit then
            v <- derived_remaining used limit ;;
            Some (Some v)
          else Some None
      | _, _ => Some None
      end
  end.

(** The tiers of a normalised entry. *)
Record tier : Type := {
  remaining_pct : float;
  used : float;
  reset_at : option string
}.

Record extra_tier : Type := {
  extra_remaining_pct : float;
  spent : float;
  cap : float;
  extra_reset_at : option string
}.

Record entry : Type := {
  ts : string;
  session : tier;
  weekly : tier;
  extra : extra_tier
}.

(** [x if x is not None else d] and [d.get(key, d)] on numbers. *)
Definition or_default (x : option float) (d : float) : float :=
  match x with
  | Some v => v
  | None => d
  end.

(** Lines 62 to 67: [reset_at] is copied when it is there and not empty. *)
Definition kept_reset_at (t : raw_tier) : option string :=
  if truthy (raw_reset_at t) then raw_reset_at t else None.

(** [normalize], lines 16 to 68.  The outer [None] is an exception, the
    inner one the [None] the function returns for a line it skips. *)
Definition normalize (e : raw_entry) : option (option entry) :=
  let ts := if truthy (raw_ts e) then raw_ts e else raw_updated_at e in
  if negb (truthy ts) then Some None
  else
    match ts with
    | None => Some None
    | Some ts =>
        if raw_event e && negb (present (raw_session e)) then Some None
        else
          let session := get_tier (raw_session e) in
          let weekly := get_tier (raw_weekly e) in
          let extra := get_tier (raw_extra e) in
          s_remain <- get_remaining session ;;
          w_remain <- get_remaining weekly ;;
          e_remain <- get_remaining extra ;;
          if negb (present s_remain) && negb (present w_remain) then Some None
          else
            Some (Some
              {| ts := ts;
                 session :=
                   {| remaining_pct := or_default s_remain 100;
                      used := or_default (raw_used session) 0;
                      reset_at := kept_reset_at session |};
                 weekly :=
                   {| remaining_pct := or_default w_remain 100;
                      used := or_default (raw_used weekly) 0;
                      reset_at := kept_reset_at weekly |};
                 extra :=
                   {| extra_remaining_pct := or_default e_remain 100;
                      spent := or_default (raw_spent extra) 0;
                      cap := or_default (raw_cap extra) 100;
                      extra_reset_at := kept_reset_at extra |} |})
    end.

(** [ts in seen_ts] *)
Definition seen (t : string) (seen_ts : list string) : bool :=
  existsb (String.eqb t) seen_ts.

(** The body of the loop of [main], lines 80 to 91, on [entries] and
    [seen_ts].  A line is [None] when it is blank or when [json.loads]
    rejects it. *)
Definition read_line (line : option raw_entry) (st : list entry * list string)
  : option (list entry * list string) :=
  let '(entries, seen_ts) := st in
  match line with
  | None => Some st
  | Some raw =>
      norm <- normalize raw ;;
      match norm with
      | Some n =>
          if negb (seen (ts n) seen_ts)
          then Some (entries ++ [n], ts n :: seen_ts)
          else Some st
      | None => Some st
      end
  end.

Fixpoint read_lines (lines : list (option raw_entry))
    (st : list entry * list string) : option (list entry * list string) :=
  match lines with
  | [] => Some st
  | line :: lines' => st' <- read_line line st ;; read_lines lines' st'
  end.

(** [entries.sort(key=lambda e: e["ts"])]: the stable sort on the string
    order of the timestamps.  An entry is put before the first entry of
    the sorted rest whose timestamp is not smaller. *)
Fixpoint insert_by_ts (n : entry) (l : list entry) : list entry :=
  match l with
  | [] => [n]
  | m :: l' =>
      if (ts n <=? ts m)%string then n :: m :: l' else m :: insert_by_ts n l'
  end.

Fixpoint sort_by_ts (l : list entry) : list entry :=
  match l with
  | [] => []
  | n :: l' => insert_by_ts n (sort_by_ts l')
  end.

(** Lines 76 to 94 of [main]: the entries written to [data.json]. *)
Definition build_entries (lines : list (option raw_entry)) : option (list entry) :=
  '(entries, _) <- read_lines lines ([], []) ;;
  Some (sort_by_ts entries).

(** The timestamps strictly increase along a list of entries. *)
Fixpoint increasing (l : list entry) : bool :=
  match l with
  | n :: ((m :: _) as l') => (ts n <? ts m)%string && increasing l'
  | _ => true
  end.

(** The first entry of a list with the timestamp [t]. *)
Definition find_ts (t : string) (l : list entry) : option entry :=
  find (fun n => (ts n =? t)%string) l.

(** The first line of the file that normalises to the timestamp [t]. *)
Fixpoint first_with_ts (t : string) (lines : list (option raw_entry))
  : option entry :=
  match lines with
  | [] => None
  | line :: lines' =>
      match line with
      | Some raw =>
          match normalize raw with
          | Some (Some n) =>
              if (ts n =? t)%string then Some n else first_with_ts t lines'
          | _ => first_with_ts t lines'
          end
      | None => first_with_ts t lines'
      end
  end.

End History.

(** ** Auxiliary notions for the properties of the canvas and the menu *)

Module Aux.
Import Pacing Canvas ByteCheck Bars.

Local Open Scope float_scope.

(** An index range [lo .. hi] of a list of length [n] read through
    Python's negative indexing: either it is not moved ([d = 0]), or it
    lies below zero and is moved up by the length. *)
Definition wraps (n lo hi d : Z) : Prop :=
  d = 0%Z \/ (d = n /\ (- n <= lo)%Z /\ (hi < 0)%Z).

(** The four corner pixels of an inclusive rectangle. *)
Definition is_corner (x0 y0 x1 y1 x y : Z) : bool :=
  ((x =? x0)%Z || (x =? x1)%Z) && ((y =? y0)%Z || (y =? y1)%Z).

(** A channel of an opaque colour ([sa = 255]) truncates to the source. *)
Definition opaque_channel_ok (fs fd : float) : bool :=
  match Py.int (chan_float fs fd (255 / 255)), Py.int fs with
  | Some out, Some s => (out =? s)%Z
  | _, _ => false
  end.

(** A channel of a fully transparent colour ([sa = 0]) truncates to the
    destination. *)
Definition clear_channel_ok (fs fd : float) : bool :=
  match Py.int (chan_float fs fd (0 / 255)), Py.int fd with
  | Some out, Some d => (out =? d)%Z
  | _, _ => false
  end.

(** [int(float(k)) = k] on the bytes. *)
Definition byte_int_agrees (k : nat) : bool :=
  match Py.int (byte_float k) with
  | Some z => (z =? Z.of_nat k)%Z
  | None => false
  end.

(** The pixel [pixels[y][x]] is there and [create_png] can pack it. *)
Definition packable (pixels : canvas) (x y : Z) : bool :=
  match pixel_at pixels x y with
  | Some px => byte_rgba px
  | None => false
  end.

(** How good a status dot is: red 0, orange 1, yellow 2, green 3. *)
Definition dot_rank (dot : string) : nat :=
  if (dot =? "🟢")%string then 3
  else if (dot =? "🟡")%string then 2
  else if (dot =? "🟠")%string then 1
  else 0.

(** The abscissa of the [k]-th bar, from line 142 and line 156. *)
Definition bar_x (k : Z) : Z := (PAD_X + k * (BAR_W + GAP))%Z.

(** *** A bar as the specification describes it *)

(** The track colour of line 150. *)
Definition track_color : rgba := (140, 140, 140, 45)%Z.

(** The pixels a fill with corner radius 1 writes in a rectangle of at
    least two rows and two columns: all but the four corners. *)
Definition in_rounded (rect : Z * Z * Z * Z) (x y : Z) : bool :=
  let '(x0, y0, x1, y1) := rect in
  in_rect x0 y0 x1 y1 x y && negb (is_corner x0 y0 x1 y1 x y).

(** The colour composited over the pixel where the rectangle covers it. *)
Definition paint (rect : Z * Z * Z * Z) (color : rgba) (x y : Z) (dst : rgba)
  : option rgba :=
  if in_rounded rect x y then blend color dst else Some dst.

(** One bar at the abscissa [x]: the track over the 11 rows of the bar,
    then the fill in [color] over the bottom [h] rows of the track. *)
Definition bar_pixel (x h : Z) (color : rgba) (px py : Z) (dst : rgba)
  : option rgba :=
  t <- paint (x, y_top, x + BAR_W - 1, y_top + BAR_H - 1)%Z track_color px py dst ;;
  paint (x, y_top + BAR_H - h, x + BAR_W - 1, y_top + BAR_H - 1)%Z color px py t.

(** The bars side by side, the first at [x], 5 pixels apart. *)
Fixpoint bars_pixel (bars : list tier) (x px py : Z) (dst : rgba) : option rgba :=
  match bars with
  | [] => Some dst
  | b :: bars' =>
      let rpct := get (remaining_pct b) 100 in
      let tpct := get (time_remaining_pct b) 100 in
      h <- fill_height rpct ;;
      color <- bar_color rpct tpct ;;
      d <- bar_pixel x h color px py dst ;;
      bars_pixel bars' (x + BAR_W + GAP)%Z px py d
  end.

(** [floor(num * x / den)] in exact arithmetic, for a float [x >= 0]. *)
Definition exact_floor (num den : Z) (x : spec_float) : option Z :=
  match x with
  | S754_zero _ => Some 0%Z
  | S754_finite false m e =>
      Some ((num * (Zpos m * 2 ^ Z.max 0 e)) / (den * 2 ^ Z.max 0 (- e)))%Z
  | _ => None
  end.

(** The fill height as the specification words it, the product and the
    quotient exact: [max(2, floor(bar_height * clamp(rpct, 0, 100) / 100))]. *)
Definition spec_fill_height (rpct : float) : option Z :=
  v <- exact_floor BAR_H 100 (Prim2SF (clamp_pct rpct)) ;;
  Some (Z.max 2 v).

End Aux.
(** ** The order of binary64 numbers *)

Module FloatOrder.
Import FloatPred.


Ltac cmp_cases :=
  repeat match goal with
  | |- context [Z.compare ?a ?b] => destruct (Z.compare_spec a b)
  | H : context [Z.compare ?a ?b] |- _ => destruct (Z.compare_spec a b)
  | |- context [Pos.compare_cont Eq ?a ?b] =>
      change (Pos.compare_cont Eq a b) with (Pos.compare a b);
      destruct (Pos.compare_spec a b)
  | H : context [Pos.compare_cont Eq ?a ?b] |- _ =>
      change (Pos.compare_cont Eq a b) with (Pos.compare a b) in H;
      destruct (Pos.compare_spec a b)
  end.

Ltac sf_order :=
  unfold SFleb, SFltb, SFeqb, SFcompare in *;
  repeat match goal with
  | x : spec_float |- _ => destruct x
  | s : bool |- _ => destruct s
  end;
  simpl in *; try congruence; try reflexivity;
  cmp_cases; simpl in *; subst; try congruence; try reflexivity; try lia.

Lemma SFltb_leb x y : SFltb x y = true -> SFleb x y = true.
Proof. sf_order. Qed.

Lemma SFleb_refl_of_leb x y : SFleb x y = true -> SFleb x x = true /\ SFleb y y = true.
Proof. split; sf_order. Qed.

Lemma SFleb_total x y :
  SFleb x x = true -> SFleb y y = true -> SFleb x y = false -> SFltb y x = true.
Proof. sf_order. Qed.

Lemma SFltb_total x y :
  SFleb x x = true -> SFleb y y = true -> SFltb x y = false -> SFleb y x = true.
Proof. sf_order. Qed.

Lemma SFltb_not_leb x y : SFltb x y = true -> SFleb y x = false.
Proof. sf_order. Qed.

Lemma SFleb_not_ltb x y : SFleb x y = true -> SFltb y x = false.
Proof. sf_order. Qed.

Lemma SFleb_trans x y z : SFleb x y = true -> SFleb y z = true -> SFleb x z = true.
Proof. sf_order. Qed.

Lemma SFltb_leb_trans x y z : SFltb x y = true -> SFleb y z = true -> SFltb x z = true.
Proof. sf_order. Qed.

Lemma SFleb_ltb_trans x y z : SFleb x y = true -> SFltb y z = true -> SFltb x z = true.
Proof. sf_order. Qed.

Lemma SFeqb_leb x y : SFeqb x y = true -> SFleb x y = true /\ SFleb y x = true.
Proof. split; sf_order. Qed.

Lemma nonneg_sf_zero_le x : nonneg_sf x = true -> SFleb (S754_zero false) x = true.
Proof. sf_order. Qed.

Lemma pos_sf_of_lt x y : nonneg_sf x = true -> SFltb x y = true -> pos_sf y = true.
Proof. sf_order. Qed.

Lemma pos_sf_nonneg x : pos_sf x = true -> nonneg_sf x = true.
Proof. sf_order. Qed.

End FloatOrder.

(** ** Signs through rounding and division *)

Module FloatSign.
Import FloatPred FloatOrder.


Lemma plus_sf_nonneg x : plus_sf x = true -> nonneg_sf x = true.
Proof. destruct x; simpl; auto. Qed.

Lemma iter_pos_invariant {A : Type} (P : A -> Prop) (f : A -> A) :
  (forall a, P a -> P (f a)) -> forall n a, P a -> P (iter_pos f n a).
Proof.
  intros Hf. induction n as [n IH | n IH |]; simpl; intros a Ha; auto.
Qed.

Lemma shr_1_nonneg mrs : 0 <= shr_m mrs -> 0 <= shr_m (shr_1 mrs).
Proof.
  destruct mrs as [m r s]. simpl.
  destruct m as [| p | p]; [ simpl; lia | | simpl; lia ].
  destruct p; simpl; lia.
Qed.

Lemma shr_m_record_of_loc m l : shr_m (shr_record_of_loc m l) = m.
Proof. destruct l as [| []]; reflexivity. Qed.

Lemma shr_fexp_nonneg m e l :
  0 <= m -> 0 <= shr_m (fst (shr_fexp prec emax m e l)).
Proof.
  intros Hm. unfold shr_fexp, shr.
  destruct (fexp prec emax (Zdigits2 m + e) - e) as [| n | n]; simpl;
    rewrite ?shr_m_record_of_loc; auto.
  apply (iter_pos_invariant (fun mrs => 0 <= shr_m mrs)).
  - apply shr_1_nonneg.
  - now rewrite shr_m_record_of_loc.
Qed.

Lemma round_nearest_even_nonneg m l : 0 <= m -> 0 <= round_nearest_even m l.
Proof.
  intros Hm. destruct l as [| []]; simpl; try lia.
  destruct (Z.even m); lia.
Qed.

Lemma binary_round_aux_plus m e l :
  0 <= m -> plus_sf (binary_round_aux prec emax false m e l) = true.
Proof.
  intros Hm. unfold binary_round_aux.
  pose proof (shr_fexp_nonneg m e l Hm) as H1.
  destruct (shr_fexp prec emax m e l) as [mrs' e'] eqn:E1. simpl in H1.
  pose proof (round_nearest_even_nonneg _ (loc_of_shr_record mrs') H1) as H2.
  pose proof (shr_fexp_nonneg _ e' loc_Exact H2) as H3.
  destruct (shr_fexp prec emax _ e' loc_Exact) as [mrs'' e''] eqn:E2. simpl in H3.
  destruct (shr_m mrs'') as [| p | p]; simpl; [ reflexivity | | lia ].
  destruct (_ <=? _); reflexivity.
Qed.

Lemma SFdiv_core_binary_nonneg m1 e1 m2 e2 :
  fst (fst (SFdiv_core_binary prec emax (Zpos m1) e1 (Zpos m2) e2)) >= 0.
Proof.
  unfold SFdiv_core_binary.
  set (s := e1 - e2 - _).
  set (m' := match s with Z0 => Zpos m1 | Zpos _ => Z.shiftl (Zpos m1) s | Zneg _ => 0 end).
  assert (Hm' : 0 <= m').
  { unfold m'. destruct s; try lia. apply Z.shiftl_nonneg. lia. }
  pose proof (Z_div_mod m' (Zpos m2) eq_refl) as Hd.
  destruct (Z.div_eucl m' (Zpos m2)) as [q r]. simpl. nia.
Qed.

(** Dividing a number with a clear sign bit by a positive finite number
    never gives a NaN or a negative result. *)
Lemma SFdiv_plus x y :
  plus_sf x = true -> posfin_sf y = true -> plus_sf (SF64div x y) = true.
Proof.
  intros Hx Hy. unfold SF64div.
  destruct y as [| | | sy my ey]; try discriminate.
  destruct sy; try discriminate.
  destruct x as [sx | sx | | sx mx ex]; try discriminate;
    destruct sx; try discriminate; try reflexivity.
  unfold SFdiv.
  pose proof (SFdiv_core_binary_nonneg mx ex my ey) as Hq.
  destruct (SFdiv_core_binary prec emax (Z.pos mx) ex (Z.pos my) ey) as [[mz ez] lz].
  simpl in Hq. simpl xorb. apply binary_round_aux_plus. lia.
Qed.

End FloatSign.

(** ** Comparisons of primitive floats *)

Module FloatFacts.
Import FloatPred FloatOrder FloatSign.

Local Open Scope float_scope.


Lemma ltb_leb x y : (x <? y) = true -> (x <=? y) = true.
Proof. rewrite ltb_spec, leb_spec. apply SFltb_leb. Qed.

Lemma leb_trans x y z : (x <=? y) = true -> (y <=? z) = true -> (x <=? z) = true.
Proof. rewrite !leb_spec. apply SFleb_trans. Qed.

Lemma ltb_leb_trans x y z : (x <? y) = true -> (y <=? z) = true -> (x <? z) = true.
Proof. rewrite !ltb_spec, leb_spec. apply SFltb_leb_trans. Qed.

Lemma leb_ltb_trans x y z : (x <=? y) = true -> (y <? z) = true -> (x <? z) = true.
Proof. rewrite !ltb_spec, leb_spec. apply SFleb_ltb_trans. Qed.

Lemma plus_zero_le x : plus x -> (0 <=? x) = true.
Proof.
  intros Hx. rewrite leb_spec. apply nonneg_sf_zero_le.
  now apply plus_sf_nonneg.
Qed.

Lemma plus_leb_refl x : plus x -> (x <=? x) = true.
Proof. unfold plus. rewrite leb_spec. destruct (Prim2SF x); sf_order. Qed.

Lemma leb_false_ltb x y :
  (x <=? x) = true -> (y <=? y) = true -> (x <=? y) = false -> (y <? x) = true.
Proof. rewrite !leb_spec, ltb_spec. apply SFleb_total. Qed.

Lemma ltb_false_leb x y :
  (x <=? x) = true -> (y <=? y) = true -> (x <? y) = false -> (y <=? x) = true.
Proof. rewrite !leb_spec, ltb_spec. apply SFltb_total. Qed.

Lemma ltb_not_leb x y : (x <? y) = true -> (y <=? x) = false.
Proof. rewrite leb_spec, ltb_spec. apply SFltb_not_leb. Qed.

Lemma leb_not_ltb x y : (x <=? y) = true -> (y <? x) = false.
Proof. rewrite leb_spec, ltb_spec. apply SFleb_not_ltb. Qed.

Lemma zero_lt_plus x : (0 <? x) = true -> plus x.
Proof.
  unfold plus. rewrite ltb_spec.
  change (Prim2SF 0) with (S754_zero false).
  destruct (Prim2SF x) as [| [] | | [] ]; sf_order.
Qed.

Lemma plus_zero x : plus x -> (0 <? x) = false -> x = 0.
Proof.
  unfold plus. rewrite ltb_spec. intros Hp Hlt.
  apply Prim2SF_inj. change (Prim2SF 0) with (S754_zero false).
  revert Hp Hlt. change (Prim2SF 0) with (S754_zero false).
  destruct (Prim2SF x) as [[] | [] | | [] ]; sf_order.
Qed.

(** A number strictly between two positive finite bounds is positive and
    finite. *)
Lemma between_posfin lo hi x :
  posfin lo -> posfin hi -> (lo <? x) = true -> (x <=? hi) = true -> posfin x.
Proof.
  unfold posfin. rewrite ltb_spec, leb_spec.
  destruct (Prim2SF lo) as [| | | [] ]; try discriminate.
  destruct (Prim2SF hi) as [| | | [] ]; try discriminate.
  destruct (Prim2SF x) as [[] | [] | | [] ]; sf_order.
Qed.

Lemma posfin_plus x : posfin x -> plus x.
Proof. unfold posfin, plus. now destruct (Prim2SF x). Qed.

Lemma posfin_nonzero x : posfin x -> (x =? 0) = false.
Proof.
  unfold posfin. rewrite eqb_spec. change (Prim2SF 0) with (S754_zero false).
  destruct (Prim2SF x) as [| | | [] ]; sf_order.
Qed.

Lemma div_plus x y : plus x -> posfin y -> plus (x / y).
Proof. unfold plus, posfin. rewrite div_spec. apply SFdiv_plus. Qed.

End FloatFacts.


(** ** Rounding is monotone *)

Module RoundFacts.
Import FloatPred FloatOrder FloatSign RoundDefs.

Ltac euclid := Z.to_euclidean_division_equations; nia.

Lemma sticky_div_mono n1 d1 n2 d2 :
  0 < d1 -> 0 < d2 -> n1 * d2 <= n2 * d1 -> sticky_div n1 d1 <= sticky_div n2 d2.
Proof.
  intros H1 H2 Hle. unfold sticky_div.
  pose proof (Z.div_mod n1 d1 ltac:(lia)) as E1.
  pose proof (Z.div_mod n2 d2 ltac:(lia)) as E2.
  pose proof (Z.mod_pos_bound n1 d1 H1) as B1.
  pose proof (Z.mod_pos_bound n2 d2 H2) as B2.
  set (q1 := n1 / d1) in *. set (q2 := n2 / d2) in *.
  set (r1 := n1 mod d1) in *. set (r2 := n2 mod d2) in *.
  assert (Hq : q1 <= q2).
  { destruct (Z_le_gt_dec q1 q2) as [Hq | Hq]; [ exact Hq | exfalso ].
    assert (d1 * d2 * (q2 + 1) <= d1 * d2 * q1) by (apply Z.mul_le_mono_nonneg_l; nia).
    nia. }
  destruct (Z.eqb_spec r1 0) as [Er1 | Er1];
    destruct (Z.eqb_spec r2 0) as [Er2 | Er2]; try lia.
  destruct (Z.eq_dec q1 q2) as [Eq | Nq]; [ exfalso | lia ].
  rewrite Eq in E1. nia.
Qed.

Lemma sticky_div_halve n d :
  0 < d -> halve_pos (sticky_div n d) = sticky_div n (2 * d).
Proof.
  intros Hd. unfold halve_pos, sticky_div.
  destruct (Z.eqb_spec (n mod d) 0) as [E1 | E1];
    destruct (Z.eqb_spec (n mod (2 * d)) 0) as [E2 | E2];
    match goal with |- context [?p mod 4 =? 0] =>
      destruct (Z.eqb_spec (p mod 4) 0) as [E3 | E3] end;
    euclid.
Qed.

Lemma round_pos_mono p q : p <= q -> round_pos p <= round_pos q.
Proof.
  intros Hpq. unfold round_pos.
  assert (Hstep : forall a, round_pos a <= round_pos (a + 1)).
  { intros a. unfold round_pos.
    destruct (Z.leb_spec (a mod 4) 1); destruct (Z.eqb_spec (a mod 4) 2);
      destruct (Z.leb_spec ((a + 1) mod 4) 1);
      destruct (Z.eqb_spec ((a + 1) mod 4) 2);
      destruct (Z.even (a / 4)) eqn:Ea; destruct (Z.even ((a + 1) / 4)) eqn:Eb;
      try (Z.to_euclidean_division_equations; lia). }
  fold (round_pos p) (round_pos q).
  replace q with (p + Z.of_nat (Z.to_nat (q - p))) by lia.
  induction (Z.to_nat (q - p)) as [| k IH]; [ rewrite Z.add_0_r; lia | ].
  rewrite Nat2Z.inj_succ. unfold Z.succ. rewrite Z.add_assoc.
  eapply Z.le_trans; [ exact IH | apply Hstep ].
Qed.

(** *** Shifts *)

Lemma record_pos_of_loc m l :
  record_pos (shr_record_of_loc m l)
  = 4 * m + match l with
            | loc_Exact => 0
            | loc_Inexact Lt => 1
            | loc_Inexact Eq => 2
            | loc_Inexact Gt => 3
            end.
Proof. destruct l as [| []]; unfold record_pos; simpl; lia. Qed.

Lemma halve_pos_bits h b c :
  0 <= b <= 1 -> 0 <= c <= 3 ->
  halve_pos (4 * (2 * h + b) + c) = 4 * h + 2 * b + (if c =? 0 then 0 else 1).
Proof.
  intros Hb Hc. unfold halve_pos.
  assert (E1 : (4 * (2 * h + b) + c) / 4 = 2 * h + b)
    by (Z.to_euclidean_division_equations; lia).
  assert (E2 : (4 * (2 * h + b) + c) mod 4 = c)
    by (Z.to_euclidean_division_equations; lia).
  rewrite E1, E2. lia.
Qed.

Lemma shr_1_pos mrs :
  0 <= shr_m mrs -> record_pos (shr_1 mrs) = halve_pos (record_pos mrs).
Proof.
  destruct mrs as [m r s]. unfold record_pos. simpl shr_m.
  intros Hm.
  set (c := (if r then 2 else 0) + (if s then 1 else 0)).
  assert (Hc : 0 <= c <= 3) by (unfold c; destruct r, s; lia).
  assert (Hs : (if r || s then 1 else 0) = (if c =? 0 then 0 else 1))
    by (unfold c; destruct r, s; reflexivity).
  rewrite <- Z.add_assoc. fold c.
  assert (Hgo : forall h b x, 0 <= b <= 1 -> x = 4 * (2 * h + b) + c ->
                  4 * h + 2 * b + (if r || s then 1 else 0) = halve_pos x).
  { intros h b x Hb ->. rewrite (halve_pos_bits h b c Hb Hc), Hs. reflexivity. }
  destruct m as [| p | p]; [ | | lia ].
  - simpl shr_1. cbn [shr_m shr_r shr_s].
    rewrite <- (Hgo 0 0); lia.
  - destruct p as [p | p |]; simpl shr_1; cbn [shr_m shr_r shr_s].
    + rewrite <- (Hgo (Zpos p) 1); lia.
    + rewrite <- (Hgo (Zpos p) 0); lia.
    + rewrite <- (Hgo 0 1); lia.
Qed.

Lemma shr_1_m mrs : 0 <= shr_m mrs -> shr_m (shr_1 mrs) = shr_m mrs / 2.
Proof.
  destruct mrs as [m r s]. simpl shr_m. intros Hm.
  rewrite <- Z.div2_div.
  destruct m as [| p | p]; [ reflexivity | | lia ].
  destruct p as [p | p |]; reflexivity.
Qed.

(** A property indexed by the number of steps, through [iter_pos]. *)
Lemma iter_pos_count {A : Type} (P : Z -> A -> Prop) (f : A -> A) :
  (forall k a, 0 <= k -> P k a -> P (k + 1) (f a)) ->
  forall n k a, 0 <= k -> P k a -> P (k + Zpos n) (iter_pos f n a).
Proof.
  intros Hf. induction n as [n IH | n IH |]; intros k a Hk Ha; simpl.
  - rewrite Pos2Z.inj_xI.
    replace (k + (2 * Zpos n + 1)) with (k + 1 + Zpos n + Zpos n) by lia.
    apply IH; [ lia | ]. apply IH; [ lia | ]. now apply Hf.
  - rewrite Pos2Z.inj_xO.
    replace (k + 2 * Zpos n) with (k + Zpos n + Zpos n) by lia.
    apply IH; [ lia | ]. now apply IH.
  - now apply Hf.
Qed.

(** The record after [n] shifts. *)
Lemma iter_shr_1 N D m l n :
  0 <= m -> 0 < D ->
  record_pos (shr_record_of_loc m l) = sticky_div N D ->
  let mrs := iter_pos shr_1 n (shr_record_of_loc m l) in
  shr_m mrs = m / 2 ^ Zpos n
  /\ record_pos mrs = sticky_div N (2 ^ Zpos n * D).
Proof.
  intros Hm HD Hrep mrs.
  pose (P := fun k a => shr_m a = m / 2 ^ k
                        /\ record_pos a = sticky_div N (2 ^ k * D)).
  assert (H : P (0 + Zpos n) mrs).
  { apply (iter_pos_count P shr_1).
    - intros k a Hk [Ha1 Ha2]. unfold P.
      assert (Ha0 : 0 <= shr_m a)
        by (rewrite Ha1; apply Z.div_pos; [ lia | apply Z.pow_pos_nonneg; lia ]).
      split.
      + rewrite shr_1_m, Ha1 by exact Ha0.
        rewrite Z.pow_add_r, Z.div_div by lia. reflexivity.
      + rewrite shr_1_pos, Ha2 by exact Ha0.
        rewrite sticky_div_halve by (apply Z.mul_pos_pos; [ apply Z.pow_pos_nonneg | ]; lia).
        f_equal. rewrite Z.pow_add_r by lia. ring.
    - lia.
    - unfold P. rewrite shr_m_record_of_loc, Z.pow_0_r, Z.div_1_r, Z.mul_1_l. auto. }
  exact H.
Qed.

(** [shr_fexp] moves to the exponent of the format. *)
Lemma shr_fexp_pos N D m e l :
  0 <= m -> 0 < D ->
  record_pos (shr_record_of_loc m l) = sticky_div N D ->
  let E := Z.max e (fexp prec emax (Zdigits2 m + e)) in
  let '(mrs, E') := shr_fexp prec emax m e l in
  E' = E
  /\ shr_m mrs = m / 2 ^ (E - e)
  /\ record_pos mrs = sticky_div N (2 ^ (E - e) * D).
Proof.
  intros Hm HD Hrep E. unfold shr_fexp, shr.
  destruct (fexp prec emax (Zdigits2 m + e) - e) as [| n | n] eqn:En.
  - replace (E - e) with 0 by lia.
    rewrite shr_m_record_of_loc, Z.pow_0_r, Z.div_1_r, Z.mul_1_l.
    repeat split; [ lia | exact Hrep ].
  - replace (E - e) with (Zpos n) by lia.
    destruct (iter_shr_1 N D m l n Hm HD Hrep) as [H1 H2].
    repeat split; [ lia | exact H1 | exact H2 ].
  - replace (E - e) with 0 by lia.
    rewrite shr_m_record_of_loc, Z.pow_0_r, Z.div_1_r, Z.mul_1_l.
    repeat split; [ lia | exact Hrep ].
Qed.

Lemma round_nearest_even_pos mrs :
  0 <= shr_m mrs ->
  round_nearest_even (shr_m mrs) (loc_of_shr_record mrs) = round_pos (record_pos mrs).
Proof.
  destruct mrs as [m r s]. unfold record_pos, round_pos. cbn [shr_m shr_r shr_s].
  intros Hm.
  assert (Hq : forall c, 0 <= c < 4 -> (4 * m + c) / 4 = m /\ (4 * m + c) mod 4 = c)
    by (intros c Hc; Z.to_euclidean_division_equations; lia).
  destruct r, s; simpl loc_of_shr_record; unfold round_nearest_even.
  - destruct (Hq 3 ltac:(lia)) as [E1 E2].
    replace (4 * m + 2 + 1) with (4 * m + 3) by lia. rewrite E1, E2. reflexivity.
  - destruct (Hq 2 ltac:(lia)) as [E1 E2].
    replace (4 * m + 2 + 0) with (4 * m + 2) by lia. rewrite E1, E2. reflexivity.
  - destruct (Hq 1 ltac:(lia)) as [E1 E2].
    replace (4 * m + 0 + 1) with (4 * m + 1) by lia. rewrite E1, E2. reflexivity.
  - destruct (Hq 0 ltac:(lia)) as [E1 E2].
    replace (4 * m + 0 + 0) with (4 * m + 0) by lia. rewrite E1, E2. reflexivity.
Qed.

(** *** Digits *)

Lemma Zdigits2_nonneg M : 0 <= Zdigits2 M.
Proof. destruct M; simpl; lia. Qed.

Lemma digits2_pos_lower m : 2 ^ (Zpos (digits2_pos m) - 1) <= Zpos m.
Proof.
  induction m as [m IH | m IH |]; simpl digits2_pos;
    rewrite ?Pos2Z.inj_succ;
    [ | | simpl; lia ];
    replace (Z.succ (Zpos (digits2_pos m)) - 1)
      with (Z.succ (Zpos (digits2_pos m) - 1)) by lia;
    rewrite Z.pow_succ_r by lia; lia.
Qed.

Lemma Zdigits2_lower M : 0 < M -> 2 ^ (Zdigits2 M - 1) <= M.
Proof. destruct M as [| m | m]; try lia. intros _. apply digits2_pos_lower. Qed.

Lemma Zdigits2_upper M : 0 <= M -> M < 2 ^ Zdigits2 M.
Proof.
  destruct M as [| m | m]; try lia; intros _.
  - simpl. lia.
  - simpl Zdigits2. induction m as [m IH | m IH |]; simpl digits2_pos;
      rewrite ?Pos2Z.inj_succ, ?Z.pow_succ_r by lia; lia.
Qed.

Lemma pow2_lt_inv a b : 0 <= b -> 2 ^ a < 2 ^ b -> a < b.
Proof.
  intros Hb H. destruct (Z_lt_ge_dec a b) as [Hab | Hab]; [ exact Hab | exfalso ].
  assert (2 ^ b <= 2 ^ a) by (apply Z.pow_le_mono_r; lia). lia.
Qed.

Lemma Zdigits2_le M k : 0 <= k -> 0 <= M < 2 ^ k -> Zdigits2 M <= k.
Proof.
  intros Hk [H0 Hlt].
  destruct (Z.eq_dec M 0) as [-> | Hne]; [ simpl; lia | ].
  pose proof (Zdigits2_lower M ltac:(lia)) as Hl.
  assert (Zdigits2 M - 1 < k); [ | lia ].
  apply pow2_lt_inv; lia.
Qed.

(** *** The second shift and the result *)

Lemma fexp_eq k : fexp prec emax k = Z.max (k - 53) (-1074).
Proof. reflexivity. Qed.

Lemma round_pos_bounds p : p / 4 <= round_pos p <= p / 4 + 1.
Proof.
  unfold round_pos.
  destruct (p mod 4 <=? 1); [ lia | ].
  destruct (p mod 4 =? 2); [ destruct (Z.even (p / 4)); lia | lia ].
Qed.

Lemma record_pos_div mrs : record_pos mrs / 4 = shr_m mrs.
Proof.
  unfold record_pos. destruct (shr_r mrs), (shr_s mrs);
    Z.to_euclidean_division_equations; lia.
Qed.

Lemma shr_fexp_renorm M E :
  0 <= M <= 2 ^ 53 -> -1074 <= E ->
  let '(mrs, E') := shr_fexp prec emax M E loc_Exact in
  (shr_m mrs, E') = renorm M E.
Proof.
  intros HM HE.
  assert (Hrep : record_pos (shr_record_of_loc M loc_Exact) = sticky_div (2 * M) 1).
  { rewrite record_pos_of_loc. unfold sticky_div.
    rewrite Z.div_1_r, Z.mod_1_r. change (0 =? 0) with true. cbv iota. lia. }
  pose proof (shr_fexp_pos (2 * M) 1 M E loc_Exact ltac:(lia) ltac:(lia) Hrep) as H.
  cbv zeta in H.
  destruct (shr_fexp prec emax M E loc_Exact) as [mrs E'].
  destruct H as (HE' & Hm & _). unfold renorm.
  rewrite fexp_eq in HE', Hm.
  destruct (Z.eqb_spec M (2 ^ 53)) as [-> | Hne].
  - change (Zdigits2 (2 ^ 53)) with 54 in HE', Hm.
    replace (Z.max E (Z.max (54 + E - 53) (-1074))) with (E + 1) in HE', Hm by lia.
    replace (E + 1 - E) with 1 in Hm by lia.
    rewrite Hm, HE'. reflexivity.
  - assert (Hd : Zdigits2 M <= 53) by (apply Zdigits2_le; lia).
    replace (Z.max E (Z.max (Zdigits2 M + E - 53) (-1074))) with E in HE', Hm by lia.
    rewrite Z.sub_diag, Z.pow_0_r, Z.div_1_r in Hm.
    rewrite Hm, HE'. reflexivity.
Qed.

(** What [binary_round_aux] returns for a quantity [N / D * 2^e] held as
    [(m, e, l)]. *)
Lemma binary_round_aux_pack N D m e l :
  0 <= m -> 0 < D ->
  record_pos (shr_record_of_loc m l) = sticky_div N D ->
  let E := Z.max e (fexp prec emax (Zdigits2 m + e)) in
  let M := round_pos (sticky_div N (2 ^ (E - e) * D)) in
  binary_round_aux prec emax false m e l
  = pack (fst (renorm M E)) (snd (renorm M E))
  /\ m / 2 ^ (E - e) <= M <= 2 ^ 53
  /\ -1074 <= E.
Proof.
  intros Hm HD Hrep E M.
  pose proof (shr_fexp_pos N D m e l Hm HD Hrep) as H1. cbv zeta in H1.
  unfold binary_round_aux.
  destruct (shr_fexp prec emax m e l) as [mrs' E'].
  destruct H1 as (HE' & Hm' & Hp'). fold E in HE', Hm', Hp'.
  assert (Hm0 : 0 <= shr_m mrs').
  { rewrite Hm'. apply Z.div_pos; [ lia | apply Z.pow_pos_nonneg; unfold E; lia ]. }
  rewrite (round_nearest_even_pos mrs' Hm0), Hp'. fold M.
  assert (HE : -1074 <= E) by (unfold E; rewrite fexp_eq; lia).
  assert (HEe : 0 <= E - e) by (unfold E; lia).
  pose proof (round_pos_bounds (sticky_div N (2 ^ (E - e) * D))) as Hb.
  rewrite <- Hp', record_pos_div, Hm' in Hb. rewrite Hp' in Hb. fold M in Hb.
  assert (Hlt : m / 2 ^ (E - e) < 2 ^ 53).
  { apply Z.div_lt_upper_bound; [ apply Z.pow_pos_nonneg; lia | ].
    rewrite <- Z.pow_add_r by lia.
    eapply Z.lt_le_trans; [ apply (Zdigits2_upper m Hm) | ].
    apply Z.pow_le_mono_r; [ lia | ].
    unfold E. rewrite fexp_eq. pose proof (Zdigits2_nonneg m). lia. }
  assert (HM : 0 <= M <= 2 ^ 53).
  { split; [ | lia ].
    eapply Z.le_trans; [ | apply Hb ].
    apply Z.div_pos; [ lia | apply Z.pow_pos_nonneg; lia ]. }
  pose proof (shr_fexp_renorm M E' HM ltac:(lia)) as H2.
  destruct (shr_fexp prec emax M E' loc_Exact) as [mrs'' E''].
  rewrite HE' in H2. rewrite <- H2. cbn [fst snd].
  split; [ | split; [ lia | exact HE ] ].
  unfold pack. destruct (shr_m mrs''); reflexivity.
Qed.

(** *** Comparing two results *)

Lemma SFleb_pack M1 E1 M2 E2 :
  0 <= M1 -> 0 <= M2 ->
  (M1 = 0 \/ (0 < M2 /\ (E1 < E2 \/ (E1 = E2 /\ M1 <= M2)))) ->
  SFleb (pack M1 E1) (pack M2 E2) = true.
Proof.
  intros H1 H2 H. unfold pack.
  destruct M1 as [| m1 | m1]; [ | | lia ].
  - destruct M2 as [| m2 | m2]; [ reflexivity | | lia ].
    destruct (E2 <=? 971); reflexivity.
  - destruct H as [H | [HM2 H]]; [ lia | ].
    destruct M2 as [| m2 | m2]; [ lia | | lia ].
    destruct (Z.leb_spec E1 971) as [L1 | L1]; destruct (Z.leb_spec E2 971) as [L2 | L2];
      try reflexivity; [ | lia ].
    unfold SFleb, SFcompare.
    destruct (Z.compare_spec E1 E2) as [Ee | Ee | Ee]; [ | reflexivity | lia ].
    change (Pos.compare_cont Eq m1 m2) with (Pos.compare m1 m2).
    destruct (Pos.compare_spec m1 m2) as [Em | Em | Em]; try reflexivity.
    exfalso. destruct H as [H | [_ H]]; [ lia | ].
    apply Pos2Z.pos_lt_pos in Em. lia.
Qed.

Lemma pack_renorm_le M1 E1 M2 E2 :
  0 <= M1 <= 2 ^ 53 -> 0 <= M2 <= 2 ^ 53 -> E1 <= E2 ->
  (E1 = E2 -> M1 <= M2) -> (E1 < E2 -> 2 ^ 52 <= M2) ->
  SFleb (pack (fst (renorm M1 E1)) (snd (renorm M1 E1)))
        (pack (fst (renorm M2 E2)) (snd (renorm M2 E2))) = true.
Proof.
  intros HM1 HM2 HE Heq Hlt. unfold renorm.
  change (2 ^ 53) with 9007199254740992 in *.
  change (2 ^ 52) with 4503599627370496 in *.
  assert (Hcases : (E1 = E2 /\ M1 <= M2) \/ (E1 < E2 /\ 4503599627370496 <= M2)).
  { destruct (Z.eq_dec E1 E2) as [Ee | Ne]; [ left | right ]; split; auto; lia. }
  clear Heq Hlt.
  destruct (Z.eqb_spec M1 9007199254740992) as [-> | N1];
    destruct (Z.eqb_spec M2 9007199254740992) as [-> | N2];
    cbn [fst snd]; apply SFleb_pack; lia.
Qed.

(** Two quantities [N1 / D1 * 2^e1 <= N2 / D2 * 2^e2], each held with
    enough precision, round to floats in the same order. *)
Lemma binary_round_aux_mono N1 D1 m1 e1 l1 N2 D2 m2 e2 l2 :
  0 <= m1 -> 0 < D1 -> record_pos (shr_record_of_loc m1 l1) = sticky_div N1 D1 ->
  0 <= m2 -> 0 < D2 -> record_pos (shr_record_of_loc m2 l2) = sticky_div N2 D2 ->
  let E1 := fexp prec emax (Zdigits2 m1 + e1) in
  let E2 := fexp prec emax (Zdigits2 m2 + e2) in
  e1 <= E1 -> e2 <= E2 -> E1 <= E2 ->
  (E1 = E2 -> N1 * (2 ^ (E2 - e2) * D2) <= N2 * (2 ^ (E1 - e1) * D1)) ->
  SFleb (binary_round_aux prec emax false m1 e1 l1)
        (binary_round_aux prec emax false m2 e2 l2) = true.
Proof.
  intros Hm1 HD1 Hr1 Hm2 HD2 Hr2 E1 E2 Hp1 Hp2 HE Hval.
  destruct (binary_round_aux_pack N1 D1 m1 e1 l1 Hm1 HD1 Hr1) as (R1 & B1 & L1).
  destruct (binary_round_aux_pack N2 D2 m2 e2 l2 Hm2 HD2 Hr2) as (R2 & B2 & L2).
  fold E1 in R1, B1, L1. fold E2 in R2, B2, L2.
  rewrite (Z.max_r e1 E1 Hp1) in R1, B1, L1.
  rewrite (Z.max_r e2 E2 Hp2) in R2, B2, L2.
  rewrite R1, R2.
  assert (Hq1 : 0 <= m1 / 2 ^ (E1 - e1))
    by (apply Z.div_pos; [ lia | apply Z.pow_pos_nonneg; lia ]).
  assert (Hq2 : 0 <= m2 / 2 ^ (E2 - e2))
    by (apply Z.div_pos; [ lia | apply Z.pow_pos_nonneg; lia ]).
  apply pack_renorm_le; try lia.
  - intros Ee. apply round_pos_mono, sticky_div_mono.
    + apply Z.mul_pos_pos; [ apply Z.pow_pos_nonneg; lia | lia ].
    + apply Z.mul_pos_pos; [ apply Z.pow_pos_nonneg; lia | lia ].
    + now apply Hval.
  - intros Hlt.
    eapply Z.le_trans; [ | apply B2 ].
    unfold E2 in *. rewrite fexp_eq in *.
    assert (Hm2pos : 0 < m2).
    { destruct (Z.eq_dec m2 0) as [-> | Hne]; [ | lia ].
      simpl Zdigits2 in *. lia. }
    pose proof (Zdigits2_lower m2 Hm2pos) as Hl.
    apply Z.div_le_lower_bound; [ apply Z.pow_pos_nonneg; lia | ].
    rewrite <- Z.pow_add_r by lia.
    eapply Z.le_trans; [ | exact Hl ].
    apply Z.pow_le_mono_r; lia.
Qed.

(** *** The order of valid floats is the order of their values *)

Lemma valid_finite_inv s m e :
  valid_binary (S754_finite s m e) = true ->
  Zpos m < 2 ^ 53 /\ -1074 <= e
  /\ (-1074 < e -> 2 ^ 52 <= Zpos m).
Proof.
  unfold valid_binary, bounded, canonical_mantissa. rewrite fexp_eq.
  intros H. apply andb_prop in H. destruct H as [H _]. apply Z.eqb_eq in H.
  pose proof (Zdigits2_upper (Zpos m) ltac:(lia)) as Hu.
  pose proof (Zdigits2_lower (Zpos m) ltac:(lia)) as Hl.
  simpl Zdigits2 in Hu, Hl.
  set (d := Zpos (digits2_pos m)) in *.
  split; [ | split ].
  - eapply Z.lt_le_trans; [ exact Hu | apply Z.pow_le_mono_r; lia ].
  - lia.
  - intros He. replace 52 with (d - 1) by lia. exact Hl.
Qed.

Lemma value_le m1 e1 m2 e2 a1 a2 :
  valid_binary (S754_finite false m1 e1) = true ->
  valid_binary (S754_finite false m2 e2) = true ->
  SFleb (S754_finite false m1 e1) (S754_finite false m2 e2) = true ->
  0 <= a1 -> 0 <= a2 -> a1 - a2 = e1 - e2 ->
  Zpos m1 * 2 ^ a1 <= Zpos m2 * 2 ^ a2.
Proof.
  intros V1 V2 Hle Ha1 Ha2 Ha.
  destruct (valid_finite_inv _ _ _ V1) as (U1 & L1 & _).
  destruct (valid_finite_inv _ _ _ V2) as (_ & _ & N2).
  unfold SFleb, SFcompare in Hle.
  destruct (Z.compare_spec e1 e2) as [Ee | Ee | Ee]; [ | | discriminate ].
  - replace a2 with a1 by lia.
    change (Pos.compare_cont Eq m1 m2) with (Pos.compare m1 m2) in Hle.
    assert (Hm : Zpos m1 <= Zpos m2).
    { destruct (Pos.compare_spec m1 m2) as [Em | Em | Em]; try discriminate.
      - subst. lia.
      - apply Pos2Z.pos_lt_pos in Em. lia. }
    apply Z.mul_le_mono_nonneg_r; [ apply Z.pow_nonneg; lia | exact Hm ].
  - specialize (N2 ltac:(lia)).
    replace a2 with (a1 + (e2 - e1)) by lia.
    rewrite Z.pow_add_r by lia.
    assert (H2 : 2 <= 2 ^ (e2 - e1)).
    { change 2 with (2 ^ 1) at 1. apply Z.pow_le_mono_r; lia. }
    assert (Hp : 0 < 2 ^ a1) by (apply Z.pow_pos_nonneg; lia).
    change (2 ^ 53) with (2 * 2 ^ 52) in U1.
    set (P := 2 ^ 52) in *. set (A := 2 ^ a1) in *. set (B := 2 ^ (e2 - e1)) in *.
    assert (HP : 0 < P) by reflexivity.
    assert (S1 : Zpos m1 * A <= 2 * P * A)
      by (apply Z.mul_le_mono_nonneg_r; lia).
    assert (S2 : P * 2 <= Zpos m2 * B)
      by (apply Z.mul_le_mono_nonneg; lia).
    assert (S3 : P * 2 * A <= Zpos m2 * B * A)
      by (apply Z.mul_le_mono_nonneg_r; lia).
    replace (Zpos m2 * (A * B)) with (Zpos m2 * B * A) by ring.
    lia.
Qed.

End RoundFacts.

(** ** Division is monotone in the dividend *)

Module DivFacts.
Import FloatPred FloatOrder FloatSign RoundDefs RoundFacts.

Lemma div_mod_of a D k r :
  a = k * D + r -> 0 <= r < D -> a / D = k /\ a mod D = r.
Proof.
  intros Ha Hr. split; symmetry.
  - apply (Z.div_unique a D k r); [ now left | lia ].
  - apply (Z.mod_unique a D k r); [ now left | lia ].
Qed.

Lemma sticky_div_of a D k r :
  a = k * D + r -> 0 <= r < D ->
  sticky_div a D = 2 * k + (if r =? 0 then 0 else 1).
Proof.
  intros Ha Hr. unfold sticky_div.
  destruct (div_mod_of a D k r Ha Hr) as [-> ->]. reflexivity.
Qed.

(** The location of the remainder is the position of the quotient. *)
Lemma new_location_pos D r q :
  0 < D -> 0 <= r < D ->
  record_pos (shr_record_of_loc q (new_location D r))
  = sticky_div (2 * (q * D + r)) D.
Proof.
  intros HD Hr. rewrite record_pos_of_loc.
  assert (Hlow : 2 * r < D ->
            sticky_div (2 * (q * D + r)) D = 4 * q + (if r =? 0 then 0 else 1)).
  { intros H. rewrite (sticky_div_of _ D (2 * q) (2 * r)); [ | ring | lia ].
    destruct (Z.eqb_spec r 0); destruct (Z.eqb_spec (2 * r) 0); lia. }
  assert (Hmid : 2 * r = D -> sticky_div (2 * (q * D + r)) D = 4 * q + 2).
  { intros H. rewrite (sticky_div_of _ D (2 * q + 1) 0); [ | lia | lia ].
    rewrite Z.eqb_refl. lia. }
  assert (Hhigh : D < 2 * r -> sticky_div (2 * (q * D + r)) D = 4 * q + 3).
  { intros H. rewrite (sticky_div_of _ D (2 * q + 1) (2 * r - D)); [ | lia | lia ].
    destruct (Z.eqb_spec (2 * r - D) 0); lia. }
  unfold new_location, new_location_even, new_location_odd.
  destruct (Z.even D) eqn:Ev.
  - destruct (Z.eqb_spec r 0) as [-> | Hne].
    + rewrite Hlow by lia. reflexivity.
    + destruct (Z.compare_spec (2 * r) D) as [E | E | E].
      * now rewrite Hmid.
      * rewrite Hlow by lia. destruct (Z.eqb_spec r 0); lia.
      * now rewrite Hhigh.
  - assert (Hodd : 2 * r <> D).
    { intros E. rewrite <- E, Z.even_mul in Ev. discriminate. }
    destruct (Z.eqb_spec r 0) as [-> | Hne].
    + rewrite Hlow by lia. reflexivity.
    + destruct (Z.compare_spec (2 * r + 1) D) as [E | E | E].
      * rewrite Hlow by lia. destruct (Z.eqb_spec r 0); lia.
      * rewrite Hlow by lia. destruct (Z.eqb_spec r 0); lia.
      * rewrite Hhigh by lia. reflexivity.
Qed.

(** What the division core returns. *)
Lemma div_core_spec m e my ey :
  let '(q, e', l) := SFdiv_core_binary prec emax (Zpos m) e (Zpos my) ey in
  let s := e - ey - e' in
  e' = Z.min (fexp prec emax (Zdigits2 (Zpos m) + e - (Zdigits2 (Zpos my) + ey)))
             (e - ey)
  /\ 0 <= s
  /\ q = (Zpos m * 2 ^ s) / Zpos my
  /\ record_pos (shr_record_of_loc q l) = sticky_div (2 * (Zpos m * 2 ^ s)) (Zpos my).
Proof.
  unfold SFdiv_core_binary.
  set (e' := Z.min _ _).
  set (s := e - ey - e').
  assert (Hs : 0 <= s) by (unfold s, e'; lia).
  set (m' := match s with
             | 0 => Zpos m
             | Zpos _ => Z.shiftl (Zpos m) s
             | Zneg _ => 0
             end).
  assert (Hm' : m' = Zpos m * 2 ^ s).
  { unfold m'. destruct s as [| p | p]; [ simpl; lia | | lia ].
    apply Z.shiftl_mul_pow2. lia. }
  pose proof (Z_div_mod m' (Zpos my) eq_refl) as Hdm.
  destruct (Z.div_eucl m' (Zpos my)) as [q r].
  destruct Hdm as [Hq Hr].
  destruct (div_mod_of m' (Zpos my) q r ltac:(lia) Hr) as [Hdiv _].
  cbv beta iota zeta. change (e - ey - e') with s.
  split; [ reflexivity | ]. split; [ exact Hs | ]. split.
  - rewrite <- Hm'. now symmetry.
  - rewrite <- Hm', Hq. rewrite new_location_pos by lia.
    f_equal. ring.
Qed.

Lemma Zdigits2_pos_ge_1 q : 0 < q -> 1 <= Zdigits2 q.
Proof. destruct q; simpl; lia. Qed.

(** The quotient has the digits the format needs: rounding it shifts right
    or not at all. *)
Lemma div_precision m e my ey :
  let '(q, e', l) := SFdiv_core_binary prec emax (Zpos m) e (Zpos my) ey in
  0 <= q
  /\ e' <= fexp prec emax (Zdigits2 q + e')
  /\ (q = 0 -> fexp prec emax (Zdigits2 q + e') = -1074).
Proof.
  pose proof (div_core_spec m e my ey) as Hspec.
  destruct (SFdiv_core_binary prec emax (Zpos m) e (Zpos my) ey) as [[q e'] l].
  cbv zeta in Hspec. destruct Hspec as (He' & Hs & Hq & _).
  set (s := e - ey - e') in *.
  set (d := Zdigits2 (Zpos m)) in *. set (dy := Zdigits2 (Zpos my)) in *.
  pose proof (Zdigits2_lower (Zpos m) ltac:(lia)) as Lm. fold d in Lm.
  pose proof (Zdigits2_upper (Zpos my) ltac:(lia)) as Uy. fold dy in Uy.
  pose proof (Zdigits2_pos_ge_1 (Zpos m) ltac:(lia)) as Hd1. fold d in Hd1.
  pose proof (Zdigits2_pos_ge_1 (Zpos my) ltac:(lia)) as Hdy1. fold dy in Hdy1.
  rewrite fexp_eq in He'. rewrite !fexp_eq.
  set (n := Zpos m * 2 ^ s) in *.
  assert (Hn : 2 ^ (d - 1 + s) <= n).
  { unfold n. rewrite Z.pow_add_r by lia.
    apply Z.mul_le_mono_nonneg_r; [ apply Z.pow_nonneg; lia | exact Lm ]. }
  assert (Hq0 : 0 <= q).
  { rewrite Hq. apply Z.div_pos; [ | lia ].
    unfold n. apply Z.mul_nonneg_nonneg; [ lia | apply Z.pow_nonneg; lia ]. }
  split; [ exact Hq0 | ].
  destruct (Z.eq_dec q 0) as [Eq0 | Nq0].
  - assert (Hlt : n < Zpos my).
    { pose proof (Z.div_mod n (Zpos my) ltac:(lia)) as Hdm.
      pose proof (Z.mod_pos_bound n (Zpos my) ltac:(lia)) as Hb.
      rewrite <- Hq, Eq0 in Hdm. lia. }
    assert (Hpw : d - 1 + s < dy) by (apply pow2_lt_inv; lia).
    rewrite Eq0. simpl Zdigits2. split; [ lia | intros _; lia ].
  - split; [ | intros; contradiction ].
    assert (Hqpos : 0 < q) by lia.
    pose proof (Zdigits2_pos_ge_1 q Hqpos) as Hdq1.
    pose proof (Zdigits2_upper q Hq0) as Uq.
    assert (Hdq : d + s - dy <= Zdigits2 q).
    { destruct (Z_lt_ge_dec (d - 1 + s - dy) 0) as [Ha | Ha]; [ lia | ].
      assert (Hlow : 2 ^ (d - 1 + s - dy) <= q).
      { rewrite Hq. apply Z.div_le_lower_bound; [ lia | ].
        eapply Z.le_trans; [ | exact Hn ].
        assert (Hsplit : 2 ^ (d - 1 + s) = 2 ^ dy * 2 ^ (d - 1 + s - dy))
          by (rewrite <- Z.pow_add_r by lia; f_equal; lia).
        rewrite Hsplit.
        apply Z.mul_le_mono_nonneg_r; [ apply Z.pow_nonneg; lia | lia ]. }
      assert (d - 1 + s - dy < Zdigits2 q) by (apply pow2_lt_inv; lia).
      lia. }
    unfold s in Hdq. lia.
Qed.

Lemma pow2_split a b : 0 <= a -> 0 <= b -> 2 ^ (a + b) = 2 ^ a * 2 ^ b.
Proof. intros. now apply Z.pow_add_r. Qed.

(** Two positive finite dividends in order, one positive finite divisor:
    the quotients are in the same order. *)
Lemma SFdiv_mono_finite m1 e1 m2 e2 my ey :
  valid_binary (S754_finite false m1 e1) = true ->
  valid_binary (S754_finite false m2 e2) = true ->
  SFleb (S754_finite false m1 e1) (S754_finite false m2 e2) = true ->
  SFleb (SF64div (S754_finite false m1 e1) (S754_finite false my ey))
        (SF64div (S754_finite false m2 e2) (S754_finite false my ey)) = true.
Proof.
  intros V1 V2 Hle. unfold SF64div, SFdiv. cbn [xorb].
  pose proof (div_core_spec m1 e1 my ey) as S1.
  pose proof (div_core_spec m2 e2 my ey) as S2.
  pose proof (div_precision m1 e1 my ey) as P1.
  pose proof (div_precision m2 e2 my ey) as P2.
  destruct (SFdiv_core_binary prec emax (Zpos m1) e1 (Zpos my) ey) as [[q1 c1] l1].
  destruct (SFdiv_core_binary prec emax (Zpos m2) e2 (Zpos my) ey) as [[q2 c2] l2].
  cbv zeta in S1, S2.
  destruct S1 as (_ & Hs1 & Hq1 & R1). destruct S2 as (_ & Hs2 & Hq2 & R2).
  destruct P1 as (Q1 & Pr1 & Z1). destruct P2 as (Q2 & Pr2 & _).
  set (s1 := e1 - ey - c1) in *. set (s2 := e2 - ey - c2) in *.
  set (n1 := Zpos m1 * 2 ^ s1) in *. set (n2 := Zpos m2 * 2 ^ s2) in *.
  set (D := Zpos my) in *.
  assert (HD : 0 < D) by (unfold D; lia).
  set (k1 := Zdigits2 q1 + c1) in *. set (k2 := Zdigits2 q2 + c2) in *.
  assert (HE : fexp prec emax k1 <= fexp prec emax k2).
  { destruct (Z.eq_dec q1 0) as [E0 | N0].
    - rewrite (Z1 E0). rewrite fexp_eq. lia.
    - assert (Hk : k1 <= k2); [ | rewrite !fexp_eq; lia ].
      set (c := Z.min c1 c2).
      pose proof (Zdigits2_lower q1 ltac:(lia)) as Lq1.
      pose proof (Zdigits2_upper q2 Q2) as Uq2.
      pose proof (Zdigits2_pos_ge_1 q1 ltac:(lia)) as G1.
      pose proof (Zdigits2_nonneg q2) as G2.
      set (dq1 := Zdigits2 q1) in *. set (dq2 := Zdigits2 q2) in *.
      assert (Hlow : D * q1 <= n1) by (rewrite Hq1; apply Z.mul_div_le; exact HD).
      assert (Hup : n2 < D * (q2 + 1)).
      { rewrite Hq2. apply (Z.mul_succ_div_gt n2 D HD). }
      assert (Hval : n1 * 2 ^ (c1 - c) <= n2 * 2 ^ (c2 - c)).
      { unfold n1, n2. rewrite <- !Z.mul_assoc, <- !pow2_split by (unfold c; lia).
        apply (value_le m1 e1 m2 e2); auto; unfold s1, s2, c; lia. }
      assert (A1 : D * 2 ^ (dq1 - 1) * 2 ^ (c1 - c) <= n1 * 2 ^ (c1 - c)).
      { apply Z.mul_le_mono_nonneg_r; [ apply Z.pow_nonneg; lia | ].
        eapply Z.le_trans; [ | exact Hlow ].
        apply Z.mul_le_mono_nonneg_l; [ lia | exact Lq1 ]. }
      assert (A2 : n2 * 2 ^ (c2 - c) < D * 2 ^ dq2 * 2 ^ (c2 - c)).
      { apply Z.mul_lt_mono_pos_r; [ apply Z.pow_pos_nonneg; unfold c; lia | ].
        eapply Z.lt_le_trans; [ exact Hup | ].
        apply Z.mul_le_mono_nonneg_l; lia. }
      assert (A3 : D * 2 ^ (dq1 - 1 + (c1 - c)) < D * 2 ^ (dq2 + (c2 - c))).
      { rewrite !pow2_split by (unfold c; lia). rewrite !Z.mul_assoc. lia. }
      apply Z.mul_lt_mono_pos_l in A3; [ | exact HD ].
      apply pow2_lt_inv in A3; [ | unfold c; lia ].
      unfold k1, k2. lia. }
  apply (binary_round_aux_mono (2 * n1) D q1 c1 l1 (2 * n2) D q2 c2 l2);
    auto.
  fold k1 k2. intros Ee.
  assert (Pr1' : c1 <= fexp prec emax k2) by (rewrite <- Ee; exact Pr1).
  rewrite Ee. set (E := fexp prec emax k2) in *.
  assert (Hval : n1 * 2 ^ (E - c2) <= n2 * 2 ^ (E - c1)).
  { unfold n1, n2. rewrite <- !Z.mul_assoc, <- !pow2_split by lia.
    apply (value_le m1 e1 m2 e2); auto; unfold s1, s2; lia. }
  replace (2 * n1 * (2 ^ (E - c2) * D)) with (2 * D * (n1 * 2 ^ (E - c2))) by ring.
  replace (2 * n2 * (2 ^ (E - c1) * D)) with (2 * D * (n2 * 2 ^ (E - c1))) by ring.
  apply Z.mul_le_mono_nonneg_l; lia.
Qed.

Lemma SFleb_plus_inf x : plus_sf x = true -> SFleb x (S754_infinity false) = true.
Proof. destruct x as [[] | [] | | [] ]; simpl; try discriminate; reflexivity. Qed.

(** Division by a positive finite number keeps the order of dividends
    that are zero, positive or [+oo]. *)
Lemma SFdiv_mono x1 x2 y :
  valid_binary x1 = true -> valid_binary x2 = true ->
  plus_sf x1 = true -> plus_sf x2 = true -> posfin_sf y = true ->
  SFleb x1 x2 = true ->
  SFleb (SF64div x1 y) (SF64div x2 y) = true.
Proof.
  intros V1 V2 P1 P2 Py Hle.
  pose proof (SFdiv_plus x1 y P1 Py) as R1.
  pose proof (SFdiv_plus x2 y P2 Py) as R2.
  destruct y as [| | | sy my ey]; try discriminate.
  destruct sy; try discriminate.
  destruct x1 as [s1 | s1 | | s1 m1 e1]; try discriminate;
    destruct s1; try discriminate.
  - apply nonneg_sf_zero_le. now apply plus_sf_nonneg.
  - destruct x2 as [s2 | s2 | | s2 m2 e2]; try discriminate;
      destruct s2; try discriminate.
    reflexivity.
  - destruct x2 as [s2 | s2 | | s2 m2 e2]; try discriminate;
      destruct s2; try discriminate.
    + now apply SFleb_plus_inf.
    + now apply SFdiv_mono_finite.
Qed.

End DivFacts.

(** ** Rounding an exact quantity: products and differences

    A product and a difference of floats are computed exactly as an integer
    mantissa and an exponent, then rounded.  The order of the exact
    quantities is the order of the rounded results. *)

Module ExactFacts.
Import FloatPred FloatOrder FloatSign RoundDefs RoundFacts DivFacts.

Lemma Zdigits2_unique X n :
  0 < X -> 2 ^ (n - 1) <= X < 2 ^ n -> Zdigits2 X = n.
Proof.
  intros HX [L U].
  pose proof (Zdigits2_lower X HX) as L'.
  pose proof (Zdigits2_upper X ltac:(lia)) as U'.
  pose proof (Zdigits2_pos_ge_1 X HX) as G.
  assert (Hn : 1 <= n).
  { destruct (Z_lt_ge_dec n 1) as [Hlt | Hge]; [ | lia ].
    exfalso. destruct (Z.eq_dec n 0) as [-> | Hne].
    - change (2 ^ 0) with 1 in U. lia.
    - rewrite Z.pow_neg_r in U by lia. lia. }
  assert (H1 : Zdigits2 X - 1 < n) by (apply pow2_lt_inv; lia).
  assert (H2 : n - 1 < Zdigits2 X) by (apply pow2_lt_inv; lia).
  lia.
Qed.

Lemma Zdigits2_shift M k :
  0 < M -> 0 <= k -> Zdigits2 (M * 2 ^ k) = Zdigits2 M + k.
Proof.
  intros HM Hk.
  pose proof (Zdigits2_lower M HM) as L.
  pose proof (Zdigits2_upper M ltac:(lia)) as U.
  pose proof (Zdigits2_pos_ge_1 M HM) as G.
  assert (Hp : 0 < 2 ^ k) by (apply Z.pow_pos_nonneg; lia).
  apply Zdigits2_unique; [ apply Z.mul_pos_pos; lia | ].
  replace (Zdigits2 M + k - 1) with (Zdigits2 M - 1 + k) by lia.
  rewrite !pow2_split by lia. split.
  - apply Z.mul_le_mono_nonneg_r; lia.
  - apply Z.mul_lt_mono_pos_r; lia.
Qed.

(** Of two positive quantities in order, the smaller has no more digits
    before the binary point. *)
Lemma digits_scaled_le A a B b :
  0 < A -> 0 < B -> 0 <= a -> 0 <= b -> A * 2 ^ a <= B * 2 ^ b ->
  Zdigits2 A + a <= Zdigits2 B + b.
Proof.
  intros HA HB Ha Hb Hle.
  rewrite <- (Zdigits2_shift A a HA Ha), <- (Zdigits2_shift B b HB Hb).
  assert (Hpa : 0 < 2 ^ a) by (apply Z.pow_pos_nonneg; lia).
  assert (Hpb : 0 < 2 ^ b) by (apply Z.pow_pos_nonneg; lia).
  set (X := A * 2 ^ a) in *. set (Y := B * 2 ^ b) in *.
  assert (HX : 0 < X) by (apply Z.mul_pos_pos; lia).
  assert (HY : 0 < Y) by lia.
  pose proof (Zdigits2_lower X HX) as L.
  pose proof (Zdigits2_upper Y ltac:(lia)) as U.
  pose proof (Zdigits2_nonneg Y) as G.
  assert (H : Zdigits2 X - 1 < Zdigits2 Y) by (apply pow2_lt_inv; lia).
  lia.
Qed.

Lemma scale_le x y p q t :
  0 <= p -> 0 <= q -> 0 <= t ->
  x * 2 ^ p <= y * 2 ^ q -> x * 2 ^ (p + t) <= y * 2 ^ (q + t).
Proof.
  intros Hp Hq Ht H. rewrite !pow2_split, !Z.mul_assoc by lia.
  apply Z.mul_le_mono_nonneg_r; [ apply Z.pow_nonneg; lia | exact H ].
Qed.

(** Two exact quantities [m1 * 2^e1 <= m2 * 2^e2], each with the digits
    the format needs, round to floats in the same order. *)
Lemma round_exact_mono m1 e1 m2 e2 :
  0 < m1 -> 0 < m2 ->
  e1 <= fexp prec emax (Zdigits2 m1 + e1) ->
  e2 <= fexp prec emax (Zdigits2 m2 + e2) ->
  m1 * 2 ^ (e1 - Z.min e1 e2) <= m2 * 2 ^ (e2 - Z.min e1 e2) ->
  SFleb (binary_round_aux prec emax false m1 e1 loc_Exact)
        (binary_round_aux prec emax false m2 e2 loc_Exact) = true.
Proof.
  intros H1 H2 P1 P2 Hval.
  assert (Hk : Zdigits2 m1 + e1 <= Zdigits2 m2 + e2).
  { pose proof (digits_scaled_le m1 (e1 - Z.min e1 e2) m2 (e2 - Z.min e1 e2)
                  H1 H2 ltac:(lia) ltac:(lia) Hval). lia. }
  apply (binary_round_aux_mono (2 * m1) 1 m1 e1 loc_Exact (2 * m2) 1 m2 e2 loc_Exact);
    try lia.
  - rewrite record_pos_of_loc. unfold sticky_div.
    rewrite Z.div_1_r, Z.mod_1_r. simpl Z.eqb. cbv iota. lia.
  - rewrite record_pos_of_loc. unfold sticky_div.
    rewrite Z.div_1_r, Z.mod_1_r. simpl Z.eqb. cbv iota. lia.
  - rewrite !fexp_eq. lia.
  - intros Ee. rewrite Ee in P1. rewrite Ee.
    set (E := fexp prec emax (Zdigits2 m2 + e2)) in *.
    pose proof (scale_le m1 m2 (e1 - Z.min e1 e2) (e2 - Z.min e1 e2)
                  (E - Z.max e1 e2) ltac:(lia) ltac:(lia) ltac:(lia) Hval) as Hs.
    replace (e1 - Z.min e1 e2 + (E - Z.max e1 e2)) with (E - e2) in Hs by lia.
    replace (e2 - Z.min e1 e2 + (E - Z.max e1 e2)) with (E - e1) in Hs by lia.
    rewrite !Z.mul_1_r.
    rewrite <- !Z.mul_assoc. apply Z.mul_le_mono_nonneg_l; [ lia | exact Hs ].
Qed.

(** *** [binary_round] and [binary_normalize] *)

Lemma shl_align_spec m e e' :
  Zpos (fst (shl_align m e e')) = Zpos m * 2 ^ (e - snd (shl_align m e e'))
  /\ snd (shl_align m e e') = Z.min e e'.
Proof.
  unfold shl_align. destruct (e' - e) as [| d | d] eqn:E; cbn [fst snd].
  - rewrite Z.sub_diag. change (2 ^ 0) with 1. lia.
  - rewrite Z.sub_diag. change (2 ^ 0) with 1. lia.
  - change (Pos.iter xO m d) with (shift_pos d m).
    rewrite shift_pos_correct.
    replace (e - e') with (Zpos d) by lia.
    change (2 ^ Zpos d) with (Z.pow_pos 2 d). lia.
Qed.

(** [binary_round] rounds the quantity it is given, held with the digits
    the format needs. *)
Lemma binary_round_spec m e :
  exists mz ez,
    binary_round prec emax false m e
    = binary_round_aux prec emax false (Zpos mz) ez loc_Exact
    /\ Zpos mz = Zpos m * 2 ^ (e - ez)
    /\ ez <= e
    /\ ez <= fexp prec emax (Zdigits2 (Zpos mz) + ez).
Proof.
  unfold binary_round.
  pose proof (shl_align_spec m e (fexp prec emax (Zpos (digits2_pos m) + e)))
    as [Hm He].
  destruct (shl_align m e (fexp prec emax (Zpos (digits2_pos m) + e)))
    as [mz ez].
  cbn [fst snd] in Hm, He.
  exists mz, ez. split; [ reflexivity | ]. split; [ exact Hm | ].
  split; [ lia | ].
  rewrite Hm, Zdigits2_shift by lia.
  change (Zdigits2 (Zpos m)) with (Zpos (digits2_pos m)).
  replace (Zpos (digits2_pos m) + (e - ez) + ez)
    with (Zpos (digits2_pos m) + e) by lia.
  lia.
Qed.

Lemma binary_round_plus m e : plus_sf (binary_round prec emax false m e) = true.
Proof.
  destruct (binary_round_spec m e) as (mz & ez & -> & _).
  apply binary_round_aux_plus. lia.
Qed.

Lemma binary_round_mono m1 e1 m2 e2 :
  Zpos m1 * 2 ^ (e1 - Z.min e1 e2) <= Zpos m2 * 2 ^ (e2 - Z.min e1 e2) ->
  SFleb (binary_round prec emax false m1 e1) (binary_round prec emax false m2 e2)
  = true.
Proof.
  intros Hval.
  destruct (binary_round_spec m1 e1) as (mz1 & z1 & -> & Hm1 & Hz1 & P1).
  destruct (binary_round_spec m2 e2) as (mz2 & z2 & -> & Hm2 & Hz2 & P2).
  apply round_exact_mono; try lia.
  rewrite Hm1, Hm2, <- !Z.mul_assoc, <- !pow2_split by lia.
  pose proof (scale_le (Zpos m1) (Zpos m2) (e1 - Z.min e1 e2) (e2 - Z.min e1 e2)
                (Z.min e1 e2 - Z.min z1 z2)
                ltac:(lia) ltac:(lia) ltac:(lia) Hval) as Hs.
  replace (e1 - z1 + (z1 - Z.min z1 z2))
    with (e1 - Z.min e1 e2 + (Z.min e1 e2 - Z.min z1 z2)) by lia.
  replace (e2 - z2 + (z2 - Z.min z1 z2))
    with (e2 - Z.min e1 e2 + (Z.min e1 e2 - Z.min z1 z2)) by lia.
  exact Hs.
Qed.

Lemma binary_normalize_plus N e :
  0 <= N -> plus_sf (binary_normalize prec emax N e false) = true.
Proof.
  intros HN. destruct N as [| p | p]; [ reflexivity | | lia ].
  apply binary_round_plus.
Qed.

(** The order of two exact non-negative quantities is the order of their
    roundings. *)
Lemma binary_normalize_mono N1 e1 N2 e2 :
  0 <= N1 -> 0 <= N2 ->
  N1 * 2 ^ (e1 - Z.min e1 e2) <= N2 * 2 ^ (e2 - Z.min e1 e2) ->
  SFleb (binary_normalize prec emax N1 e1 false)
        (binary_normalize prec emax N2 e2 false) = true.
Proof.
  intros H1 H2 Hval.
  destruct N1 as [| p1 | p1]; [ | | lia ].
  - apply nonneg_sf_zero_le, plus_sf_nonneg. now apply binary_normalize_plus.
  - destruct N2 as [| p2 | p2]; [ | | lia ].
    + exfalso.
      assert (0 < Zpos p1 * 2 ^ (e1 - Z.min e1 e2))
        by (apply Z.mul_pos_pos; [ lia | apply Z.pow_pos_nonneg; lia ]).
      lia.
    + now apply binary_round_mono.
Qed.

(** A float is the rounding of its own mantissa and exponent. *)
Lemma binary_round_valid m e :
  valid_binary (S754_finite false m e) = true ->
  binary_round prec emax false m e = S754_finite false m e.
Proof.
  intros V. pose proof (valid_finite_inv _ _ _ V) as (Hm & _ & _).
  unfold valid_binary, bounded, canonical_mantissa in V.
  apply andb_prop in V. destruct V as [Hc Hb].
  apply Z.eqb_eq in Hc. apply Z.leb_le in Hb.
  unfold binary_round. rewrite Hc.
  unfold shl_align. rewrite Z.sub_diag.
  destruct (binary_round_aux_pack (2 * Zpos m) 1 (Zpos m) e loc_Exact
              ltac:(lia) ltac:(lia)) as (R & _ & _).
  { rewrite record_pos_of_loc. unfold sticky_div.
    rewrite Z.div_1_r, Z.mod_1_r. simpl Z.eqb. cbv iota. lia. }
  cbv zeta in R. rewrite R. clear R.
  change (Zdigits2 (Zpos m)) with (Zpos (digits2_pos m)). rewrite Hc.
  rewrite Z.max_id, Z.sub_diag. change (2 ^ 0 * 1) with 1.
  unfold sticky_div. rewrite Z.div_1_r, Z.mod_1_r. simpl Z.eqb. cbv iota.
  replace (2 * (2 * Zpos m) + 0) with (Zpos m * 4) by lia.
  unfold round_pos. rewrite Z.div_mul, Z.mod_mul by lia.
  change (0 <=? 1) with true. cbv iota. unfold renorm.
  destruct (Z.eqb_spec (Zpos m) (2 ^ 53)) as [E | _]; [ lia | ].
  cbn [fst snd]. unfold pack.
  replace (e <=? 971) with true; [ reflexivity | ].
  symmetry. apply Z.leb_le. exact Hb.
Qed.



End ExactFacts.

(** ** Products, differences and truncations keep the order *)

Module ArithFacts.
Import FloatPred FloatOrder FloatSign RoundDefs RoundFacts DivFacts ExactFacts.

Lemma fin_sf_plus x : fin_sf x = true -> plus_sf x = true.
Proof. destruct x as [[] | [] | | [] ]; simpl; congruence. Qed.

Lemma plus_le_fin x y :
  plus_sf x = true -> fin_sf y = true -> SFleb x y = true -> fin_sf x = true.
Proof.
  destruct x as [[] | [] | | [] mx ex]; simpl; try congruence.
  destruct y as [[] | [] | | [] my ey]; unfold SFleb, SFcompare; simpl; congruence.
Qed.

(** *** The scaled mantissa *)

Lemma scaled_nonneg x c : 0 <= scaled x c.
Proof.
  unfold scaled. apply Z.mul_nonneg_nonneg.
  - destruct x; simpl; lia.
  - apply Z.pow_nonneg. lia.
Qed.

(** The order of floats is the order of their scaled mantissas. *)
Lemma scaled_le x y c :
  fin_sf x = true -> fin_sf y = true ->
  valid_binary x = true -> valid_binary y = true ->
  SFleb x y = true -> c <= sf_exp x -> c <= sf_exp y ->
  scaled x c <= scaled y c.
Proof.
  intros Fx Fy Vx Vy Hle Hcx Hcy.
  destruct x as [sx | sx | | sx mx ex]; try discriminate.
  - unfold scaled at 1. simpl sf_mant. rewrite Z.mul_0_l. apply scaled_nonneg.
  - destruct sx; [ discriminate | ].
    destruct y as [sy | sy | | sy my ey]; try discriminate.
    destruct sy; [ discriminate | ].
    unfold scaled. simpl sf_mant. simpl sf_exp in *.
      apply (value_le mx ex my ey); auto; lia.
Qed.

Lemma scaled_shift x c t :
  c <= sf_exp x -> 0 <= t -> scaled x (c - t) = scaled x c * 2 ^ t.
Proof.
  intros Hc Ht. unfold scaled.
  replace (sf_exp x - (c - t)) with (sf_exp x - c + t) by lia.
  rewrite pow2_split by lia. ring.
Qed.

(** *** Products *)

Lemma Zdigits2_ge_53 M : 2 ^ 52 <= M -> 53 <= Zdigits2 M.
Proof.
  intros HM.
  assert (H0 : 0 < M).
  { eapply Z.lt_le_trans; [ | exact HM ]. reflexivity. }
  pose proof (Zdigits2_upper M ltac:(lia)) as U.
  pose proof (Zdigits2_nonneg M) as G.
  assert (H : 52 < Zdigits2 M).
  { apply pow2_lt_inv; [ exact G | ]. eapply Z.le_lt_trans; eauto. }
  lia.
Qed.

(** The exact product of two floats has the digits the format needs. *)
Lemma mul_precision mx ex my ey :
  valid_binary (S754_finite false mx ex) = true ->
  valid_binary (S754_finite false my ey) = true ->
  ex + ey <= fexp prec emax (Zdigits2 (Zpos (mx * my)) + (ex + ey)).
Proof.
  intros Vx Vy.
  destruct (valid_finite_inv _ _ _ Vx) as (_ & Lx & Nx).
  destruct (valid_finite_inv _ _ _ Vy) as (_ & Ly & Ny).
  rewrite fexp_eq.
  destruct (Z_le_gt_dec (ex + ey) (-1074)) as [Hs | Hs]; [ lia | ].
  assert (HP : 2 ^ 52 <= Zpos (mx * my)).
  { rewrite Pos2Z.inj_mul. set (P := 2 ^ 52) in *.
    assert (HP0 : 0 < P) by reflexivity.
    destruct (Z_le_gt_dec ex (-1074)) as [Hx | Hx].
    - specialize (Ny ltac:(lia)).
      replace P with (1 * P) by lia.
      apply Z.mul_le_mono_nonneg; lia.
    - specialize (Nx ltac:(lia)).
      replace P with (P * 1) by lia.
      apply Z.mul_le_mono_nonneg; lia. }
  pose proof (Zdigits2_ge_53 _ HP). lia.
Qed.

Lemma SFmul_mono_finite m1 e1 m2 e2 my ey :
  valid_binary (S754_finite false m1 e1) = true ->
  valid_binary (S754_finite false m2 e2) = true ->
  valid_binary (S754_finite false my ey) = true ->
  SFleb (S754_finite false m1 e1) (S754_finite false m2 e2) = true ->
  SFleb (SF64mul (S754_finite false m1 e1) (S754_finite false my ey))
        (SF64mul (S754_finite false m2 e2) (S754_finite false my ey)) = true.
Proof.
  intros V1 V2 Vy Hle. unfold SF64mul, SFmul. cbn [xorb].
  apply round_exact_mono; try lia.
  - now apply mul_precision.
  - now apply mul_precision.
  - replace (e1 + ey - Z.min (e1 + ey) (e2 + ey)) with (e1 - Z.min e1 e2) by lia.
    replace (e2 + ey - Z.min (e1 + ey) (e2 + ey)) with (e2 - Z.min e1 e2) by lia.
    pose proof (value_le m1 e1 m2 e2 (e1 - Z.min e1 e2) (e2 - Z.min e1 e2)
                  V1 V2 Hle ltac:(lia) ltac:(lia) ltac:(lia)) as Hv.
    rewrite !Pos2Z.inj_mul.
    replace (Zpos m1 * Zpos my * 2 ^ (e1 - Z.min e1 e2))
      with (Zpos my * (Zpos m1 * 2 ^ (e1 - Z.min e1 e2))) by ring.
    replace (Zpos m2 * Zpos my * 2 ^ (e2 - Z.min e1 e2))
      with (Zpos my * (Zpos m2 * 2 ^ (e2 - Z.min e1 e2))) by ring.
    apply Z.mul_le_mono_nonneg_l; [ lia | exact Hv ].
Qed.

Lemma SFmul_plus x y :
  plus_sf x = true -> posfin_sf y = true -> plus_sf (SF64mul x y) = true.
Proof.
  intros Px Py.
  destruct y as [| | | sy my ey]; try discriminate.
  destruct sy; try discriminate.
  destruct x as [[] | [] | | [] mx ex]; try discriminate; try reflexivity.
  unfold SF64mul, SFmul. cbn [xorb]. apply binary_round_aux_plus. lia.
Qed.

(** Multiplication by a positive finite number keeps the order of factors
    that are zero, positive or [+oo]. *)
Lemma SFmul_mono x1 x2 y :
  valid_binary x1 = true -> valid_binary x2 = true -> valid_binary y = true ->
  plus_sf x1 = true -> plus_sf x2 = true -> posfin_sf y = true ->
  SFleb x1 x2 = true ->
  SFleb (SF64mul x1 y) (SF64mul x2 y) = true.
Proof.
  intros V1 V2 Vy P1 P2 Py Hle.
  pose proof (SFmul_plus x1 y P1 Py) as R1.
  pose proof (SFmul_plus x2 y P2 Py) as R2.
  destruct y as [| | | sy my ey]; try discriminate.
  destruct sy; try discriminate.
  destruct x1 as [s1 | s1 | | s1 m1 e1]; try discriminate;
    destruct s1; try discriminate.
  - apply nonneg_sf_zero_le. now apply plus_sf_nonneg.
  - destruct x2 as [s2 | s2 | | s2 m2 e2]; try discriminate;
      destruct s2; try discriminate.
    reflexivity.
  - destruct x2 as [s2 | s2 | | s2 m2 e2]; try discriminate;
      destruct s2; try discriminate.
    + now apply SFleb_plus_inf.
    + now apply SFmul_mono_finite.
Qed.

Lemma SFmul_comm x y : SF64mul x y = SF64mul y x.
Proof.
  unfold SF64mul, SFmul.
  destruct x as [sx | sx | | sx mx ex], y as [sy | sy | | sy my ey];
    try reflexivity; try (now rewrite (xorb_comm sx sy)).
  now rewrite (xorb_comm sx sy), (Pos.mul_comm mx my), (Z.add_comm ex ey).
Qed.

(** *** Differences *)

Lemma binary_normalize_mono_at c N1 e1 N2 e2 :
  0 <= N1 -> 0 <= N2 -> c <= e1 -> c <= e2 ->
  N1 * 2 ^ (e1 - c) <= N2 * 2 ^ (e2 - c) ->
  SFleb (binary_normalize prec emax N1 e1 false)
        (binary_normalize prec emax N2 e2 false) = true.
Proof.
  intros H1 H2 Hc1 Hc2 Hval. apply binary_normalize_mono; auto.
  set (c0 := Z.min e1 e2) in *.
  assert (Hp : 0 < 2 ^ (c0 - c)) by (apply Z.pow_pos_nonneg; unfold c0; lia).
  apply (Z.mul_le_mono_pos_r _ _ (2 ^ (c0 - c)) Hp).
  rewrite <- !Z.mul_assoc, <- !pow2_split by (unfold c0; lia).
  replace (e1 - c0 + (c0 - c)) with (e1 - c) by lia.
  replace (e2 - c0 + (c0 - c)) with (e2 - c) by lia.
  exact Hval.
Qed.

(** The difference of two floats [y <= x] is the rounding of the exact
    difference. *)
Lemma SFsub_repr x y :
  fin_sf x = true -> fin_sf y = true ->
  valid_binary x = true -> valid_binary y = true ->
  SFleb y x = true ->
  exists N e,
    SF64sub x y = binary_normalize prec emax N e false
    /\ 0 <= N
    /\ forall c, c <= e -> c <= sf_exp x -> c <= sf_exp y ->
         N * 2 ^ (e - c) = scaled x c - scaled y c.
Proof.
  intros Fx Fy Vx Vy Hle.
  destruct x as [sx | sx | | sx mx ex]; try discriminate;
    destruct sx; try discriminate;
    destruct y as [sy | sy | | sy my ey]; try discriminate;
    destruct sy; try discriminate.
  - exists 0, 0. split; [ reflexivity | ]. split; [ lia | ]. intros c _ _ _.
    unfold scaled. simpl. lia.
  - exists (Zpos mx), ex. split; [ | split; [ lia | ] ].
    + unfold SF64sub, SFsub. unfold binary_normalize.
      now rewrite binary_round_valid.
    + intros c Hc _ _. unfold scaled. simpl sf_mant. simpl sf_exp. lia.
  - pose proof (value_le my ey mx ex (ey - Z.min ex ey) (ex - Z.min ex ey)
                  Vy Vx Hle ltac:(lia) ltac:(lia) ltac:(lia)) as Hv.
    exists (Zpos mx * 2 ^ (ex - Z.min ex ey) - Zpos my * 2 ^ (ey - Z.min ex ey)),
      (Z.min ex ey).
    split; [ | split; [ lia | ] ].
    + unfold SF64sub, SFsub. cbn [cond_Zopp].
      destruct (shl_align_spec mx ex (Z.min ex ey)) as [H1 H2].
      destruct (shl_align_spec my ey (Z.min ex ey)) as [H3 H4].
      rewrite H2 in H1. rewrite H4 in H3.
      replace (Z.min ex (Z.min ex ey)) with (Z.min ex ey) in H1 by lia.
      replace (Z.min ey (Z.min ex ey)) with (Z.min ex ey) in H3 by lia.
      change (IntDef.Z.min ex ey) with (Z.min ex ey).
      rewrite H1, H3. reflexivity.
    + intros c Hc Hcx Hcy. unfold scaled. simpl sf_mant. simpl sf_exp in *.
      rewrite Z.mul_sub_distr_r, <- !Z.mul_assoc, <- !pow2_split by lia.
      f_equal; f_equal; f_equal; lia.
Qed.

Lemma SFsub_plus x y :
  fin_sf x = true -> fin_sf y = true ->
  valid_binary x = true -> valid_binary y = true ->
  SFleb y x = true -> plus_sf (SF64sub x y) = true.
Proof.
  intros Fx Fy Vx Vy Hle.
  destruct (SFsub_repr x y Fx Fy Vx Vy Hle) as (N & e & -> & HN & _).
  now apply binary_normalize_plus.
Qed.

(** For [y2 <= y1 <= x1 <= x2] the differences are in the order
    [x1 - y1 <= x2 - y2]. *)
Lemma SFsub_mono x1 y1 x2 y2 :
  fin_sf x1 = true -> fin_sf y1 = true -> fin_sf x2 = true -> fin_sf y2 = true ->
  valid_binary x1 = true -> valid_binary y1 = true ->
  valid_binary x2 = true -> valid_binary y2 = true ->
  SFleb y2 y1 = true -> SFleb y1 x1 = true -> SFleb x1 x2 = true ->
  SFleb (SF64sub x1 y1) (SF64sub x2 y2) = true.
Proof.
  intros Fx1 Fy1 Fx2 Fy2 Vx1 Vy1 Vx2 Vy2 Hy Hyx Hx.
  assert (Hyx2 : SFleb y2 x2 = true).
  { apply (SFleb_trans _ y1); [ exact Hy | ].
    apply (SFleb_trans _ x1); assumption. }
  destruct (SFsub_repr x1 y1 Fx1 Fy1 Vx1 Vy1 Hyx) as (N1 & e1 & -> & HN1 & R1).
  destruct (SFsub_repr x2 y2 Fx2 Fy2 Vx2 Vy2 Hyx2) as (N2 & e2 & -> & HN2 & R2).
  set (c := Z.min (Z.min e1 e2)
              (Z.min (Z.min (sf_exp x1) (sf_exp y1)) (Z.min (sf_exp x2) (sf_exp y2)))).
  apply (binary_normalize_mono_at c); auto; try (unfold c; lia).
  rewrite R1, R2 by (unfold c; lia).
  pose proof (scaled_le x1 x2 c Fx1 Fx2 Vx1 Vx2 Hx
                ltac:(unfold c; lia) ltac:(unfold c; lia)).
  pose proof (scaled_le y2 y1 c Fy2 Fy1 Vy2 Vy1 Hy
                ltac:(unfold c; lia) ltac:(unfold c; lia)).
  lia.
Qed.

Lemma SFsub_zero_r x : fin_sf x = true -> SF64sub x (S754_zero false) = x.
Proof. destruct x as [[] | [] | | [] ]; simpl; try discriminate; reflexivity. Qed.


(** *** Truncation *)

Lemma trunc_scaled x c :
  fin_sf x = true -> c <= sf_exp x -> c <= 0 ->
  Py.trunc_sf x = Some (scaled x c / 2 ^ (- c)).
Proof.
  intros Fx Hc Hc0.
  destruct x as [sx | sx | | sx m e]; try discriminate;
    destruct sx; try discriminate.
  - unfold scaled. simpl. reflexivity.
  - unfold scaled. simpl sf_mant. simpl sf_exp in *. simpl Py.trunc_sf.
    cbn [cond_Zopp]. f_equal.
    assert (Hp : 0 < 2 ^ (- c)) by (apply Z.pow_pos_nonneg; lia).
    destruct (Z_le_gt_dec 0 e) as [He | He].
    + rewrite Z.shiftl_mul_pow2 by lia.
      replace (e - c) with (e + - c) by lia.
      rewrite pow2_split, Z.mul_assoc by lia.
      now rewrite Z.div_mul by lia.
    + rewrite <- (Z.opp_involutive e) at 1.
      rewrite Z.shiftl_opp_r, Z.shiftr_div_pow2 by lia.
      replace (- c) with (- e + (e - c)) by lia.
      rewrite pow2_split by lia.
      rewrite Z.div_mul_cancel_r; [ reflexivity | | ].
      * apply Z.pow_nonzero; lia.
      * apply Z.pow_nonzero; lia.
Qed.

(** Truncation keeps the order. *)
Lemma trunc_mono x y :
  fin_sf x = true -> fin_sf y = true ->
  valid_binary x = true -> valid_binary y = true ->
  SFleb x y = true ->
  exists i j, Py.trunc_sf x = Some i /\ Py.trunc_sf y = Some j /\ 0 <= i <= j.
Proof.
  intros Fx Fy Vx Vy Hle.
  set (c := Z.min 0 (Z.min (sf_exp x) (sf_exp y))).
  exists (scaled x c / 2 ^ (- c)), (scaled y c / 2 ^ (- c)).
  rewrite (trunc_scaled x c Fx), (trunc_scaled y c Fy) by (unfold c; lia).
  split; [ reflexivity | ]. split; [ reflexivity | ].
  assert (Hp : 0 < 2 ^ (- c)) by (apply Z.pow_pos_nonneg; unfold c; lia).
  split.
  - apply Z.div_pos; [ apply scaled_nonneg | exact Hp ].
  - apply Z.div_le_mono; [ exact Hp | ].
    apply scaled_le; auto; unfold c; lia.
Qed.

(** A float whose truncation reaches [2^k] is at least the float [2^k]. *)
Lemma trunc_ge_pow2 x k i :
  fin_sf x = true -> valid_binary x = true ->
  0 <= k <= 52 -> Py.trunc_sf x = Some i -> 2 ^ k <= i ->
  SFleb (S754_finite false 4503599627370496 (k - 52)) x = true.
Proof.
  intros Fx Vx Hk Hi Hge.
  assert (Hp : 0 < 2 ^ k) by (apply Z.pow_pos_nonneg; lia).
  destruct x as [sx | sx | | sx m e]; try discriminate;
    destruct sx; try discriminate.
  - simpl in Hi. injection Hi as <-. lia.
  - simpl in Hi. injection Hi as <-.
    destruct (valid_finite_inv _ _ _ Vx) as (Um & Le & Nm).
    unfold SFleb, SFcompare.
    destruct (Z.compare_spec (k - 52) e) as [Ee | Ee | Ee]; [ | reflexivity | ].
    + specialize (Nm ltac:(lia)).
      change (Pos.compare_cont Eq 4503599627370496 m)
        with (Pos.compare 4503599627370496 m).
      destruct (Pos.compare_spec 4503599627370496 m) as [Em | Em | Em];
        try reflexivity.
      exfalso. apply Pos2Z.pos_lt_pos in Em.
      change (2 ^ 52) with 4503599627370496 in Nm. lia.
    + exfalso.
      assert (Hlt : Z.shiftl (Zpos m) e < 2 ^ k); [ | lia ].
      rewrite <- (Z.opp_involutive e), Z.shiftl_opp_r, Z.shiftr_div_pow2 by lia.
      apply Z.div_lt_upper_bound; [ apply Z.pow_pos_nonneg; lia | ].
      rewrite <- pow2_split by lia.
      eapply Z.lt_le_trans; [ exact Um | ].
      apply Z.pow_le_mono_r; lia.
Qed.

(** *** The floor, by comparisons *)

(** The order of scaled mantissas is the order of the floats. *)
Lemma scaled_order x y c :
  fin_sf x = true -> fin_sf y = true ->
  valid_binary x = true -> valid_binary y = true ->
  c <= sf_exp x -> c <= sf_exp y ->
  (scaled x c <= scaled y c -> SFleb x y = true)
  /\ (scaled x c < scaled y c -> SFltb x y = true).
Proof.
  intros Fx Fy Vx Vy Hcx Hcy.
  destruct x as [sx | sx | | sx mx ex]; try discriminate;
    destruct sx; try discriminate;
    destruct y as [sy | sy | | sy my ey]; try discriminate;
    destruct sy; try discriminate; unfold scaled; simpl sf_mant; simpl sf_exp in *.
  - split; [ reflexivity | lia ].
  - split; reflexivity.
  - assert (0 < Zpos mx * 2 ^ (ex - c))
      by (apply Z.mul_pos_pos; [ lia | apply Z.pow_pos_nonneg; lia ]).
    split; lia.
  - destruct (valid_finite_inv _ _ _ Vx) as (Ux & Lx & Nx).
    destruct (valid_finite_inv _ _ _ Vy) as (Uy & Ly & Ny).
    assert (Hgt : ey < ex -> Zpos my * 2 ^ (ey - c) < Zpos mx * 2 ^ (ex - c)).
    { intros Hlt. specialize (Nx ltac:(lia)).
      replace (ex - c) with (ey - c + (ex - ey)) by lia.
      rewrite pow2_split by lia.
      assert (H2 : 2 <= 2 ^ (ex - ey)).
      { change 2 with (2 ^ 1) at 1. apply Z.pow_le_mono_r; lia. }
      assert (Hp : 0 < 2 ^ (ey - c)) by (apply Z.pow_pos_nonneg; lia).
      change (2 ^ 53) with (2 * 2 ^ 52) in Uy.
      set (P := 2 ^ 52) in *. set (A := 2 ^ (ey - c)) in *.
      set (B := 2 ^ (ex - ey)) in *.
      assert (HP : 0 < P) by reflexivity.
      assert (S1 : Zpos my * A < 2 * P * A)
        by (apply Z.mul_lt_mono_pos_r; lia).
      assert (S2 : P * 2 <= Zpos mx * B)
        by (apply Z.mul_le_mono_nonneg; lia).
      assert (S3 : P * 2 * A <= Zpos mx * B * A)
        by (apply Z.mul_le_mono_nonneg_r; lia).
      replace (Zpos mx * (A * B)) with (Zpos mx * B * A) by ring.
      lia. }
    unfold SFleb, SFltb, SFcompare.
    destruct (Z.compare_spec ex ey) as [Ee | Ee | Ee].
    + subst ey.
      assert (Hp : 0 < 2 ^ (ex - c)) by (apply Z.pow_pos_nonneg; lia).
      change (Pos.compare_cont Eq mx my) with (Pos.compare mx my).
      destruct (Pos.compare_spec mx my) as [Em | Em | Em].
      * subst. split; [ reflexivity | lia ].
      * split; reflexivity.
      * apply Pos2Z.pos_lt_pos in Em.
        assert (Zpos my * 2 ^ (ex - c) < Zpos mx * 2 ^ (ex - c))
          by (apply Z.mul_lt_mono_pos_r; lia).
        split; lia.
    + split; reflexivity.
    + specialize (Hgt Ee). split; lia.
Qed.

Lemma holds_int_spec t k :
  holds_int t k = true ->
  fin_sf t = true /\ valid_binary t = true /\ sf_exp t <= 0
  /\ forall c, c <= sf_exp t -> scaled t c = k * 2 ^ (- c).
Proof.
  unfold holds_int. rewrite !andb_true_iff, Z.leb_le, Z.eqb_eq.
  intros [[[F V] He] Hm]. repeat split; auto.
  intros c Hc. unfold scaled. rewrite Hm, <- Z.mul_assoc, <- pow2_split by lia.
  f_equal. f_equal. lia.
Qed.

(** The truncation of [x] against a float that holds an integer [k]. *)
Lemma trunc_vs_int x t k i :
  fin_sf x = true -> valid_binary x = true -> holds_int t k = true ->
  Py.trunc_sf x = Some i ->
  (k <= i -> SFleb t x = true) /\ (i < k -> SFltb x t = true).
Proof.
  intros Fx Vx Ht Hi.
  destruct (holds_int_spec t k Ht) as (Ft & Vt & He & Hs).
  set (c := Z.min 0 (Z.min (sf_exp x) (sf_exp t))).
  assert (Hp : 0 < 2 ^ (- c)) by (apply Z.pow_pos_nonneg; unfold c; lia).
  rewrite (trunc_scaled x c Fx) in Hi by (unfold c; lia).
  injection Hi as <-.
  destruct (scaled_order t x c Ft Fx Vt Vx ltac:(unfold c; lia) ltac:(unfold c; lia))
    as [Hle _].
  destruct (scaled_order x t c Fx Ft Vx Vt ltac:(unfold c; lia) ltac:(unfold c; lia))
    as [_ Hlt].
  rewrite (Hs c ltac:(unfold c; lia)) in Hle, Hlt.
  set (A := scaled x c) in *. set (P := 2 ^ (- c)) in *.
  pose proof (Z.mul_div_le A P Hp) as H1.
  pose proof (Z.mul_succ_div_gt A P Hp) as H2.
  split; intros Hk.
  - apply Hle. eapply Z.le_trans; [ | exact H1 ].
    rewrite (Z.mul_comm P). apply Z.mul_le_mono_nonneg_r; lia.
  - apply Hlt. eapply Z.lt_le_trans; [ exact H2 | ].
    rewrite (Z.mul_comm P). apply Z.mul_le_mono_nonneg_r; lia.
Qed.

End ArithFacts.

(** ** Intervals of floats through the arithmetic of the program *)

Module Interval.
Import FloatPred FloatOrder FloatSign FloatFacts RoundFacts DivFacts ExactFacts
  ArithFacts.

Local Open Scope float_scope.

Lemma fin_plus x : fin x -> plus x.
Proof. apply fin_sf_plus. Qed.

Lemma posfin_fin x : posfin x -> fin x.
Proof.
  unfold posfin, fin. destruct (Prim2SF x) as [| | | [] ]; simpl; congruence.
Qed.

Lemma plus_below_fin x y : plus x -> fin y -> (x <=? y) = true -> fin x.
Proof.
  unfold plus, fin. rewrite leb_spec. intros. eapply plus_le_fin; eauto.
Qed.

Lemma fin_leb_refl x : fin x -> (x <=? x) = true.
Proof. intros H. apply plus_leb_refl. now apply fin_plus. Qed.

(** *** Products *)

Lemma mul_plus x y : plus x -> posfin y -> plus (x * y).
Proof. unfold plus, posfin. rewrite mul_spec. apply SFmul_plus. Qed.

Lemma mul_mono_r x1 x2 y :
  plus x1 -> plus x2 -> posfin y -> (x1 <=? x2) = true ->
  (x1 * y <=? x2 * y) = true.
Proof.
  unfold plus, posfin. rewrite !leb_spec, !mul_spec.
  intros P1 P2 Py Hle. apply SFmul_mono; auto using Prim2SF_valid.
Qed.

Lemma mul_comm x y : x * y = y * x.
Proof. apply Prim2SF_inj. rewrite !mul_spec. apply SFmul_comm. Qed.

Lemma within_mul_r lo hi x y :
  within lo hi x -> posfin y -> fin (hi * y) ->
  within (lo * y) (hi * y) (x * y).
Proof.
  intros (Flo & Fhi & Fx & Hlo & Hhi) Py Fp. unfold within, fle in *.
  assert (H1 : (lo * y <=? x * y) = true)
    by (apply mul_mono_r; auto using fin_plus).
  assert (H2 : (x * y <=? hi * y) = true)
    by (apply mul_mono_r; auto using fin_plus).
  assert (Fxy : fin (x * y)).
  { apply (plus_below_fin _ (hi * y)); auto. apply mul_plus; auto using fin_plus. }
  repeat split; auto.
  apply (plus_below_fin _ (x * y)); auto. apply mul_plus; auto using fin_plus.
Qed.

Lemma within_mul_l lo hi x y :
  within lo hi x -> posfin y -> fin (y * hi) ->
  within (y * lo) (y * hi) (y * x).
Proof.
  intros Hw Py Fp. rewrite (mul_comm y lo), (mul_comm y hi), (mul_comm y x).
  apply within_mul_r; auto. now rewrite (mul_comm hi y).
Qed.

(** *** Quotients *)

Lemma within_div lo hi x y :
  within lo hi x -> posfin y -> fin (hi / y) ->
  within (lo / y) (hi / y) (x / y).
Proof.
  intros (Flo & Fhi & Fx & Hlo & Hhi) Py Fq. unfold within, fle in *.
  assert (Hm : forall a b, fin a -> fin b -> (a <=? b) = true ->
                           (a / y <=? b / y) = true).
  { intros a b Fa Fb Hab. rewrite leb_spec, !div_spec. rewrite leb_spec in Hab.
    apply SFdiv_mono; auto using Prim2SF_valid; now apply fin_sf_plus. }
  assert (H1 : (lo / y <=? x / y) = true) by now apply Hm.
  assert (H2 : (x / y <=? hi / y) = true) by now apply Hm.
  assert (Fxy : fin (x / y)).
  { apply (plus_below_fin _ (hi / y)); auto. apply div_plus; auto using fin_plus. }
  repeat split; auto.
  apply (plus_below_fin _ (x / y)); auto. apply div_plus; auto using fin_plus.
Qed.

(** *** Differences *)

Lemma sub_plus x y : fin x -> fin y -> (y <=? x) = true -> plus (x - y).
Proof.
  unfold fin, plus. rewrite leb_spec, sub_spec. intros.
  apply SFsub_plus; auto using Prim2SF_valid.
Qed.

Lemma sub_mono x1 y1 x2 y2 :
  fin x1 -> fin y1 -> fin x2 -> fin y2 ->
  (y2 <=? y1) = true -> (y1 <=? x1) = true -> (x1 <=? x2) = true ->
  (x1 - y1 <=? x2 - y2) = true.
Proof.
  unfold fin. rewrite !leb_spec, !sub_spec. intros.
  apply SFsub_mono; auto using Prim2SF_valid.
Qed.

Lemma sub_zero_r x : fin x -> x - 0 = x.
Proof.
  intros Fx. apply Prim2SF_inj. rewrite sub_spec.
  change (Prim2SF 0) with (S754_zero false). now apply SFsub_zero_r.
Qed.

Lemma fin_zero : fin 0.
Proof. reflexivity. Qed.

Lemma fin_zero_le x : fin x -> (0 <=? x) = true.
Proof. intros Fx. apply plus_zero_le. now apply fin_plus. Qed.

Lemma sub_fin x y : fin x -> fin y -> (y <=? x) = true -> fin (x - y).
Proof.
  intros Fx Fy Hle.
  apply (plus_below_fin _ x); [ now apply sub_plus | exact Fx | ].
  rewrite <- (sub_zero_r x Fx) at 2.
  apply sub_mono; auto using fin_zero, fin_zero_le, fin_leb_refl.
Qed.

Lemma within_sub_l lo hi x y :
  within lo hi x -> fin y -> (y <=? lo) = true ->
  within (lo - y) (hi - y) (x - y).
Proof.
  intros (Flo & Fhi & Fx & Hlo & Hhi) Fy Hy. unfold within, fle in *.
  assert (Hyx : (y <=? x) = true) by (eapply leb_trans; eauto).
  assert (Hyh : (y <=? hi) = true) by (eapply leb_trans; eauto).
  repeat split; try (apply sub_fin; assumption);
    apply sub_mono; auto using fin_leb_refl.
Qed.

Lemma within_sub_r lo hi y x :
  within lo hi y -> fin x -> (hi <=? x) = true ->
  within (x - hi) (x - lo) (x - y).
Proof.
  intros (Flo & Fhi & Fy & Hlo & Hhi) Fx Hx. unfold within, fle in *.
  assert (Hyx : (y <=? x) = true) by (eapply leb_trans; eauto).
  assert (Hlx : (lo <=? x) = true) by (eapply leb_trans; eauto).
  repeat split; try (apply sub_fin; assumption);
    apply sub_mono; auto using fin_leb_refl.
Qed.

(** *** Bounds *)

Lemma within_weaken lo hi lo' hi' x :
  within lo hi x -> fin lo' -> fin hi' ->
  (lo' <=? lo) = true -> (hi <=? hi') = true -> within lo' hi' x.
Proof.
  intros (Flo & Fhi & Fx & Hlo & Hhi) Fl Fh Hl Hh. unfold within, fle in *.
  repeat split; auto; eapply leb_trans; eauto.
Qed.

Lemma within_point x : fin x -> within x x x.
Proof. intros Fx. unfold within, fle. repeat split; auto using fin_leb_refl. Qed.

(** *** Truncation *)

Lemma int_mono x y :
  fin x -> fin y -> (x <=? y) = true ->
  exists i j, Py.int x = Some i /\ Py.int y = Some j /\ (0 <= i <= j)%Z.
Proof.
  unfold fin, Py.int. rewrite leb_spec. intros.
  apply trunc_mono; auto using Prim2SF_valid.
Qed.

Lemma within_int lo hi x a b :
  within lo hi x -> Py.int lo = Some a -> Py.int hi = Some b ->
  exists i, Py.int x = Some i /\ (a <= i <= b)%Z.
Proof.
  intros (Flo & Fhi & Fx & Hlo & Hhi) Ha Hb. unfold fle in *.
  destruct (int_mono lo x Flo Fx Hlo) as (a' & i & Ea & Ei & Hai).
  destruct (int_mono x hi Fx Fhi Hhi) as (i' & b' & Ei' & Eb & Hib).
  rewrite Ea in Ha. injection Ha as <-.
  rewrite Eb in Hb. injection Hb as <-.
  rewrite Ei in Ei'. injection Ei' as <-.
  exists i. split; [ exact Ei | lia ].
Qed.

(** A float that truncates below the integer of [y] is below [y]. *)
Lemma int_lt_le x y i j :
  fin x -> fin y -> Py.int x = Some i -> Py.int y = Some j -> (i < j)%Z ->
  (x <=? y) = true.
Proof.
  intros Fx Fy Hi Hj Hlt.
  destruct (x <=? y) eqn:E; [ reflexivity | exfalso ].
  assert (Hyx : (y <=? x) = true).
  { apply ltb_leb. apply leb_false_ltb; auto using fin_leb_refl. }
  destruct (int_mono y x Fy Fx Hyx) as (j' & i' & Ej & Ei & Hji).
  rewrite Ej in Hj. injection Hj as <-.
  rewrite Ei in Hi. injection Hi as <-. lia.
Qed.

Lemma int_ge_one x i :
  fin x -> Py.int x = Some i -> (1 <= i)%Z -> (1 <=? x) = true.
Proof.
  unfold fin, Py.int. rewrite leb_spec. intros Fx Hi Hge.
  change (Prim2SF 1) with (S754_finite false 4503599627370496 (0 - 52)).
  apply (trunc_ge_pow2 _ 0 i); auto using Prim2SF_valid. lia.
Qed.

Lemma int_ge_two x i :
  fin x -> Py.int x = Some i -> (2 <= i)%Z -> (2 <=? x) = true.
Proof.
  unfold fin, Py.int. rewrite leb_spec. intros Fx Hi Hge.
  change (Prim2SF 2) with (S754_finite false 4503599627370496 (1 - 52)).
  apply (trunc_ge_pow2 _ 1 i); auto using Prim2SF_valid. lia.
Qed.

(** Zero or above: the negative zero, or a number with the sign bit
    clear. *)
Lemma zero_le_cases x : (0 <=? x) = true -> x = (-0)%float \/ plus x.
Proof.
  rewrite leb_spec. change (Prim2SF 0) with (S754_zero false).
  unfold plus. intros H.
  destruct (Prim2SF x) as [ [] | [] | | [] m e ] eqn:E;
    try (right; reflexivity); try (cbv in H; discriminate).
  left. apply Prim2SF_inj. rewrite E. reflexivity.
Qed.

End Interval.

(** ** The pacing engine *)

Module PacingFacts.
Import FloatPred FloatOrder FloatSign FloatFacts Pacing.

Local Open Scope float_scope.

Lemma posfin_35 : posfin 35.
Proof. reflexivity. Qed.

Lemma posfin_1_3 : posfin 1.3.
Proof. reflexivity. Qed.

Lemma posfin_5 : posfin 5.
Proof. reflexivity. Qed.

Lemma posfin_3 : posfin 3.
Proof. reflexivity. Qed.

Lemma posfin_100 : posfin 100.
Proof. reflexivity. Qed.

(** The clamp never yields a NaN, a negative number or more than 100. *)
Lemma clamp_pct_range x : plus (clamp_pct x) /\ (clamp_pct x <=? 100) = true.
Proof.
  unfold clamp_pct, Py.max, Py.min.
  destruct (x <? 100) eqn:Hx.
  - destruct (0 <? x) eqn:H0.
    + split; [ now apply zero_lt_plus | now apply ltb_leb ].
    + split; reflexivity.
  - split; reflexivity.
Qed.

(** What the clamp returns: its argument, or the bound the argument is
    beyond. *)
Lemma clamp_pct_cases x :
  (clamp_pct x = x /\ (0 <? x) = true /\ (x <? 100) = true)
  \/ (clamp_pct x = 0 /\ (0 <? x) = false /\ (x <? 100) = true)
  \/ (clamp_pct x = 100 /\ (x <? 100) = false).
Proof.
  unfold clamp_pct, Py.max, Py.min.
  destruct (x <? 100) eqn:Hx.
  - destruct (0 <? x) eqn:H0; auto.
  - right; right. split; reflexivity.
Qed.

Lemma py_min_fmin a b : (a <=? a) = true -> (b <=? b) = true -> Py.min a b = fmin a b.
Proof.
  intros Ha Hb. unfold Py.min, fmin.
  destruct (b <? a) eqn:E.
  - now rewrite (ltb_not_leb _ _ E).
  - now rewrite (ltb_false_leb _ _ Hb Ha E).
Qed.

Lemma py_max_zero_fmax q : plus q -> Py.max 0 q = fmax 0 q.
Proof.
  intros Hq. unfold Py.max, fmax.
  rewrite (plus_zero_le _ Hq).
  destruct (0 <? q) eqn:E; [ reflexivity | ].
  symmetry. now apply plus_zero.
Qed.

Lemma py_max_zero_plus q : plus (Py.max 0 q).
Proof.
  unfold Py.max. destruct (0 <? q) eqn:E; [ now apply zero_lt_plus | reflexivity ].
Qed.

(** Past the first two rules the clamped capacity is a positive finite
    number. *)
Lemma capacity_posfin r :
  plus r -> (r <=? 100) = true -> (r <=? 3) = false -> posfin r.
Proof.
  intros Hp Hle H3.
  apply (between_posfin 3 100); auto using posfin_3, posfin_100.
  apply leb_false_ltb; auto using plus_leb_refl.
Qed.

Lemma time_posfin t :
  plus t -> (t <=? 100) = true -> (t <=? 5) = false -> posfin t.
Proof.
  intros Hp Hle H5.
  apply (between_posfin 5 100); auto using posfin_5, posfin_100.
  apply leb_false_ltb; auto using plus_leb_refl.
Qed.

(** In the fourth rule the divisor [max(t, 0.1)] is [t] itself. *)
Lemma divisor_is_time t :
  plus t -> (t <=? 5) = false -> Py.max t 0.1 = t /\ fmax t 0.1 = t.
Proof.
  intros Hp H5.
  assert (Hlt : (5 <? t) = true)
    by (apply leb_false_ltb; auto using plus_leb_refl).
  assert (H01 : (0.1 <? t) = true)
    by (apply (leb_ltb_trans _ 5); [ reflexivity | exact Hlt ]).
  unfold Py.max, fmax.
  rewrite (ltb_not_leb _ _ H01).
  assert (Hn : (t <? 0.1) = false)
    by (apply leb_not_ltb; now apply ltb_leb).
  now rewrite Hn.
Qed.

(** [pace_score] never raises and follows the four rules on the clamped
    inputs. *)
Lemma pace_score_rules r t :
  pace_score r t = Some (pace_rules (clamp_pct r) (clamp_pct t)).
Proof.
  unfold pace_score, pace_rules. fold (clamp_pct r) (clamp_pct t).
  destruct (clamp_pct_range r) as [Hrp Hr100].
  destruct (clamp_pct_range t) as [Htp Ht100].
  set (cr := clamp_pct r) in *. set (ct := clamp_pct t) in *.
  destruct (cr <=? 3) eqn:H3; [ reflexivity | ].
  destruct (92 <=? cr) eqn:H92; [ reflexivity | ].
  pose proof (capacity_posfin cr Hrp Hr100 H3) as Hrf.
  destruct (ct <=? 5) eqn:H5.
  - unfold Py.div. rewrite ?(posfin_nonzero 35 posfin_35). simpl.
    f_equal. apply py_min_fmin; [ reflexivity | ].
    apply plus_leb_refl, div_plus; auto using posfin_plus, posfin_35.
  - pose proof (time_posfin ct Htp Ht100 H5) as Htf.
    destruct (divisor_is_time ct Htp H5) as [-> ->].
    unfold Py.div. rewrite (posfin_nonzero ct Htf). simpl.
    rewrite ?(posfin_nonzero 1.3 posfin_1_3). simpl.
    assert (Hq : plus (cr / ct / 1.3)).
    { apply div_plus; [ | exact posfin_1_3 ].
      apply div_plus; auto using posfin_plus. }
    f_equal. rewrite (py_max_zero_fmax _ Hq).
    apply py_min_fmin; [ reflexivity | ].
    rewrite <- (py_max_zero_fmax _ Hq).
    apply plus_leb_refl, py_max_zero_plus.
Qed.

(** The score is a number between 0 and 1. *)
Lemma pace_rules_range r t :
  plus r -> (r <=? 100) = true -> plus t -> (t <=? 100) = true ->
  (0 <=? pace_rules r t) = true /\ (pace_rules r t <=? 1) = true.
Proof.
  intros Hrp Hr100 Htp Ht100. unfold pace_rules.
  destruct (r <=? 3) eqn:H3; [ split; reflexivity | ].
  destruct (92 <=? r) eqn:H92; [ split; reflexivity | ].
  pose proof (capacity_posfin r Hrp Hr100 H3) as Hrf.
  assert (Hmin : forall q, plus q ->
            (0 <=? fmin 1 q) = true /\ (fmin 1 q <=? 1) = true).
  { intros q Hq. unfold fmin. destruct (1 <=? q) eqn:E; [ split; reflexivity | ].
    split; [ now apply plus_zero_le | ].
    apply ltb_leb, leb_false_ltb; auto using plus_leb_refl. }
  destruct (t <=? 5) eqn:H5.
  - apply Hmin, div_plus; auto using posfin_plus, posfin_35.
  - pose proof (time_posfin t Htp Ht100 H5) as Htf.
    destruct (divisor_is_time t Htp H5) as [_ ->].
    assert (Hq : plus (r / t / 1.3)).
    { apply div_plus; [ | exact posfin_1_3 ].
      apply div_plus; auto using posfin_plus. }
    apply Hmin. rewrite <- (py_max_zero_fmax _ Hq). apply py_max_zero_plus.
Qed.

End PacingFacts.

(** ** The score grows with the remaining capacity *)

Module PacingMono.
Import FloatPred FloatOrder FloatSign FloatFacts DivFacts Pacing PacingFacts.

Local Open Scope float_scope.

Lemma div_mono x1 x2 d :
  plus x1 -> plus x2 -> posfin d -> (x1 <=? x2) = true ->
  (x1 / d <=? x2 / d) = true.
Proof.
  unfold plus, posfin. intros P1 P2 Pd. rewrite !leb_spec, !div_spec.
  apply SFdiv_mono; auto using Prim2SF_valid.
Qed.

Lemma leb_refl_of_leb x y : (x <=? y) = true -> (x <=? x) = true /\ (y <=? y) = true.
Proof. rewrite !leb_spec. apply SFleb_refl_of_leb. Qed.

Lemma clamp_pct_mono r1 r2 :
  (r1 <=? r2) = true -> (clamp_pct r1 <=? clamp_pct r2) = true.
Proof.
  intros Hle. destruct (leb_refl_of_leb _ _ Hle) as [N1 N2].
  assert (Hmin : (Py.min 100 r1 <=? Py.min 100 r2) = true).
  { unfold Py.min.
    destruct (r1 <? 100) eqn:E1; destruct (r2 <? 100) eqn:E2.
    - exact Hle.
    - now apply ltb_leb.
    - rewrite (leb_ltb_trans _ _ _ Hle E2) in E1. discriminate.
    - reflexivity. }
  destruct (leb_refl_of_leb _ _ Hmin) as [M1 M2].
  unfold clamp_pct, Py.max.
  destruct (0 <? Py.min 100 r1) eqn:E1; destruct (0 <? Py.min 100 r2) eqn:E2.
  - exact Hmin.
  - rewrite (ltb_leb_trans _ _ _ E1 Hmin) in E2. discriminate.
  - now apply ltb_leb.
  - reflexivity.
Qed.

Lemma fmin_one_mono a b :
  (a <=? b) = true -> (fmin 1 a <=? fmin 1 b) = true.
Proof.
  intros Hle. destruct (leb_refl_of_leb _ _ Hle) as [Na Nb]. unfold fmin.
  destruct (1 <=? a) eqn:Ea; destruct (1 <=? b) eqn:Eb.
  - reflexivity.
  - rewrite (leb_trans _ _ _ Ea Hle) in Eb. discriminate.
  - apply ltb_leb, leb_false_ltb; auto.
  - exact Hle.
Qed.

Lemma fmax_zero_plus q : plus q -> fmax 0 q = q.
Proof. intros Hq. unfold fmax. now rewrite (plus_zero_le _ Hq). Qed.

(** On clamped inputs the rules are monotone in the capacity. *)
Lemma pace_rules_mono r1 r2 t :
  plus r1 -> (r1 <=? 100) = true -> plus r2 -> (r2 <=? 100) = true ->
  plus t -> (t <=? 100) = true ->
  (r1 <=? r2) = true ->
  (pace_rules r1 t <=? pace_rules r2 t) = true.
Proof.
  intros P1 H1 P2 H2 Pt Ht Hle.
  destruct (pace_rules_range r1 t P1 H1 Pt Ht) as [_ U1].
  destruct (pace_rules_range r2 t P2 H2 Pt Ht) as [L2 _].
  unfold pace_rules in *.
  destruct (r1 <=? 3) eqn:A1; [ exact L2 | ].
  destruct (r2 <=? 3) eqn:A2;
    [ rewrite (leb_trans _ _ _ Hle A2) in A1; discriminate | ].
  destruct (92 <=? r2) eqn:B2; [ exact U1 | ].
  destruct (92 <=? r1) eqn:B1;
    [ rewrite (leb_trans _ _ _ B1 Hle) in B2; discriminate | ].
  pose proof (capacity_posfin r1 P1 H1 A1) as F1.
  pose proof (capacity_posfin r2 P2 H2 A2) as F2.
  destruct (t <=? 5) eqn:T5.
  - apply fmin_one_mono, div_mono; auto using posfin_35.
  - pose proof (time_posfin t Pt Ht T5) as Ft.
    destruct (divisor_is_time t Pt T5) as [_ ->].
    assert (Q1 : plus (r1 / t / 1.3)).
    { apply div_plus; [ | exact posfin_1_3 ]. apply div_plus; auto. }
    assert (Q2 : plus (r2 / t / 1.3)).
    { apply div_plus; [ | exact posfin_1_3 ]. apply div_plus; auto. }
    rewrite (fmax_zero_plus _ Q1), (fmax_zero_plus _ Q2).
    apply fmin_one_mono, div_mono; auto using posfin_1_3, div_plus.
    apply div_mono; auto.
Qed.

(** [pace_score] is monotone in its first argument. *)
Lemma pace_score_mono t r1 r2 :
  (r1 <=? r2) = true ->
  exists s1 s2,
    pace_score r1 t = Some s1 /\ pace_score r2 t = Some s2
    /\ (s1 <=? s2) = true.
Proof.
  intros Hle.
  exists (pace_rules (clamp_pct r1) (clamp_pct t)),
         (pace_rules (clamp_pct r2) (clamp_pct t)).
  split; [ apply pace_score_rules | ]. split; [ apply pace_score_rules | ].
  destruct (clamp_pct_range r1) as [P1 H1]. destruct (clamp_pct_range r2) as [P2 H2].
  destruct (clamp_pct_range t) as [Pt Ht].
  apply pace_rules_mono; auto. now apply clamp_pct_mono.
Qed.

End PacingMono.

(** ** Truncation and the blend on bytes *)

Module BlendFacts.
Import FloatPred FloatOrder FloatFacts Pacing Canvas ByteCheck.

Lemma digits2_pos_bound m : Zpos m < 2 ^ Zpos (digits2_pos m).
Proof.
  induction m as [m IH | m IH |]; simpl digits2_pos;
    rewrite ?Pos2Z.inj_succ, ?Z.pow_succ_r by lia; lia.
Qed.

(** The mantissa of a valid binary64 number has at most 53 digits. *)
Lemma valid_mantissa_bound s m e :
  valid_binary (S754_finite s m e) = true -> Zpos m < 2 ^ 53.
Proof.
  unfold valid_binary, bounded, canonical_mantissa, fexp.
  intros H. apply andb_prop in H. destruct H as [H _].
  apply Z.eqb_eq in H.
  pose proof (digits2_pos_bound m) as Hd.
  assert (Hle : Zpos (digits2_pos m) <= 53) by (unfold prec in H; lia).
  eapply Z.lt_le_trans; [ exact Hd | ].
  apply Z.pow_le_mono_r; lia.
Qed.

Lemma shiftl_below m e k :
  0 <= k -> Zpos m < 2 ^ (k - e) -> e <= 0 -> Z.shiftl (Zpos m) e < 2 ^ k.
Proof.
  intros Hk Hm He.
  rewrite <- (Z.opp_involutive e), Z.shiftl_opp_r, Z.shiftr_div_pow2 by lia.
  apply Z.div_lt_upper_bound; [ apply Z.pow_pos_nonneg; lia | ].
  rewrite <- Z.pow_add_r by lia.
  replace (- e + k) with (k - e) by lia. exact Hm.
Qed.

Lemma SFltb_finite_pos m e m' e' :
  SFltb (S754_finite false m e) (S754_finite false m' e') = true ->
  e < e' \/ (e = e' /\ (m < m')%positive).
Proof.
  unfold SFltb, SFcompare.
  destruct (Z.compare_spec e e') as [He | He | He]; try discriminate.
  - change (Pos.compare_cont Eq m m') with (Pos.compare m m').
    destruct (Pos.compare_spec m m'); try discriminate. auto.
  - auto.
Qed.

(** A float of [0, 256) truncates to a byte. *)
Lemma int_in_byte_range v :
  in_byte_range v = true -> exists z, Py.int v = Some z /\ 0 <= z <= 255.
Proof.
  unfold in_byte_range, Py.int. intros H. apply andb_prop in H.
  destruct H as [H0 H256]. rewrite leb_spec in H0. rewrite ltb_spec in H256.
  pose proof (Prim2SF_valid v) as Hv.
  change (Prim2SF 0) with (S754_zero false) in H0.
  change (Prim2SF 256) with (S754_finite false 4503599627370496 (-44)) in H256.
  destruct (Prim2SF v) as [s | s | | s m e].
  - exists 0. simpl. split; [ reflexivity | lia ].
  - destruct s; discriminate.
  - discriminate.
  - destruct s; [ discriminate | ].
    pose proof (valid_mantissa_bound _ _ _ Hv) as Hm.
    exists (Z.shiftl (Zpos m) e). split; [ reflexivity | ].
    split; [ apply Z.shiftl_nonneg; lia | ].
    assert (Z.shiftl (Zpos m) e < 2 ^ 8); [ | lia ].
    apply SFltb_finite_pos in H256.
    destruct H256 as [He | [He Hlt]].
    + apply shiftl_below; [ lia | | lia ].
      eapply Z.lt_le_trans; [ exact Hm | ].
      apply Z.pow_le_mono_r; lia.
    + apply shiftl_below; [ clear; lia | | clear - He; lia ].
      replace (8 - e) with 52 by (clear - He; lia).
      apply Pos2Z.pos_lt_pos in Hlt. exact Hlt.
Qed.

Lemma all_bytes_from_spec P k f :
  all_bytes_from k f P = true ->
  forall j, (j < k)%nat -> P (Nat.iter j (fun f => (f + 1)%float) f) = true.
Proof.
  revert f. induction k as [| k IH]; intros f H j Hj; [ lia | ].
  simpl in H. apply andb_prop in H. destruct H as [Hf Hk].
  destruct j as [| j]; [ exact Hf | ].
  rewrite Nat.iter_succ_r. apply IH; [ exact Hk | lia ].
Qed.

Lemma all_bytes_spec P :
  all_bytes P = true -> forall j, (j < 256)%nat -> P (byte_float j) = true.
Proof. intros H j Hj. exact (all_bytes_from_spec P 256 0%float H j Hj). Qed.

(** Checked on all [256 * 256 * 256] triples of bytes. *)
Lemma channels_in_range_true :
  all_bytes (fun fsa => all_bytes (fun fs => all_bytes (fun fd =>
    channel_ok fsa fs fd))) = true.
Proof. vm_compute. reflexivity. Qed.

Lemma byte_floats_agree_true : forallb byte_float_agrees (seq 0 256) = true.
Proof. vm_compute. reflexivity. Qed.

Lemma is_byte_spec z : is_byte z = true <-> 0 <= z <= 255.
Proof. unfold is_byte. rewrite andb_true_iff, !Z.leb_le. tauto. Qed.

Lemma float_of_byte z :
  is_byte z = true -> Py.float_of_int z = Some (byte_float (Z.to_nat z)).
Proof.
  intros Hz. apply is_byte_spec in Hz.
  pose proof byte_floats_agree_true as H.
  rewrite forallb_forall in H.
  specialize (H (Z.to_nat z)). unfold byte_float_agrees in H.
  rewrite Z2Nat.id in H by lia.
  assert (Hin : In (Z.to_nat z) (seq 0 256)) by (apply in_seq; lia).
  specialize (H Hin).
  destruct (Py.float_of_int z) as [f |]; [ | discriminate ].
  apply Leibniz.eqb_spec in H. now subst.
Qed.

Lemma channels_in_range_spec ka ks kd :
  (ka < 256)%nat -> (ks < 256)%nat -> (kd < 256)%nat ->
  channel_ok (byte_float ka) (byte_float ks) (byte_float kd) = true.
Proof.
  intros Ha Hs Hd.
  pose proof (all_bytes_spec _ channels_in_range_true ka Ha) as H1. cbv beta in H1.
  pose proof (all_bytes_spec _ H1 ks Hs) as H2. cbv beta in H2.
  exact (all_bytes_spec _ H2 kd Hd).
Qed.

(** One channel of the blend of bytes is a byte. *)
Lemma blend_channel_byte sa s d :
  is_byte sa = true -> is_byte s = true -> is_byte d = true ->
  exists v,
    blend_channel s d (byte_float (Z.to_nat sa) / 255)%float = Some v
    /\ is_byte v = true.
Proof.
  intros Ha Hs Hd. unfold blend_channel.
  rewrite (float_of_byte s Hs), (float_of_byte d Hd). cbn [Py.bind].
  apply is_byte_spec in Ha, Hs, Hd.
  assert (H3 : channel_ok (byte_float (Z.to_nat sa)) (byte_float (Z.to_nat s))
                 (byte_float (Z.to_nat d)) = true)
    by (apply channels_in_range_spec; lia).
  unfold channel_ok in H3.
  destruct (int_in_byte_range _ H3) as [z [Hz Hr]].
  exists z. split; [ exact Hz | now apply is_byte_spec ].
Qed.

(** Blending a byte colour over a byte pixel never raises and gives a byte
    pixel. *)
Lemma blend_bytes color dst :
  byte_rgba color = true -> byte_rgba dst = true ->
  exists px, blend color dst = Some px /\ byte_rgba px = true.
Proof.
  destruct color as [[[sr sg] sb] sa]. destruct dst as [[[dr dg] db] da].
  unfold byte_rgba. rewrite !andb_true_iff.
  intros [[[Hsr Hsg] Hsb] Hsa] [[[Hdr Hdg] Hdb] Hda].
  unfold blend. rewrite (float_of_byte sa Hsa). cbn [Py.bind].
  change (Py.div (byte_float (Z.to_nat sa)) 255)
    with (Some (byte_float (Z.to_nat sa) / 255)%float). cbn [Py.bind].
  destruct (blend_channel_byte sa sr dr Hsa Hsr Hdr) as [cr [-> Hcr]].
  destruct (blend_channel_byte sa sg dg Hsa Hsg Hdg) as [cg [-> Hcg]].
  destruct (blend_channel_byte sa sb db Hsa Hsb Hdb) as [cb [-> Hcb]].
  cbn [Py.bind]. eexists. split; [ reflexivity | ].
  unfold byte_rgba. rewrite Hcr, Hcg, Hcb. cbn [andb].
  apply is_byte_spec in Hsa, Hda. apply is_byte_spec. lia.
Qed.

End BlendFacts.

(** ** Loops over the pixel buffer *)

Module CanvasFacts.
Import Pacing Canvas BlendFacts.

Lemma in_range lo hi i : In i (range lo hi) <-> lo <= i < hi.
Proof.
  unfold range. rewrite in_map_iff. split.
  - intros [k [<- Hk]]. apply in_seq in Hk. lia.
  - intros Hi. exists (Z.to_nat (i - lo)). split; [ lia | apply in_seq; lia ].
Qed.

Lemma NoDup_range lo hi : NoDup (range lo hi).
Proof.
  unfold range. apply Finite.Injective_map_NoDup.
  - intros a b Hab. lia.
  - apply seq_NoDup.
Qed.

Lemma length_range lo hi : length (range lo hi) = Z.to_nat (hi - lo).
Proof. unfold range. now rewrite length_map, length_seq. Qed.

(** A loop whose body keeps an invariant and never raises under it runs to
    the end. *)
Lemma for_each_total {S : Type} (I : S -> Prop) (l : list Z) body :
  (forall i s, In i l -> I s -> exists s', body i s = Some s' /\ I s') ->
  forall s, I s -> exists s', for_each l body s = Some s' /\ I s'.
Proof.
  induction l as [| i l IH]; intros Hb s Hs; simpl.
  - now exists s.
  - destruct (Hb i s (or_introl eq_refl) Hs) as [s1 [-> Hs1]]. simpl.
    apply IH; [ | exact Hs1 ].
    intros j t Hj. apply Hb. now right.
Qed.

(** A loop that ends keeps every invariant its body keeps. *)
Lemma for_each_preserves {S : Type} (I : S -> Prop) (l : list Z) body :
  (forall i s s', In i l -> I s -> body i s = Some s' -> I s') ->
  forall s s', I s -> for_each l body s = Some s' -> I s'.
Proof.
  induction l as [| i l IH]; intros Hb s s' Hs; simpl.
  - intros [= <-]. exact Hs.
  - destruct (body i s) as [s1 |] eqn:E; simpl; [ | discriminate ].
    apply IH.
    + intros j t t' Hj. apply Hb. now right.
    + eapply Hb; eauto. now left.
Qed.

(** *** Indexing *)

Lemma py_index_spec len i k :
  py_index len i = Some k ->
  (Z.of_nat k < len) /\ (Z.of_nat k = i \/ Z.of_nat k = i + len).
Proof.
  unfold py_index.
  destruct (i <? 0) eqn:Hi;
    match goal with |- context [?a && ?b] => destruct a eqn:H1; destruct b eqn:H2 end;
    simpl; try discriminate; intros [= <-]; lia.
Qed.

Lemma py_index_valid len i :
  - len <= i < len -> exists k, py_index len i = Some k /\ (Z.of_nat k < len).
Proof.
  intros Hi. unfold py_index.
  destruct (i <? 0) eqn:E.
  - exists (Z.to_nat (i + len)).
    replace (0 <=? i + len) with true by lia.
    replace (i + len <? len) with true by lia. simpl. split; [ reflexivity | lia ].
  - exists (Z.to_nat i).
    replace (0 <=? i) with true by lia.
    replace (i <? len) with true by lia. simpl. split; [ reflexivity | lia ].
Qed.

Lemma py_index_nonneg len i :
  0 <= i -> py_index len i = if i <? len then Some (Z.to_nat i) else None.
Proof.
  intros Hi. unfold py_index.
  replace (i <? 0) with false by lia. replace (0 <=? i) with true by lia.
  reflexivity.
Qed.

Lemma getitem_nonneg {A : Type} (l : list A) i :
  0 <= i -> getitem l i = nth_error l (Z.to_nat i).
Proof.
  intros Hi. unfold getitem. rewrite py_index_nonneg by exact Hi.
  destruct (i <? Z.of_nat (length l)) eqn:E; simpl; [ reflexivity | ].
  symmetry. apply nth_error_None. lia.
Qed.

Lemma length_replace_nth {A : Type} (l : list A) k v :
  length (replace_nth l k v) = length l.
Proof.
  revert k. induction l as [| a l IH]; intros [| k]; simpl; auto.
Qed.

Lemma nth_error_replace_nth {A : Type} (l : list A) k v j :
  nth_error (replace_nth l k v) j =
  if (j =? k)%nat && (k <? length l)%nat then Some v else nth_error l j.
Proof.
  revert k j. induction l as [| a l IH]; intros k j; simpl.
  - destruct j, k; simpl; try reflexivity;
      now rewrite ?andb_false_r.
  - destruct k as [| k], j as [| j]; simpl; try reflexivity.
    rewrite IH. reflexivity.
Qed.

Lemma Forall_replace_nth {A : Type} (P : A -> Prop) (l : list A) k v :
  Forall P l -> P v -> Forall P (replace_nth l k v).
Proof.
  intros Hl Hv. revert k.
  induction Hl as [| a l Ha Hl IH]; intros [| k]; simpl; auto.
Qed.

Lemma forallb_replace_nth {A : Type} (p : A -> bool) (l : list A) k v :
  forallb p l = true -> p v = true -> forallb p (replace_nth l k v) = true.
Proof.
  revert k. induction l as [| a l IH]; intros [| k]; simpl; auto;
    rewrite !andb_true_iff; intros [Ha Hl] Hv; auto.
Qed.

Lemma forallb_nth_error {A : Type} (p : A -> bool) (l : list A) k a :
  forallb p l = true -> nth_error l k = Some a -> p a = true.
Proof.
  intros Hl Hk. rewrite forallb_forall in Hl. apply Hl.
  eapply nth_error_In; eauto.
Qed.

End CanvasFacts.

(** ** The rounded-rectangle fill *)

Module FillFacts.
Import Pacing Canvas BlendFacts CanvasFacts.

(** What a successful [put_pixel] did. *)
Lemma put_pixel_inv color x y pixels pixels' :
  put_pixel color x y pixels = Some pixels' ->
  exists ky kx row dst px,
    py_index (Z.of_nat (length pixels)) y = Some ky
    /\ nth_error pixels ky = Some row
    /\ py_index (Z.of_nat (length row)) x = Some kx
    /\ nth_error row kx = Some dst
    /\ blend color dst = Some px
    /\ pixels' = replace_nth pixels ky (replace_nth row kx px).
Proof.
  unfold put_pixel, getitem, setitem. intros H.
  destruct (py_index (Z.of_nat (length pixels)) y) as [ky |] eqn:Ey;
    simpl in H; [ | discriminate ].
  destruct (nth_error pixels ky) as [row |] eqn:Erow; simpl in H; [ | discriminate ].
  destruct (py_index (Z.of_nat (length row)) x) as [kx |] eqn:Ex;
    simpl in H; [ | discriminate ].
  destruct (nth_error row kx) as [dst |] eqn:Edst; simpl in H; [ | discriminate ].
  destruct (blend color dst) as [px |] eqn:Epx; simpl in H; [ | discriminate ].
  injection H as <-.
  exists ky, kx, row, dst, px. auto 10.
Qed.

Lemma put_pixel_bytes color x y pixels pixels' :
  byte_rgba color = true -> byte_canvas pixels = true ->
  put_pixel color x y pixels = Some pixels' -> byte_canvas pixels' = true.
Proof.
  intros Hc Hb H.
  destruct (put_pixel_inv _ _ _ _ _ H)
    as (ky & kx & row & dst & px & _ & Hrow & _ & Hdst & Hpx & ->).
  unfold byte_canvas in *.
  pose proof (forallb_nth_error _ _ _ _ Hb Hrow) as Hrb.
  pose proof (forallb_nth_error _ _ _ _ Hrb Hdst) as Hdb.
  destruct (blend_bytes color dst Hc Hdb) as [px' [Hpx' Hb']].
  rewrite Hpx in Hpx'. injection Hpx' as <-.
  apply forallb_replace_nth; [ exact Hb | ].
  now apply forallb_replace_nth.
Qed.

Lemma put_pixel_dims W H color x y pixels pixels' :
  has_dims W H pixels ->
  put_pixel color x y pixels = Some pixels' -> has_dims W H pixels'.
Proof.
  intros [Hlen Hrows] Hp.
  destruct (put_pixel_inv _ _ _ _ _ Hp)
    as (ky & kx & row & dst & px & _ & Hrow & _ & _ & _ & ->).
  split.
  - now rewrite length_replace_nth.
  - apply Forall_replace_nth; [ exact Hrows | ].
    rewrite length_replace_nth.
    rewrite Forall_forall in Hrows. apply Hrows.
    eapply nth_error_In; eauto.
Qed.

(** On a well-formed canvas a pixel whose indices are valid is written
    without an exception. *)
Lemma put_pixel_total W H color x y pixels :
  well_formed W H pixels -> byte_rgba color = true ->
  - W <= x < W -> - H <= y < H ->
  exists pixels', put_pixel color x y pixels = Some pixels' /\ well_formed W H pixels'.
Proof.
  intros [[Hlen Hrows] Hb] Hc Hx Hy.
  assert (Hput : exists pixels', put_pixel color x y pixels = Some pixels').
  { unfold put_pixel, getitem, setitem.
    destruct (py_index_valid (Z.of_nat (length pixels)) y ltac:(lia)) as [ky [Eky Hky]].
    rewrite Eky. simpl.
    destruct (nth_error pixels ky) as [row |] eqn:Erow;
      [ | apply nth_error_None in Erow; lia ].
    simpl.
    assert (Hrl : Z.of_nat (length row) = W).
    { rewrite Forall_forall in Hrows. apply Hrows. eapply nth_error_In; eauto. }
    destruct (py_index_valid (Z.of_nat (length row)) x ltac:(lia)) as [kx [Ekx Hkx]].
    rewrite Ekx. simpl.
    destruct (nth_error row kx) as [dst |] eqn:Edst;
      [ | apply nth_error_None in Edst; lia ].
    simpl.
    pose proof (forallb_nth_error _ _ _ _ Hb Erow) as Hrb.
    pose proof (forallb_nth_error _ _ _ _ Hrb Edst) as Hdb.
    destruct (blend_bytes color dst Hc Hdb) as [px [-> _]]. simpl.
    eauto. }
  destruct Hput as [pixels' Hp]. exists pixels'. split; [ exact Hp | ].
  split.
  - now apply (put_pixel_dims W H color x y pixels).
  - now apply (put_pixel_bytes color x y pixels).
Qed.

(** The fill never raises when every index of the rectangle is a valid
    index of the canvas, whatever the corner radius. *)
Lemma draw_rounded_rect_total W H pixels x0 y0 x1 y1 r color :
  well_formed W H pixels -> byte_rgba color = true ->
  - W <= x0 -> x1 < W -> - H <= y0 -> y1 < H ->
  exists pixels',
    draw_rounded_rect pixels x0 y0 x1 y1 r color = Some pixels'
    /\ well_formed W H pixels'.
Proof.
  intros Hwf Hc Hx0 Hx1 Hy0 Hy1. unfold draw_rounded_rect.
  apply (for_each_total (well_formed W H)); [ | exact Hwf ].
  intros y p Hy Hp. apply in_range in Hy.
  apply (for_each_total (well_formed W H)); [ | exact Hp ].
  intros x q Hx Hq. apply in_range in Hx.
  destruct (draw_flag x0 y0 x1 y1 r x y).
  - apply (put_pixel_total W H); auto; lia.
  - now exists q.
Qed.

(** A fill that ends keeps the dimensions and keeps bytes bytes. *)
Lemma draw_rounded_rect_bytes pixels pixels' x0 y0 x1 y1 r color :
  byte_rgba color = true -> byte_canvas pixels = true ->
  draw_rounded_rect pixels x0 y0 x1 y1 r color = Some pixels' ->
  byte_canvas pixels' = true.
Proof.
  intros Hc Hb. unfold draw_rounded_rect.
  apply (for_each_preserves (fun p => byte_canvas p = true)); [ | exact Hb ].
  intros y p p' _ Hp.
  apply (for_each_preserves (fun p => byte_canvas p = true)); [ | exact Hp ].
  intros x q q' _ Hq.
  destruct (draw_flag x0 y0 x1 y1 r x y).
  - now apply put_pixel_bytes.
  - now intros [= <-].
Qed.

Lemma draw_rounded_rect_dims W H pixels pixels' x0 y0 x1 y1 r color :
  has_dims W H pixels ->
  draw_rounded_rect pixels x0 y0 x1 y1 r color = Some pixels' ->
  has_dims W H pixels'.
Proof.
  intros Hd. unfold draw_rounded_rect.
  apply (for_each_preserves (has_dims W H)); [ | exact Hd ].
  intros y p p' _ Hp.
  apply (for_each_preserves (has_dims W H)); [ | exact Hp ].
  intros x q q' _ Hq.
  destruct (draw_flag x0 y0 x1 y1 r x y).
  - now apply put_pixel_dims.
  - now intros [= <-].
Qed.

Lemma blank_dims W H : 0 <= W -> 0 <= H -> has_dims W H (blank W H).
Proof.
  intros HW HH. unfold blank. split.
  - rewrite length_map, length_range. lia.
  - apply Forall_forall. intros row Hrow. apply in_map_iff in Hrow.
    destruct Hrow as [y [<- _]]. rewrite length_map, length_range. lia.
Qed.

Lemma blank_bytes W H : byte_canvas (blank W H) = true.
Proof.
  unfold byte_canvas, blank. apply forallb_forall. intros row Hrow.
  apply in_map_iff in Hrow. destruct Hrow as [y [<- _]].
  apply forallb_forall. intros px Hpx. apply in_map_iff in Hpx.
  destruct Hpx as [x [<- _]]. reflexivity.
Qed.

Lemma draw_all_bytes fills pixels pixels' :
  Forall (fun f => byte_rgba (fill_color f) = true) fills ->
  byte_canvas pixels = true ->
  draw_all fills pixels = Some pixels' -> byte_canvas pixels' = true.
Proof.
  intros Hf. revert pixels.
  induction Hf as [| f fills Hc Hf IH]; intros pixels Hb; simpl.
  - now intros [= <-].
  - destruct (draw_rounded_rect pixels _ _ _ _ _ _) as [p1 |] eqn:E;
      simpl; [ | discriminate ].
    apply IH. eapply draw_rounded_rect_bytes; eauto.
Qed.

Lemma draw_all_dims W H fills pixels pixels' :
  has_dims W H pixels ->
  draw_all fills pixels = Some pixels' -> has_dims W H pixels'.
Proof.
  revert pixels. induction fills as [| f fills IH]; intros pixels Hd; simpl.
  - now intros [= <-].
  - destruct (draw_rounded_rect pixels _ _ _ _ _ _) as [p1 |] eqn:E;
      simpl; [ | discriminate ].
    apply IH. eapply draw_rounded_rect_dims; eauto.
Qed.

End FillFacts.

(** ** Which pixels a fill writes, and what it writes *)

Module FillEffect.
Import Pacing Canvas BlendFacts CanvasFacts FillFacts.

Lemma pixel_at_nonneg pixels x y :
  0 <= x -> 0 <= y ->
  pixel_at pixels x y =
  (row <- nth_error pixels (Z.to_nat y) ;; nth_error row (Z.to_nat x)).
Proof.
  intros Hx Hy. unfold pixel_at. rewrite getitem_nonneg by exact Hy.
  destruct (nth_error pixels (Z.to_nat y)) as [row |]; simpl; [ | reflexivity ].
  now apply getitem_nonneg.
Qed.

(** One write changes one pixel: the blend of the colour over it. *)
Lemma put_pixel_effect color x y pixels pixels' :
  0 <= x -> 0 <= y ->
  put_pixel color x y pixels = Some pixels' ->
  exists dst px,
    pixel_at pixels x y = Some dst
    /\ blend color dst = Some px
    /\ forall x' y', 0 <= x' -> 0 <= y' ->
         pixel_at pixels' x' y' =
         if (x' =? x) && (y' =? y) then Some px else pixel_at pixels x' y'.
Proof.
  intros Hx Hy Hp.
  destruct (put_pixel_inv _ _ _ _ _ Hp)
    as (ky & kx & row & dst & px & Eky & Hrow & Ekx & Hdst & Hpx & ->).
  rewrite py_index_nonneg in Eky, Ekx by assumption.
  destruct (y <? Z.of_nat (length pixels)) eqn:Ely; [ | discriminate ].
  destruct (x <? Z.of_nat (length row)) eqn:Elx; [ | discriminate ].
  injection Eky as <-. injection Ekx as <-.
  apply Z.ltb_lt in Ely, Elx.
  assert (Hly : (Z.to_nat y <? length pixels)%nat = true) by (apply Nat.ltb_lt; lia).
  assert (Hlx : (Z.to_nat x <? length row)%nat = true) by (apply Nat.ltb_lt; lia).
  exists dst, px. split; [ | split; [ exact Hpx | ] ].
  - rewrite pixel_at_nonneg by assumption. now rewrite Hrow.
  - intros x' y' Hx' Hy'. rewrite !pixel_at_nonneg by assumption.
    rewrite nth_error_replace_nth, Hly, andb_true_r.
    destruct (Z.eqb_spec y' y) as [-> | Hny].
    + rewrite Nat.eqb_refl, andb_true_r, Hrow. cbn [Py.bind].
      rewrite nth_error_replace_nth, Hlx, andb_true_r.
      destruct (Z.eqb_spec x' x) as [-> | Hnx].
      * now rewrite Nat.eqb_refl.
      * assert (E : (Z.to_nat x' =? Z.to_nat x)%nat = false)
          by (apply Nat.eqb_neq; lia).
        now rewrite E.
    + assert (E : (Z.to_nat y' =? Z.to_nat y)%nat = false)
        by (apply Nat.eqb_neq; lia).
      rewrite E. now rewrite andb_false_r.
Qed.

Lemma mem_In x xs : mem x xs = true <-> In x xs.
Proof.
  unfold mem. rewrite existsb_exists. split.
  - intros [a [Ha E]]. apply Z.eqb_eq in E. now subst.
  - intros H. exists x. split; [ exact H | apply Z.eqb_refl ].
Qed.

Lemma mem_range x lo hi : mem x (range lo hi) = (lo <=? x) && (x <? hi).
Proof.
  destruct (mem x (range lo hi)) eqn:E.
  - apply mem_In, in_range in E. lia.
  - destruct ((lo <=? x) && (x <? hi)) eqn:E'; [ | reflexivity ].
    assert (In x (range lo hi)) as Hin by (apply in_range; lia).
    apply mem_In in Hin. congruence.
Qed.

(** The loop over one row. *)
Lemma row_loop_effect color (flag : Z -> bool) y xs :
  0 <= y -> NoDup xs -> (forall x, In x xs -> 0 <= x) ->
  forall pixels pixels',
    for_each xs (fun x p => if flag x then put_pixel color x y p else Some p)
      pixels = Some pixels' ->
    forall x' y', 0 <= x' -> 0 <= y' ->
      pixel_at pixels' x' y' =
      if (y' =? y) && mem x' xs && flag x'
      then dst <- pixel_at pixels x' y' ;; blend color dst
      else pixel_at pixels x' y'.
Proof.
  intros Hy Hnd. induction Hnd as [| x xs Hx Hnd IH]; intros Hpos pixels pixels'; simpl.
  - intros [= <-] x' y' _ _. now rewrite andb_false_r.
  - destruct (flag x) eqn:Ef.
    + destruct (put_pixel color x y pixels) as [p1 |] eqn:Ep; simpl; [ | discriminate ].
      intros Hloop x' y' Hx' Hy'.
      rewrite (IH (fun a Ha => Hpos a (or_intror Ha)) p1 pixels' Hloop x' y' Hx' Hy').
      destruct (put_pixel_effect color x y pixels p1 (Hpos x (or_introl eq_refl)) Hy Ep)
        as (dst & px & Hdst & Hpx & Heff).
      rewrite (Heff x' y' Hx' Hy').
      destruct (x' =? x) eqn:Ex; simpl.
      * apply Z.eqb_eq in Ex. subst x'.
        assert (Hm : mem x xs = false).
        { destruct (mem x xs) eqn:E; [ | reflexivity ].
          apply mem_In in E. contradiction. }
        rewrite Hm, Ef. rewrite andb_false_r. simpl.
        destruct (y' =? y) eqn:Ey; simpl; [ | reflexivity ].
        apply Z.eqb_eq in Ey. subst y'. now rewrite Hdst.
      * reflexivity.
    + simpl. intros Hloop x' y' Hx' Hy'.
      rewrite (IH (fun a Ha => Hpos a (or_intror Ha)) pixels pixels' Hloop x' y' Hx' Hy').
      destruct (x' =? x) eqn:Ex; simpl; [ | reflexivity ].
      apply Z.eqb_eq in Ex. subst x'. rewrite Ef.
      now rewrite !andb_false_r.
Qed.

(** The two nested loops. *)
Lemma rows_loop_effect color (flag : Z -> Z -> bool) xs ys :
  NoDup xs -> (forall x, In x xs -> 0 <= x) ->
  NoDup ys -> (forall y, In y ys -> 0 <= y) ->
  forall pixels pixels',
    for_each ys (fun y =>
      for_each xs (fun x p => if flag x y then put_pixel color x y p else Some p))
      pixels = Some pixels' ->
    forall x' y', 0 <= x' -> 0 <= y' ->
      pixel_at pixels' x' y' =
      if mem y' ys && mem x' xs && flag x' y'
      then dst <- pixel_at pixels x' y' ;; blend color dst
      else pixel_at pixels x' y'.
Proof.
  intros Hndx Hposx Hndy.
  induction Hndy as [| y ys Hy Hndy IH]; intros Hposy pixels pixels'; simpl.
  - intros [= <-] x' y' _ _. reflexivity.
  - destruct (for_each xs _ pixels) as [p1 |] eqn:Erow; simpl; [ | discriminate ].
    intros Hloop x' y' Hx' Hy'.
    rewrite (IH (fun a Ha => Hposy a (or_intror Ha)) p1 pixels' Hloop x' y' Hx' Hy').
    pose proof (row_loop_effect color (fun x => flag x y) y xs
                  (Hposy y (or_introl eq_refl)) Hndx Hposx pixels p1 Erow x' y' Hx' Hy')
      as Hrow.
    rewrite Hrow.
    destruct (y' =? y) eqn:Ey; simpl.
    + apply Z.eqb_eq in Ey. subst y'.
      assert (Hm : mem y ys = false).
      { destruct (mem y ys) eqn:E; [ | reflexivity ].
        apply mem_In in E. contradiction. }
      rewrite Hm. reflexivity.
    + reflexivity.
Qed.

(** After a fill, a pixel of the rectangle that passes the corner test
    holds the blend of the colour over its old value; every other pixel is
    as before. *)
Lemma draw_rounded_rect_effect pixels pixels' x0 y0 x1 y1 r color :
  0 <= x0 -> 0 <= y0 ->
  draw_rounded_rect pixels x0 y0 x1 y1 r color = Some pixels' ->
  forall x y, 0 <= x -> 0 <= y ->
    pixel_at pixels' x y =
    if in_rect x0 y0 x1 y1 x y && draw_flag x0 y0 x1 y1 r x y
    then dst <- pixel_at pixels x y ;; blend color dst
    else pixel_at pixels x y.
Proof.
  intros Hx0 Hy0 Hd x y Hx Hy. unfold draw_rounded_rect in Hd.
  rewrite (rows_loop_effect color (draw_flag x0 y0 x1 y1 r)
             (range x0 (x1 + 1)) (range y0 (y1 + 1))
             (NoDup_range _ _) (fun a Ha => ltac:(apply in_range in Ha; lia))
             (NoDup_range _ _) (fun a Ha => ltac:(apply in_range in Ha; lia))
             pixels pixels' Hd x y Hx Hy).
  rewrite !mem_range. unfold in_rect.
  replace ((y0 <=? y) && (y <? y1 + 1) && ((x0 <=? x) && (x <? x1 + 1)))
    with ((x0 <=? x) && (x <=? x1) && (y0 <=? y) && (y <=? y1)) by lia.
  reflexivity.
Qed.

End FillEffect.

(** ** Bytes, integers and chunks *)

Module PngFacts.
Import Pacing Canvas Png BlendFacts CanvasFacts FillFacts.

Lemma Z_of_byte_range b : 0 <= Z_of_byte b < 256.
Proof.
  unfold Z_of_byte. pose proof (Byte.to_N_bounded b). lia.
Qed.

Lemma Z_of_byte_of_Z z : Z_of_byte (byte_of_Z z) = z mod 256.
Proof.
  unfold Z_of_byte, byte_of_Z.
  pose proof (Z.mod_pos_bound z 256 ltac:(lia)) as Hm.
  destruct (Byte.of_N (Z.to_N (z mod 256))) as [b |] eqn:E.
  - apply Byte.to_of_N in E. rewrite E. lia.
  - apply Byte.of_N_None_iff in E. lia.
Qed.

Lemma byte_of_Z_of_byte b : byte_of_Z (Z_of_byte b) = b.
Proof.
  unfold byte_of_Z. pose proof (Z_of_byte_range b) as Hr.
  rewrite Z.mod_small by exact Hr. unfold Z_of_byte.
  now rewrite N2Z.id, Byte.of_to_N.
Qed.

Lemma pack_B_byte v : is_byte v = true -> pack_B v = Some (byte_of_Z v).
Proof. unfold pack_B, is_byte. now intros ->. Qed.

Lemma pack_I_be32 n : 0 <= n < 2 ^ 32 -> pack_I n = Some (be32 n).
Proof.
  intros Hn. unfold pack_I, be32.
  replace ((0 <=? n) && (n <? 2 ^ 32)) with true by lia.
  now rewrite !Z.shiftr_div_pow2 by lia.
Qed.

Lemma unpack_I_be32 n rest :
  0 <= n < 2 ^ 32 -> unpack_I (be32 n ++ rest) = Some (n, rest).
Proof.
  intros Hn. unfold be32, unpack_I. cbn [app]. cbv beta iota.
  rewrite !Z_of_byte_of_Z. f_equal. f_equal.
  change (2 ^ 24) with (256 * 256 * 256). change (2 ^ 16) with (256 * 256).
  change (2 ^ 8) with 256. change (2 ^ 32) with 4294967296 in Hn.
  rewrite <- !Z.div_div by lia.
  set (q1 := n / 256). set (q2 := q1 / 256). set (q3 := q2 / 256).
  pose proof (Z.div_mod n 256 ltac:(lia)) as H0.
  pose proof (Z.div_mod q1 256 ltac:(lia)) as H1.
  pose proof (Z.div_mod q2 256 ltac:(lia)) as H2.
  pose proof (Z.mod_pos_bound n 256 ltac:(lia)).
  pose proof (Z.mod_pos_bound q1 256 ltac:(lia)).
  pose proof (Z.mod_pos_bound q2 256 ltac:(lia)).
  fold q1 in H0. fold q2 in H1. fold q3 in H2.
  assert (Hq3 : 0 <= q3 < 256) by lia.
  rewrite (Z.mod_small q3 256 Hq3). lia.
Qed.

Lemma length_be32 n : length (be32 n) = 4%nat.
Proof. reflexivity. Qed.

(** *** The checksum is a 32-bit number *)

Lemma lxor_bound n a b :
  0 <= n -> 0 <= a < 2 ^ n -> 0 <= b < 2 ^ n -> 0 <= Z.lxor a b < 2 ^ n.
Proof.
  intros Hn Ha Hb.
  assert (H0 : 0 <= Z.lxor a b) by (apply Z.lxor_nonneg; lia).
  split; [ exact H0 | ].
  destruct (Z.eq_dec (Z.lxor a b) 0) as [-> | Hne]; [ lia | ].
  apply Z.log2_lt_pow2; [ lia | ].
  eapply Z.le_lt_trans; [ apply Z.log2_lxor; lia | ].
  apply Z.max_lub_lt.
  - destruct (Z.eq_dec a 0) as [-> | Hane].
    + simpl. destruct (Z.eq_dec n 0) as [-> | ]; [ | lia ].
      simpl in *. assert (b = 0) by lia. subst. simpl in Hne. lia.
    + apply Z.log2_lt_pow2; lia.
  - destruct (Z.eq_dec b 0) as [-> | Hbne].
    + simpl. destruct (Z.eq_dec n 0) as [-> | ]; [ | lia ].
      simpl in *. assert (a = 0) by lia. subst. simpl in Hne. lia.
    + apply Z.log2_lt_pow2; lia.
Qed.

Lemma crc32_bit_bound c : 0 <= c < 2 ^ 32 -> 0 <= crc32_bit c < 2 ^ 32.
Proof.
  intros Hc. unfold crc32_bit.
  assert (Hs : 0 <= Z.shiftr c 1 < 2 ^ 32).
  { rewrite Z.shiftr_div_pow2 by lia. change (2 ^ 1) with 2.
    change (2 ^ 32) with 4294967296 in *.
    split; [ apply Z.div_pos; lia | apply Z.div_lt_upper_bound; lia ]. }
  destruct (Z.testbit c 0); [ | exact Hs ].
  apply lxor_bound; [ lia | exact Hs | ].
  change (2 ^ 32) with 4294967296. lia.
Qed.

Lemma crc32_byte_bound c b : 0 <= c < 2 ^ 32 -> 0 <= crc32_byte c b < 2 ^ 32.
Proof.
  intros Hc. unfold crc32_byte.
  assert (Hx : 0 <= Z.lxor c (Z_of_byte b) < 2 ^ 32).
  { apply lxor_bound; [ lia | exact Hc | ].
    pose proof (Z_of_byte_range b). change (2 ^ 32) with 4294967296. lia. }
  simpl Nat.iter. auto 10 using crc32_bit_bound.
Qed.

Lemma crc32_bound data : 0 <= crc32 data < 2 ^ 32.
Proof.
  unfold crc32.
  assert (H : forall c, 0 <= c < 2 ^ 32 ->
                0 <= fold_left crc32_byte data c < 2 ^ 32).
  { induction data as [| b data IH]; intros c Hc; simpl; [ exact Hc | ].
    apply IH, crc32_byte_bound, Hc. }
  apply lxor_bound; [ lia | | change (2 ^ 32) with 4294967296; lia ].
  apply H. change (2 ^ 32) with 4294967296. lia.
Qed.

Lemma land_mask32 c : 0 <= c < 2 ^ 32 -> Z.land c 0xFFFFFFFF = c.
Proof.
  intros Hc. change 0xFFFFFFFF with (Z.ones 32).
  rewrite Z.land_ones by lia. now apply Z.mod_small.
Qed.

(** [_png_chunk] frames a payload that fits a 4-byte length. *)
Lemma png_chunk_framed tag data :
  Z.of_nat (length data) < 2 ^ 32 ->
  _png_chunk tag data = Some (framed tag data).
Proof.
  intros Hlen. unfold _png_chunk, framed.
  rewrite (land_mask32 _ (crc32_bound _)).
  rewrite (pack_I_be32 _ (crc32_bound _)). cbn [Py.bind].
  rewrite pack_I_be32 by lia. cbn [Py.bind].
  now rewrite <- app_assoc.
Qed.

End PngFacts.

(** ** Writing and reading back the scanlines and the chunks *)

Module PngRoundTrip.
Import Pacing Canvas Png BlendFacts CanvasFacts FillFacts PngFacts.

Lemma pack_BBBB_bytes px : byte_rgba px = true -> pack_BBBB px = Some (pixel_bytes px).
Proof.
  destruct px as [[[r g] b] a]. unfold byte_rgba. rewrite !andb_true_iff.
  intros [[[Hr Hg] Hb] Ha]. unfold pack_BBBB.
  now rewrite (pack_B_byte r Hr), (pack_B_byte g Hg), (pack_B_byte b Hb),
    (pack_B_byte a Ha).
Qed.

Lemma getitem_middle {A : Type} (pre suf : list A) a :
  getitem (pre ++ a :: suf) (Z.of_nat (length pre)) = Some a.
Proof.
  rewrite getitem_nonneg by lia. rewrite Nat2Z.id.
  rewrite nth_error_app2 by lia. now rewrite Nat.sub_diag.
Qed.

(** The inner loop of [create_png] appends the bytes of the pixels of the
    row, in order. *)
Lemma pack_row_loop pixels y row :
  getitem pixels y = Some row -> forallb byte_rgba row = true ->
  forall raw,
    for_each (range 0 (Z.of_nat (length row))) (fun x raw =>
      row <- getitem pixels y ;;
      px <- getitem row x ;;
      b <- pack_BBBB px ;;
      Some (raw ++ b)) raw
    = Some (raw ++ concat (map pixel_bytes row)).
Proof.
  intros Hrow Hb. unfold range. rewrite Z.sub_0_r, Nat2Z.id.
  set (body := fun (x : Z) (raw : bytes) =>
         row <- getitem pixels y ;;
         px <- getitem row x ;;
         b <- pack_BBBB px ;;
         Some (raw ++ b)).
  assert (H : forall suf pre raw, row = pre ++ suf ->
    for_each (map (fun k => 0 + Z.of_nat k) (seq (length pre) (length suf)))
      body raw
    = Some (raw ++ concat (map pixel_bytes suf))).
  { induction suf as [| a suf IH]; intros pre raw Hsplit.
    - simpl. now rewrite app_nil_r.
    - cbn [length seq map for_each concat].
      assert (Hstep : body (0 + Z.of_nat (length pre)) raw
                      = Some (raw ++ pixel_bytes a)).
      { unfold body. rewrite Hrow. cbn [Py.bind]. rewrite Hsplit.
        rewrite Z.add_0_l, getitem_middle. cbn [Py.bind].
        assert (Ha : byte_rgba a = true).
        { rewrite forallb_forall in Hb. apply Hb. rewrite Hsplit.
          apply in_or_app. right. now left. }
        now rewrite (pack_BBBB_bytes a Ha). }
      rewrite Hstep. cbn [Py.bind].
      specialize (IH (pre ++ [a]) (raw ++ pixel_bytes a)).
      rewrite length_app in IH. simpl length in IH.
      rewrite Nat.add_1_r in IH. rewrite IH.
      + now rewrite <- app_assoc.
      + rewrite Hsplit. now rewrite <- app_assoc. }
  intros raw. exact (H row [] raw eq_refl).
Qed.

(** [create_png] packs a well-formed canvas into its scanlines. *)
Lemma raw_scanlines_ok W H pixels :
  well_formed W H pixels -> raw_scanlines W H pixels = Some (scanlines pixels).
Proof.
  intros [[Hlen Hrows] Hb]. unfold raw_scanlines, scanlines.
  subst H. unfold range at 1. rewrite Z.sub_0_r, Nat2Z.id.
  set (body := fun (y : Z) (raw : bytes) =>
         let raw := raw ++ [Byte.x00] in
         for_each (range 0 W) (fun x raw =>
           row <- getitem pixels y ;;
           px <- getitem row x ;;
           b <- pack_BBBB px ;;
           Some (raw ++ b)) raw).
  assert (Hgen : forall suf pre raw, pixels = pre ++ suf ->
    for_each (map (fun k => 0 + Z.of_nat k) (seq (length pre) (length suf)))
      body raw
    = Some (raw ++ concat (map scanline suf))).
  { induction suf as [| row suf IH]; intros pre raw Hsplit.
    - simpl. now rewrite app_nil_r.
    - cbn [length seq map for_each concat].
      assert (Hin : In row pixels).
      { rewrite Hsplit. apply in_or_app. right. now left. }
      assert (HW : Z.of_nat (length row) = W).
      { rewrite Forall_forall in Hrows. now apply Hrows. }
      assert (Hrb : forallb byte_rgba row = true).
      { unfold byte_canvas in Hb. rewrite forallb_forall in Hb. now apply Hb. }
      assert (Hstep : body (0 + Z.of_nat (length pre)) raw
                      = Some (raw ++ scanline row)).
      { unfold body. cbv zeta. rewrite <- HW, Z.add_0_l.
        rewrite (pack_row_loop pixels (Z.of_nat (length pre)) row);
          [ | rewrite Hsplit; apply getitem_middle | exact Hrb ].
        unfold scanline. now rewrite <- app_assoc. }
      rewrite Hstep. cbn [Py.bind].
      specialize (IH (pre ++ [row]) (raw ++ scanline row)).
      rewrite length_app in IH. simpl length in IH.
      rewrite Nat.add_1_r in IH. rewrite IH.
      + now rewrite <- app_assoc.
      + rewrite Hsplit. now rewrite <- app_assoc. }
  exact (Hgen pixels [] [] eq_refl).
Qed.

(** *** Reading back *)

Lemma Z_of_byte_of_byte v : is_byte v = true -> Z_of_byte (byte_of_Z v) = v.
Proof.
  intros Hv. apply is_byte_spec in Hv. rewrite Z_of_byte_of_Z.
  apply Z.mod_small. lia.
Qed.

Lemma read_pixel_bytes px rest :
  byte_rgba px = true -> read_pixel (pixel_bytes px ++ rest) = Some (px, rest).
Proof.
  destruct px as [[[r g] b] a]. unfold byte_rgba. rewrite !andb_true_iff.
  intros [[[Hr Hg] Hb] Ha]. unfold pixel_bytes, read_pixel. cbn [app].
  now rewrite !Z_of_byte_of_byte.
Qed.

Lemma read_row_bytes row rest :
  forallb byte_rgba row = true ->
  read_row (length row) (concat (map pixel_bytes row) ++ rest) = Some (row, rest).
Proof.
  induction row as [| px row IH]; intros Hb; [ reflexivity | ].
  simpl in Hb. apply andb_prop in Hb. destruct Hb as [Hpx Hrow].
  cbn [length read_row map concat]. rewrite <- app_assoc.
  rewrite (read_pixel_bytes px _ Hpx). cbn [Py.bind].
  rewrite (IH Hrow). reflexivity.
Qed.

Lemma read_scanlines_ok W pixels :
  Forall (fun row => length row = W) pixels -> byte_canvas pixels = true ->
  read_scanlines W (length pixels) (scanlines pixels) = Some pixels.
Proof.
  intros Hrows Hb. unfold scanlines.
  induction Hrows as [| row pixels Hrow Hrows IH]; [ reflexivity | ].
  simpl in Hb. apply andb_prop in Hb. destruct Hb as [Hrb Hb].
  cbn [length read_scanlines map concat]. unfold scanline at 1. cbn [app].
  rewrite <- Hrow. rewrite (read_row_bytes row _ Hrb). cbn [Py.bind].
  rewrite Hrow. rewrite (IH Hb). reflexivity.
Qed.

Lemma take_app n (a b : bytes) : length a = n -> take n (a ++ b) = Some (a, b).
Proof.
  intros <-. unfold take. rewrite length_app.
  replace (length a <=? length a + length b)%nat with true
    by (symmetry; apply Nat.leb_le; lia).
  rewrite firstn_app, Nat.sub_diag, firstn_all. simpl firstn. rewrite app_nil_r.
  rewrite skipn_app, Nat.sub_diag, skipn_all. reflexivity.
Qed.

Lemma bytes_eqb_refl a : bytes_eqb a a = true.
Proof. unfold bytes_eqb. destruct (list_eq_dec Byte.byte_eq_dec a a); congruence. Qed.

(** A framed chunk is read back as its tag and payload. *)
Lemma read_chunk_framed tag data rest :
  length tag = 4%nat -> Z.of_nat (length data) < 2 ^ 31 ->
  read_chunk (framed tag data ++ rest) = Some (tag, data, rest).
Proof.
  intros Htag Hlen. unfold read_chunk, framed. rewrite <- !app_assoc.
  rewrite unpack_I_be32
    by (split; [ lia | eapply Z.lt_trans; [ exact Hlen | reflexivity ] ]).
  cbn [Py.bind].
  replace (Z.of_nat (length data) <? 2 ^ 31) with true
    by (symmetry; now apply Z.ltb_lt).
  rewrite (take_app 4 tag _ Htag). cbn [Py.bind].
  rewrite (take_app (Z.to_nat (Z.of_nat (length data))) data)
    by now rewrite Nat2Z.id.
  cbn [Py.bind].
  rewrite (unpack_I_be32 _ _ (crc32_bound _)). cbn [Py.bind].
  rewrite (land_mask32 _ (crc32_bound _)), Z.eqb_refl. reflexivity.
Qed.

Lemma length_framed tag data :
  length (framed tag data) = (8 + length tag + length data)%nat.
Proof. unfold framed. rewrite !length_app, !length_be32. lia. Qed.

(** The chunks the encoder writes after [IHDR] are read back as the
    payload of the one [IDAT]. *)
Lemma read_idat_ok data :
  Z.of_nat (length data) < 2 ^ 31 ->
  let s := framed tag_IDAT data ++ framed tag_IEND [] in
  read_idat (length s) s [] = Some data.
Proof.
  intros Hlen s.
  assert (Hfuel : exists k, length s = S (S k)).
  { exists (length s - 2)%nat. unfold s.
    rewrite length_app, !length_framed. simpl length. lia. }
  destruct Hfuel as [k ->]. unfold s.
  cbn [read_idat].
  rewrite (read_chunk_framed tag_IDAT data _ eq_refl Hlen). cbn [Py.bind].
  rewrite bytes_eqb_refl.
  rewrite <- (app_nil_r (framed tag_IEND [])).
  rewrite (read_chunk_framed tag_IEND [] [] eq_refl eq_refl). cbn [Py.bind].
  reflexivity.
Qed.

End PngRoundTrip.

(** ** The history builder: the order of timestamps, the loop, the sort *)

Module HistoryFacts.
Import FloatPred FloatFacts Usage History.

(** *** The order of strings *)

Lemma ascii_compare_refl c : Ascii.compare c c = Eq.
Proof. unfold Ascii.compare. apply N.compare_refl. Qed.

Lemma ascii_compare_lt_trans a b c :
  Ascii.compare a b = Lt -> Ascii.compare b c = Lt -> Ascii.compare a c = Lt.
Proof. unfold Ascii.compare. rewrite !N.compare_lt_iff. lia. Qed.

Lemma string_compare_refl s : String.compare s s = Eq.
Proof.
  induction s as [| c s IH]; simpl; [ reflexivity | ].
  now rewrite ascii_compare_refl.
Qed.

Lemma string_compare_lt_trans a :
  forall b c,
    String.compare a b = Lt -> String.compare b c = Lt -> String.compare a c = Lt.
Proof.
  induction a as [| x a IH]; intros [| y b] [| z c]; simpl;
    try discriminate; try reflexivity.
  destruct (Ascii.compare x y) eqn:Exy; try discriminate;
    destruct (Ascii.compare y z) eqn:Eyz; try discriminate.
  - apply Ascii.compare_eq_iff in Exy, Eyz. subst.
    rewrite ascii_compare_refl. apply IH.
  - apply Ascii.compare_eq_iff in Exy. subst. now rewrite Eyz.
  - apply Ascii.compare_eq_iff in Eyz. subst. now rewrite Exy.
  - now rewrite (ascii_compare_lt_trans x y z Exy Eyz).
Qed.

Lemma string_ltb_trans a b c :
  (a <? b)%string = true -> (b <? c)%string = true -> (a <? c)%string = true.
Proof.
  unfold String.ltb. intros H1 H2.
  destruct (String.compare a b) eqn:E1; try discriminate.
  destruct (String.compare b c) eqn:E2; try discriminate.
  now rewrite (string_compare_lt_trans a b c E1 E2).
Qed.

Lemma string_ltb_irrefl a : (a <? a)%string = false.
Proof. unfold String.ltb. now rewrite string_compare_refl. Qed.

(** Not smaller or equal is strictly greater. *)
Lemma string_leb_false a b : (a <=? b)%string = false -> (b <? a)%string = true.
Proof.
  unfold String.leb, String.ltb. rewrite (String.compare_antisym a b).
  destruct (String.compare b a); simpl; congruence.
Qed.

Lemma string_leb_neq a b : (a <=? b)%string = true -> a <> b -> (a <? b)%string = true.
Proof.
  unfold String.leb, String.ltb. intros H Hne.
  destruct (String.compare a b) eqn:E; try discriminate; [ | reflexivity ].
  apply String.compare_eq_iff in E. contradiction.
Qed.

(** *** The sort *)

Lemma In_insert_by_ts n m l : In m (insert_by_ts n l) <-> m = n \/ In m l.
Proof.
  induction l as [| a l IH]; simpl.
  - intuition congruence.
  - destruct (ts n <=? ts a)%string; simpl; [ intuition congruence | ].
    rewrite IH. intuition congruence.
Qed.

Lemma In_sort_by_ts m l : In m (sort_by_ts l) <-> In m l.
Proof.
  induction l as [| a l IH]; simpl; [ tauto | ].
  rewrite In_insert_by_ts, IH. intuition congruence.
Qed.

Lemma length_insert_by_ts n l : length (insert_by_ts n l) = S (length l).
Proof.
  induction l as [| a l IH]; simpl; [ reflexivity | ].
  destruct (ts n <=? ts a)%string; simpl; [ reflexivity | now rewrite IH ].
Qed.

Lemma length_sort_by_ts l : length (sort_by_ts l) = length l.
Proof.
  induction l as [| a l IH]; simpl; [ reflexivity | ].
  now rewrite length_insert_by_ts, IH.
Qed.

(** A list increases when its head is below every later entry and its
    tail increases. *)
Lemma increasing_cons n l :
  increasing (n :: l) = true
  <-> (forall m, In m l -> (ts n <? ts m)%string = true) /\ increasing l = true.
Proof.
  revert n. induction l as [| a l IH]; intros n.
  - simpl. split; [ intros _; split; [ intros m [] | reflexivity ] | reflexivity ].
  - change (increasing (n :: a :: l))
      with ((ts n <? ts a)%string && increasing (a :: l)).
    rewrite andb_true_iff. split.
    + intros [Hna Ha]. split; [ | exact Ha ].
      intros m [<- | Hm]; [ exact Hna | ].
      apply (string_ltb_trans _ (ts a)); [ exact Hna | ].
      apply IH in Ha. now apply Ha.
    + intros [Hall Ha]. split; [ apply Hall; now left | exact Ha ].
Qed.

Lemma increasing_insert_by_ts n l :
  increasing l = true -> ~ In (ts n) (map ts l) ->
  increasing (insert_by_ts n l) = true.
Proof.
  induction l as [| a l IH]; intros Hl Hn; [ reflexivity | ].
  simpl insert_by_ts.
  assert (Hne : ts n <> ts a) by (intros E; apply Hn; left; now symmetry).
  assert (Hnl : ~ In (ts n) (map ts l)) by (intros H; apply Hn; now right).
  apply increasing_cons in Hl. destruct Hl as [Hall Hl].
  destruct (ts n <=? ts a)%string eqn:E.
  - assert (Hlt : (ts n <? ts a)%string = true) by now apply string_leb_neq.
    apply increasing_cons. split.
    + intros m [<- | Hm]; [ exact Hlt | ].
      apply (string_ltb_trans _ (ts a)); [ exact Hlt | now apply Hall ].
    + apply increasing_cons. now split.
  - apply string_leb_false in E.
    apply increasing_cons. split.
    + intros m Hm. apply (proj1 (In_insert_by_ts _ _ _)) in Hm.
      destruct Hm as [-> | Hm]; [ exact E | now apply Hall ].
    + now apply IH.
Qed.

Lemma increasing_sort_by_ts l :
  NoDup (map ts l) -> increasing (sort_by_ts l) = true.
Proof.
  induction l as [| a l IH]; intros Hnd; [ reflexivity | ].
  simpl in Hnd. inversion Hnd as [| x xs Hx Hxs]; subst.
  simpl sort_by_ts. apply increasing_insert_by_ts; [ now apply IH | ].
  intros Hin. apply Hx.
  apply in_map_iff in Hin. destruct Hin as [m [Em Hm]].
  apply (proj1 (In_sort_by_ts _ _)) in Hm. rewrite <- Em. exact (in_map ts _ _ Hm).
Qed.

(** *** No exception in [normalize] *)

Lemma positive_nonzero x : (0 <? x)%float = true -> (x =? 0)%float = false.
Proof.
  rewrite ltb_spec, eqb_spec. change (Prim2SF 0) with (S754_zero false).
  destruct (Prim2SF x) as [ [] | [] | | [] m e ]; try discriminate; reflexivity.
Qed.

Lemma derived_remaining_total used limit :
  (0 <? limit)%float = true ->
  derived_remaining used limit
  = Some (Py.max 0 (1 - used / limit) * 100)%float.
Proof.
  intros H. unfold derived_remaining, Py.div.
  now rewrite (positive_nonzero _ H).
Qed.

Lemma get_remaining_total t : exists r, get_remaining t = Some r.
Proof.
  unfold get_remaining.
  destruct (raw_remaining_pct t); [ eauto | ].
  destruct (raw_used t) as [u |]; [ | eauto ].
  destruct (raw_limit t) as [l |]; [ | eauto ].
  destruct (0 <? l)%float eqn:E; [ | eauto ].
  rewrite (derived_remaining_total _ _ E). cbn [Py.bind]. eauto.
Qed.

Lemma normalize_total e : exists r, normalize e = Some r.
Proof.
  unfold normalize.
  destruct (negb (truthy _)); [ eauto | ].
  destruct (if truthy (raw_ts e) then raw_ts e else raw_updated_at e);
    [ | eauto ].
  destruct (raw_event e && negb (present (raw_session e))); [ eauto | ].
  destruct (get_remaining_total (get_tier (raw_session e))) as [rs ->].
  destruct (get_remaining_total (get_tier (raw_weekly e))) as [rw ->].
  destruct (get_remaining_total (get_tier (raw_extra e))) as [re ->].
  cbn [Py.bind].
  destruct (negb (present rs) && negb (present rw)); eauto.
Qed.

(** *** The loop *)

Lemma find_ts_app t l n :
  find_ts t (l ++ [n]) =
  match find_ts t l with
  | Some m => Some m
  | None => if (ts n =? t)%string then Some n else None
  end.
Proof.
  unfold find_ts. induction l as [| a l IH]; simpl; [ reflexivity | ].
  destruct (ts a =? t)%string; [ reflexivity | exact IH ].
Qed.

Lemma find_ts_some t l n : find_ts t l = Some n -> In n l /\ ts n = t.
Proof.
  unfold find_ts. intros H. apply find_some in H.
  destruct H as [Hin E]. apply String.eqb_eq in E. now split.
Qed.

Lemma find_ts_none t l : find_ts t l = None -> ~ In t (map ts l).
Proof.
  unfold find_ts. intros H Hin. apply in_map_iff in Hin.
  destruct Hin as [m [Em Hm]].
  pose proof (find_none _ _ H m Hm) as E. simpl in E.
  rewrite Em, String.eqb_refl in E. discriminate.
Qed.

Lemma find_ts_NoDup l :
  NoDup (map ts l) -> forall n, In n l -> find_ts (ts n) l = Some n.
Proof.
  unfold find_ts. induction l as [| a l IH]; intros Hnd n Hin; [ destruct Hin | ].
  simpl in Hnd. inversion Hnd as [| x xs Hx Hxs]; subst. simpl.
  destruct Hin as [-> | Hin]; [ now rewrite String.eqb_refl | ].
  destruct (String.eqb_spec (ts a) (ts n)) as [E | _]; [ | now apply IH ].
  exfalso. apply Hx. rewrite E. exact (in_map ts _ _ Hin).
Qed.

Lemma NoDup_snoc {A : Type} (l : list A) (a : A) :
  NoDup l -> ~ In a l -> NoDup (l ++ [a]).
Proof.
  induction l as [| b l IH]; intros Hnd Ha; simpl.
  - constructor; [ intros [] | constructor ].
  - inversion Hnd as [| x xs Hx Hxs]; subst. constructor.
    + rewrite in_app_iff. intros [H | [H | []]]; [ now apply Hx | ].
      apply Ha. now left.
    + apply IH; [ exact Hxs | ]. intros H. apply Ha. now right.
Qed.

(** The loop never raises; it keeps the timestamps distinct, and for each
    timestamp the entry it holds is the one it held before or else the
    first line with that timestamp. *)
Lemma read_lines_spec lines :
  forall entries seen_ts,
    (forall t, seen t seen_ts = present (find_ts t entries)) ->
    NoDup (map ts entries) ->
    exists entries' seen_ts',
      read_lines lines (entries, seen_ts) = Some (entries', seen_ts')
      /\ NoDup (map ts entries')
      /\ forall t, find_ts t entries' =
           match find_ts t entries with
           | Some n => Some n
           | None => first_with_ts t lines
           end.
Proof.
  induction lines as [| line lines IH]; intros entries seen_ts Hseen Hnd.
  - exists entries, seen_ts. split; [ reflexivity | ]. split; [ exact Hnd | ].
    intros t. simpl. now destruct (find_ts t entries).
  - simpl read_lines. simpl first_with_ts.
    destruct line as [raw |]; [ | apply IH; assumption ].
    unfold read_line.
    destruct (normalize_total raw) as [r Er]. rewrite Er. cbn [Py.bind].
    destruct r as [n |]; [ | apply IH; assumption ].
    destruct (seen (ts n) seen_ts) eqn:Es; simpl negb; cbv iota.
    + destruct (IH entries seen_ts Hseen Hnd) as (en' & se' & Hr & Hnd' & Hf).
      exists en', se'. split; [ exact Hr | ]. split; [ exact Hnd' | ].
      intros t. rewrite Hf. destruct (find_ts t entries) eqn:Ef; [ reflexivity | ].
      destruct (String.eqb_spec (ts n) t) as [E | _]; [ | reflexivity ].
      subst t. rewrite Hseen, Ef in Es. discriminate.
    + assert (Hnone : find_ts (ts n) entries = None).
      { rewrite Hseen in Es. now destruct (find_ts (ts n) entries). }
      assert (Hseen' : forall t,
                 seen t (ts n :: seen_ts) = present (find_ts t (entries ++ [n]))).
      { intros t. simpl seen. rewrite find_ts_app.
        change (existsb (String.eqb t) seen_ts) with (seen t seen_ts).
        rewrite Hseen, (String.eqb_sym t (ts n)).
        destruct (find_ts t entries); simpl; [ apply orb_true_r | ].
        rewrite orb_false_r. now destruct (ts n =? t)%string. }
      assert (Hnd1 : NoDup (map ts (entries ++ [n]))).
      { rewrite map_app. apply NoDup_snoc; [ exact Hnd | ].
        now apply find_ts_none. }
      destruct (IH (entries ++ [n]) (ts n :: seen_ts) Hseen' Hnd1)
        as (en' & se' & Hr & Hnd' & Hf).
      exists en', se'. split; [ exact Hr | ]. split; [ exact Hnd' | ].
      intros t. rewrite Hf, find_ts_app.
      destruct (find_ts t entries); [ reflexivity | ].
      now destruct (ts n =? t)%string.
Qed.

End HistoryFacts.

(** ** More on the rounded-rectangle fill: empty ranges, corners, wrap-around *)

Module RectFacts.
Import Pacing Canvas ByteCheck BlendFacts CanvasFacts FillFacts FillEffect Aux.

Lemma range_empty lo hi : hi <= lo -> range lo hi = [].
Proof.
  intros H. unfold range. replace (Z.to_nat (hi - lo)) with O by lia. reflexivity.
Qed.

(** A loop whose body returns its state unchanged returns the state. *)
Lemma for_each_skip {S : Type} (l : list Z) (body : Z -> S -> option S) s :
  (forall i, In i l -> body i s = Some s) -> for_each l body s = Some s.
Proof.
  induction l as [| i l IH]; intros Hb; [ reflexivity | ].
  simpl. rewrite (Hb i (or_introl eq_refl)). simpl.
  apply IH. intros j Hj. apply Hb. now right.
Qed.

(** Two loops over the same indices whose bodies agree on the states that
    satisfy an invariant the first body keeps. *)
Lemma for_each_agree {S : Type} (I : S -> Prop) (l : list Z)
    (body1 body2 : Z -> S -> option S) :
  (forall i s, In i l -> I s -> body1 i s = body2 i s) ->
  (forall i s s', In i l -> I s -> body1 i s = Some s' -> I s') ->
  forall s, I s -> for_each l body1 s = for_each l body2 s.
Proof.
  induction l as [| i l IH]; intros Heq Hinv s Hs; [ reflexivity | ].
  simpl. rewrite <- (Heq i s (or_introl eq_refl) Hs).
  destruct (body1 i s) as [s1 |] eqn:E; simpl; [ | reflexivity ].
  apply IH.
  - intros j t Hj. apply Heq. now right.
  - intros j t t' Hj. apply Hinv. now right.
  - apply (Hinv i s s1); auto. now left.
Qed.

Lemma for_each_map {S : Type} (f : Z -> Z) (l : list Z)
    (body : Z -> S -> option S) s :
  for_each (map f l) body s = for_each l (fun i => body (f i)) s.
Proof.
  revert s. induction l as [| i l IH]; intros s; [ reflexivity | ].
  simpl. destruct (body (f i) s); simpl; [ apply IH | reflexivity ].
Qed.

Lemma range_shift lo hi d :
  range (lo + d) (hi + d) = map (fun i => i + d) (range lo hi).
Proof.
  unfold range. rewrite map_map.
  replace (hi + d - (lo + d)) with (hi - lo) by lia.
  apply map_ext. intros k. lia.
Qed.

(** *** The corner test *)

Lemma draw_flag_shift x0 y0 x1 y1 r x y dx dy :
  draw_flag (x0 + dx) (y0 + dy) (x1 + dx) (y1 + dy) r (x + dx) (y + dy)
  = draw_flag x0 y0 x1 y1 r x y.
Proof.
  unfold draw_flag.
  replace (x + dx - (x0 + dx + r)) with (x - (x0 + r)) by lia.
  replace (x + dx - (x1 + dx - r)) with (x - (x1 - r)) by lia.
  replace (y + dy - (y0 + dy + r)) with (y - (y0 + r)) by lia.
  replace (y + dy - (y1 + dy - r)) with (y - (y1 - r)) by lia.
  replace (x + dx <? x0 + dx + r) with (x <? x0 + r) by lia.
  replace (y + dy <? y0 + dy + r) with (y <? y0 + r) by lia.
  replace (x + dx >? x1 + dx - r) with (x >? x1 - r) by lia.
  replace (y + dy >? y1 + dy - r) with (y >? y1 - r) by lia.
  reflexivity.
Qed.

(** With radius 0 no pixel of the rectangle is left out. *)
Lemma draw_flag_square x0 y0 x1 y1 x y :
  in_rect x0 y0 x1 y1 x y = true -> draw_flag x0 y0 x1 y1 0 x y = true.
Proof.
  unfold in_rect, draw_flag. intros H.
  replace (x <? x0 + 0) with false by lia.
  replace (x >? x1 - 0) with false by lia.
  reflexivity.
Qed.

(** With radius 1, on a rectangle of at least two columns and two rows,
    the pixels left out are the four corners. *)
Lemma draw_flag_radius_1 x0 y0 x1 y1 x y :
  x0 < x1 -> y0 < y1 -> in_rect x0 y0 x1 y1 x y = true ->
  draw_flag x0 y0 x1 y1 1 x y = negb (is_corner x0 y0 x1 y1 x y).
Proof.
  unfold in_rect, draw_flag, is_corner. intros Hx Hy H.
  rewrite !Z.pow_2_r.
  destruct (Z.eqb_spec x x0) as [-> | Nx0].
  - replace (x0 <? x0 + 1) with true by lia.
    replace (x0 >? x1 - 1) with false by lia. cbn [andb orb].
    destruct (Z.eqb_spec y y0) as [-> | Ny0].
    + replace (y0 <? y0 + 1) with true by lia. cbn [orb negb].
      replace ((x0 - (x0 + 1)) * (x0 - (x0 + 1)) + (y0 - (y0 + 1)) * (y0 - (y0 + 1)))
        with 2 by lia.
      reflexivity.
    + replace (y <? y0 + 1) with false by lia. cbn [orb].
      destruct (Z.eqb_spec y y1) as [-> | Ny1].
      * replace (y1 >? y1 - 1) with true by lia. cbn [negb].
        replace ((x0 - (x0 + 1)) * (x0 - (x0 + 1)) + (y1 - (y1 - 1)) * (y1 - (y1 - 1)))
          with 2 by lia.
        reflexivity.
      * replace (y >? y1 - 1) with false by lia. reflexivity.
  - replace (x <? x0 + 1) with false by lia. cbn [andb orb].
    destruct (Z.eqb_spec x x1) as [-> | Nx1].
    + replace (x1 >? x1 - 1) with true by lia. cbn [andb orb].
      destruct (Z.eqb_spec y y0) as [-> | Ny0].
      * replace (y0 <? y0 + 1) with true by lia. cbn [orb negb].
        replace ((x1 - (x1 - 1)) * (x1 - (x1 - 1)) + (y0 - (y0 + 1)) * (y0 - (y0 + 1)))
          with 2 by lia.
        reflexivity.
      * replace (y <? y0 + 1) with false by lia. cbn [orb].
        destruct (Z.eqb_spec y y1) as [-> | Ny1].
        -- replace (y1 >? y1 - 1) with true by lia. cbn [negb].
           replace ((x1 - (x1 - 1)) * (x1 - (x1 - 1)) + (y1 - (y1 - 1)) * (y1 - (y1 - 1)))
             with 2 by lia.
           reflexivity.
        -- replace (y >? y1 - 1) with false by lia. reflexivity.
    + replace (x >? x1 - 1) with false by lia. reflexivity.
Qed.

(** *** An empty rectangle *)

Lemma draw_rounded_rect_empty pixels x0 y0 x1 y1 r color :
  x1 < x0 \/ y1 < y0 ->
  draw_rounded_rect pixels x0 y0 x1 y1 r color = Some pixels.
Proof.
  intros H. unfold draw_rounded_rect.
  apply for_each_skip. intros y Hy.
  destruct H as [H | H].
  - rewrite (range_empty x0 (x1 + 1)) by lia. reflexivity.
  - apply in_range in Hy. lia.
Qed.

(** *** Negative indices count from the far edge *)

Lemma py_index_wrap len i d :
  d = 0 \/ (d = len /\ - len <= i < 0) -> py_index len (i + d) = py_index len i.
Proof.
  intros [-> | [-> Hi]]; [ now rewrite Z.add_0_r | ].
  unfold py_index.
  replace (i + len <? 0) with false by lia.
  replace (i <? 0) with true by lia. reflexivity.
Qed.

Lemma put_pixel_wrap W H color x y dx dy pixels :
  has_dims W H pixels ->
  dx = 0 \/ (dx = W /\ - W <= x < 0) ->
  dy = 0 \/ (dy = H /\ - H <= y < 0) ->
  put_pixel color (x + dx) (y + dy) pixels = put_pixel color x y pixels.
Proof.
  intros [Hlen Hrows] Hdx Hdy. unfold put_pixel, getitem, setitem.
  rewrite Hlen, (py_index_wrap H y dy Hdy).
  destruct (py_index H y) as [ky |]; cbn [Py.bind]; [ | reflexivity ].
  destruct (nth_error pixels ky) as [row |] eqn:Erow; cbn [Py.bind]; [ | reflexivity ].
  assert (Hrl : Z.of_nat (length row) = W).
  { rewrite Forall_forall in Hrows. apply Hrows. eapply nth_error_In; eauto. }
  rewrite Hrl, (py_index_wrap W x dx Hdx). reflexivity.
Qed.

Lemma draw_rounded_rect_wrap W H pixels x0 y0 x1 y1 r color dx dy :
  has_dims W H pixels -> wraps W x0 x1 dx -> wraps H y0 y1 dy ->
  draw_rounded_rect pixels (x0 + dx) (y0 + dy) (x1 + dx) (y1 + dy) r color
  = draw_rounded_rect pixels x0 y0 x1 y1 r color.
Proof.
  intros Hd Hwx Hwy. unfold draw_rounded_rect.
  replace (y1 + dy + 1) with (y1 + 1 + dy) by lia.
  replace (x1 + dx + 1) with (x1 + 1 + dx) by lia.
  rewrite !range_shift, for_each_map.
  apply (for_each_agree (has_dims W H)); [ | | exact Hd ].
  - intros y p Hy Hp. rewrite for_each_map. apply in_range in Hy.
    apply (for_each_agree (has_dims W H)); [ | | exact Hp ].
    + intros x q Hx Hq. apply in_range in Hx.
      rewrite draw_flag_shift.
      destruct (draw_flag x0 y0 x1 y1 r x y); [ | reflexivity ].
      apply (put_pixel_wrap W H); [ exact Hq | | ].
      * destruct Hwx as [-> | (-> & Hlo & Hhi)]; [ now left | right; lia ].
      * destruct Hwy as [-> | (-> & Hlo & Hhi)]; [ now left | right; lia ].
    + intros x q q' Hx Hq.
      rewrite draw_flag_shift.
      destruct (draw_flag x0 y0 x1 y1 r x y); [ | now intros [= <-] ].
      now apply put_pixel_dims.
  - intros y p p' Hy Hp Hrun.
    revert Hrun. apply for_each_preserves; [ | exact Hp ].
    intros x q q' Hx Hq.
    destruct (draw_flag _ _ _ _ _ _ _); [ | now intros [= <-] ].
    now apply put_pixel_dims.
Qed.

End RectFacts.

(** ** The two ends of the blend: opaque and fully transparent colours *)

Module BlendEnds.
Import Pacing Canvas ByteCheck BlendFacts CanvasFacts FillFacts FillEffect Aux RectFacts.

(** Checked on all [256 * 256] pairs of bytes. *)
Lemma opaque_channels_true :
  all_bytes (fun fs => all_bytes (fun fd => opaque_channel_ok fs fd)) = true.
Proof. vm_compute. reflexivity. Qed.

Lemma clear_channels_true :
  all_bytes (fun fs => all_bytes (fun fd => clear_channel_ok fs fd)) = true.
Proof. vm_compute. reflexivity. Qed.

Lemma byte_ints_agree_true : forallb byte_int_agrees (seq 0 256) = true.
Proof. vm_compute. reflexivity. Qed.

Lemma int_of_byte_float k :
  (k < 256)%nat -> Py.int (byte_float k) = Some (Z.of_nat k).
Proof.
  intros Hk. pose proof byte_ints_agree_true as H.
  rewrite forallb_forall in H.
  assert (Hin : In k (seq 0 256)) by (apply in_seq; lia).
  specialize (H k Hin). unfold byte_int_agrees in H.
  destruct (Py.int (byte_float k)) as [z |]; [ | discriminate ].
  apply Z.eqb_eq in H. now subst.
Qed.

Lemma blend_channel_opaque s d :
  is_byte s = true -> is_byte d = true ->
  blend_channel s d (255 / 255)%float = Some s.
Proof.
  intros Hs Hd. unfold blend_channel.
  rewrite (float_of_byte s Hs), (float_of_byte d Hd). cbn [Py.bind].
  apply is_byte_spec in Hs, Hd.
  pose proof (all_bytes_spec _ opaque_channels_true (Z.to_nat s) ltac:(lia)) as H1.
  cbv beta in H1.
  pose proof (all_bytes_spec _ H1 (Z.to_nat d) ltac:(lia)) as H2.
  unfold opaque_channel_ok, chan_float in H2.
  rewrite (int_of_byte_float (Z.to_nat s)) in H2 by lia.
  destruct (Py.int _) as [z |]; [ | discriminate ].
  apply Z.eqb_eq in H2. rewrite H2. f_equal. lia.
Qed.

Lemma blend_channel_clear s d :
  is_byte s = true -> is_byte d = true ->
  blend_channel s d (0 / 255)%float = Some d.
Proof.
  intros Hs Hd. unfold blend_channel.
  rewrite (float_of_byte s Hs), (float_of_byte d Hd). cbn [Py.bind].
  apply is_byte_spec in Hs, Hd.
  pose proof (all_bytes_spec _ clear_channels_true (Z.to_nat s) ltac:(lia)) as H1.
  cbv beta in H1.
  pose proof (all_bytes_spec _ H1 (Z.to_nat d) ltac:(lia)) as H2.
  unfold clear_channel_ok, chan_float in H2.
  rewrite (int_of_byte_float (Z.to_nat d)) in H2 by lia.
  destruct (Py.int _) as [z |]; [ | discriminate ].
  apply Z.eqb_eq in H2. rewrite H2. f_equal. lia.
Qed.

(** An opaque colour replaces the pixel. *)
Lemma blend_opaque sr sg sb dst :
  is_byte sr = true -> is_byte sg = true -> is_byte sb = true ->
  byte_rgba dst = true ->
  blend (sr, sg, sb, 255) dst = Some (sr, sg, sb, 255).
Proof.
  destruct dst as [[[dr dg] db] da].
  unfold byte_rgba. rewrite !andb_true_iff.
  intros Hsr Hsg Hsb [[[Hdr Hdg] Hdb] Hda].
  unfold blend. rewrite (float_of_byte 255 eq_refl). cbn [Py.bind].
  change (Py.div (byte_float (Z.to_nat 255)) 255) with (Some (255 / 255)%float).
  cbn [Py.bind].
  rewrite (blend_channel_opaque sr dr Hsr Hdr),
          (blend_channel_opaque sg dg Hsg Hdg),
          (blend_channel_opaque sb db Hsb Hdb).
  cbn [Py.bind]. apply is_byte_spec in Hda.
  replace (Z.min 255 (255 + da)) with 255 by lia. reflexivity.
Qed.

(** A colour of alpha 0 leaves the pixel as it is. *)
Lemma blend_clear sr sg sb dst :
  is_byte sr = true -> is_byte sg = true -> is_byte sb = true ->
  byte_rgba dst = true ->
  blend (sr, sg, sb, 0) dst = Some dst.
Proof.
  destruct dst as [[[dr dg] db] da].
  unfold byte_rgba. rewrite !andb_true_iff.
  intros Hsr Hsg Hsb [[[Hdr Hdg] Hdb] Hda].
  unfold blend. rewrite (float_of_byte 0 eq_refl). cbn [Py.bind].
  change (Py.div (byte_float (Z.to_nat 0)) 255) with (Some (0 / 255)%float).
  cbn [Py.bind].
  rewrite (blend_channel_clear sr dr Hsr Hdr),
          (blend_channel_clear sg dg Hsg Hdg),
          (blend_channel_clear sb db Hsb Hdb).
  cbn [Py.bind]. apply is_byte_spec in Hda.
  replace (Z.min 255 (0 + da)) with da by lia. reflexivity.
Qed.

Lemma replace_nth_same {A : Type} (l : list A) k v :
  nth_error l k = Some v -> replace_nth l k v = l.
Proof.
  revert k. induction l as [| a l IH]; intros [| k]; simpl; try discriminate.
  - now intros [= ->].
  - intros H. now rewrite IH.
Qed.

(** A pixel of a well-formed canvas. *)
Lemma pixel_at_well_formed W H pixels x y :
  well_formed W H pixels -> 0 <= x < W -> 0 <= y < H ->
  exists dst, pixel_at pixels x y = Some dst /\ byte_rgba dst = true.
Proof.
  intros [[Hlen Hrows] Hb] Hx Hy.
  rewrite pixel_at_nonneg by lia.
  destruct (nth_error pixels (Z.to_nat y)) as [row |] eqn:Erow;
    [ | apply nth_error_None in Erow; lia ].
  cbn [Py.bind].
  assert (Hrl : Z.of_nat (length row) = W).
  { rewrite Forall_forall in Hrows. apply Hrows. eapply nth_error_In; eauto. }
  destruct (nth_error row (Z.to_nat x)) as [dst |] eqn:Edst;
    [ | apply nth_error_None in Edst; lia ].
  exists dst. split; [ reflexivity | ].
  pose proof (forallb_nth_error _ _ _ _ Hb Erow) as Hrb.
  exact (forallb_nth_error _ _ _ _ Hrb Edst).
Qed.

Lemma put_pixel_clear W H sr sg sb x y pixels :
  well_formed W H pixels ->
  is_byte sr = true -> is_byte sg = true -> is_byte sb = true ->
  - W <= x < W -> - H <= y < H ->
  put_pixel (sr, sg, sb, 0) x y pixels = Some pixels.
Proof.
  intros Hwf Hsr Hsg Hsb Hx Hy.
  assert (Hc : byte_rgba (sr, sg, sb, 0) = true)
    by (unfold byte_rgba; now rewrite Hsr, Hsg, Hsb).
  destruct (put_pixel_total W H _ x y pixels Hwf Hc Hx Hy) as [p' [Hp _]].
  rewrite Hp. f_equal.
  destruct (put_pixel_inv _ _ _ _ _ Hp)
    as (ky & kx & row & dst & px & _ & Hrow & _ & Hdst & Hpx & ->).
  destruct Hwf as [_ Hb].
  pose proof (forallb_nth_error _ _ _ _ Hb Hrow) as Hrb.
  pose proof (forallb_nth_error _ _ _ _ Hrb Hdst) as Hdb.
  rewrite (blend_clear sr sg sb dst Hsr Hsg Hsb Hdb) in Hpx.
  injection Hpx as <-.
  rewrite (replace_nth_same row kx dst Hdst).
  now apply replace_nth_same.
Qed.

Lemma draw_rounded_rect_clear W H pixels x0 y0 x1 y1 r sr sg sb :
  well_formed W H pixels ->
  is_byte sr = true -> is_byte sg = true -> is_byte sb = true ->
  - W <= x0 -> x1 < W -> - H <= y0 -> y1 < H ->
  draw_rounded_rect pixels x0 y0 x1 y1 r (sr, sg, sb, 0) = Some pixels.
Proof.
  intros Hwf Hsr Hsg Hsb Hx0 Hx1 Hy0 Hy1. unfold draw_rounded_rect.
  apply for_each_skip. intros y Hy. apply in_range in Hy.
  apply for_each_skip. intros x Hx. apply in_range in Hx.
  destruct (draw_flag x0 y0 x1 y1 r x y); [ | reflexivity ].
  apply (put_pixel_clear W H); auto; lia.
Qed.

Lemma draw_rounded_rect_opaque W H pixels x0 y0 x1 y1 r sr sg sb :
  well_formed W H pixels ->
  is_byte sr = true -> is_byte sg = true -> is_byte sb = true ->
  0 <= x0 -> x1 < W -> 0 <= y0 -> y1 < H ->
  exists pixels',
    draw_rounded_rect pixels x0 y0 x1 y1 r (sr, sg, sb, 255) = Some pixels'
    /\ forall x y, 0 <= x -> 0 <= y ->
         pixel_at pixels' x y =
         if in_rect x0 y0 x1 y1 x y && draw_flag x0 y0 x1 y1 r x y
         then Some (sr, sg, sb, 255)
         else pixel_at pixels x y.
Proof.
  intros Hwf Hsr Hsg Hsb Hx0 Hx1 Hy0 Hy1.
  assert (Hc : byte_rgba (sr, sg, sb, 255) = true)
    by (unfold byte_rgba; now rewrite Hsr, Hsg, Hsb).
  destruct (Z.lt_ge_cases x1 x0) as [Hex | Hnx].
  { exists pixels. split; [ apply draw_rounded_rect_empty; now left | ].
    intros x y _ _. unfold in_rect.
    replace ((x0 <=? x) && (x <=? x1)) with false by lia. reflexivity. }
  destruct (Z.lt_ge_cases y1 y0) as [Hey | Hny].
  { exists pixels. split; [ apply draw_rounded_rect_empty; now right | ].
    intros x y _ _. unfold in_rect.
    replace ((x0 <=? x) && (x <=? x1) && (y0 <=? y) && (y <=? y1)) with false by lia.
    reflexivity. }
  destruct (draw_rounded_rect_total W H pixels x0 y0 x1 y1 r _ Hwf Hc
              ltac:(lia) Hx1 ltac:(lia) Hy1) as [p' [Hp _]].
  exists p'. split; [ exact Hp | ].
  intros x y Hx Hy.
  rewrite (draw_rounded_rect_effect _ _ _ _ _ _ _ _ Hx0 Hy0 Hp x y Hx Hy).
  destruct (in_rect x0 y0 x1 y1 x y) eqn:Ein; [ | reflexivity ].
  destruct (draw_flag x0 y0 x1 y1 r x y); [ | reflexivity ].
  cbn [andb]. unfold in_rect in Ein.
  rewrite !andb_true_iff, !Z.leb_le in Ein.
  destruct (pixel_at_well_formed W H pixels x y Hwf ltac:(lia) ltac:(lia))
    as [dst [-> Hdb]].
  cbn [Py.bind]. now apply blend_opaque.
Qed.

End BlendEnds.

(** ** The encoder at its edges: pixels it cannot pack, pixels it never
    reads, images without pixels *)

Module PngEdges.
Import Pacing Canvas Png BlendFacts CanvasFacts FillFacts FillEffect PngFacts
  PngRoundTrip Aux RectFacts.

(** A loop whose body raises at one of its indices, whatever the state,
    raises. *)
Lemma for_each_raises {S : Type} (l : list Z) (body : Z -> S -> option S) i :
  In i l -> (forall s, body i s = None) -> forall s, for_each l body s = None.
Proof.
  induction l as [| j l IH]; intros Hin Hb s; [ destruct Hin | ].
  simpl. destruct Hin as [-> | Hin]; [ now rewrite Hb | ].
  destruct (body j s); simpl; [ now apply IH | reflexivity ].
Qed.

Lemma pack_B_none v : is_byte v = false -> pack_B v = None.
Proof. unfold pack_B, is_byte. now intros ->. Qed.

Lemma pack_BBBB_none px : byte_rgba px = false -> pack_BBBB px = None.
Proof.
  destruct px as [[[r g] b] a]. unfold byte_rgba, pack_BBBB. intros H.
  destruct (is_byte r) eqn:Er; [ | now rewrite (pack_B_none r Er) ].
  rewrite (pack_B_byte r Er). cbn [Py.bind].
  destruct (is_byte g) eqn:Eg; [ | now rewrite (pack_B_none g Eg) ].
  rewrite (pack_B_byte g Eg). cbn [Py.bind].
  destruct (is_byte b) eqn:Eb; [ | now rewrite (pack_B_none b Eb) ].
  rewrite (pack_B_byte b Eb). cbn [Py.bind].
  destruct (is_byte a) eqn:Ea; [ discriminate | now rewrite (pack_B_none a Ea) ].
Qed.

(** The body of the inner loop of [create_png] reads [pixels[y][x]]. *)
Lemma pack_pixel_body pixels x y (raw : bytes) :
  (row <- getitem pixels y ;;
   px <- getitem row x ;;
   b <- pack_BBBB px ;;
   Some (raw ++ b))
  = (px <- pixel_at pixels x y ;;
     b <- pack_BBBB px ;;
     Some (raw ++ b)).
Proof.
  unfold pixel_at. now destruct (getitem pixels y).
Qed.

Lemma raw_scanlines_raises W H pixels x y :
  0 <= x < W -> 0 <= y < H -> packable pixels x y = false ->
  raw_scanlines W H pixels = None.
Proof.
  intros Hx Hy Hp. unfold raw_scanlines.
  apply (for_each_raises _ _ y); [ apply in_range; lia | ].
  intros raw.
  apply (for_each_raises _ _ x); [ apply in_range; lia | ].
  intros raw'. rewrite pack_pixel_body. unfold packable in Hp.
  destruct (pixel_at pixels x y) as [px |]; cbn [Py.bind]; [ | reflexivity ].
  now rewrite (pack_BBBB_none px Hp).
Qed.

Lemma raw_scanlines_window W H p1 p2 :
  (forall x y, 0 <= x < W -> 0 <= y < H -> pixel_at p1 x y = pixel_at p2 x y) ->
  raw_scanlines W H p1 = raw_scanlines W H p2.
Proof.
  intros Hw. unfold raw_scanlines.
  apply (for_each_agree (fun _ => True)); [ | trivial | exact I ].
  intros y raw Hy _. apply in_range in Hy.
  apply (for_each_agree (fun _ => True)); [ | trivial | exact I ].
  intros x raw' Hx _. apply in_range in Hx.
  rewrite !pack_pixel_body. now rewrite (Hw x y) by lia.
Qed.

(** Without columns or without rows the scanlines are the filter bytes
    alone. *)
Lemma filter_bytes_loop (l : list Z) (raw : bytes) :
  for_each l (fun _ raw => Some (raw ++ [Byte.x00])) raw
  = Some (raw ++ repeat Byte.x00 (length l)).
Proof.
  revert raw. induction l as [| i l IH]; intros raw; simpl.
  - now rewrite app_nil_r.
  - rewrite IH. now rewrite <- app_assoc.
Qed.

Lemma raw_scanlines_no_pixels W H pixels :
  W = 0 \/ H = 0 -> 0 <= H ->
  raw_scanlines W H pixels = Some (repeat Byte.x00 (Z.to_nat H)).
Proof.
  intros Hz HH. unfold raw_scanlines. destruct Hz as [-> | ->].
  - rewrite (range_empty 0 0) by lia. cbn [for_each].
    rewrite filter_bytes_loop, length_range. cbn [app].
    now rewrite Z.sub_0_r.
  - rewrite (range_empty 0 0) by lia. reflexivity.
Qed.

(** *** The file the encoder writes, and reading it back *)

Lemma create_png_of_raw compress W H pixels raw :
  0 <= W < 2 ^ 32 -> 0 <= H < 2 ^ 32 ->
  raw_scanlines W H pixels = Some raw ->
  Z.of_nat (length (compress raw)) < 2 ^ 32 ->
  create_png compress W H pixels
  = Some (sig ++ framed tag_IHDR (ihdr_payload W H)
              ++ framed tag_IDAT (compress raw)
              ++ framed tag_IEND []).
Proof.
  intros HW HH Hraw Hlen. unfold create_png.
  rewrite !pack_I_be32 by lia. cbn [Py.bind].
  rewrite Hraw. cbn [Py.bind].
  fold (ihdr_payload W H).
  rewrite (png_chunk_framed tag_IHDR (ihdr_payload W H)) by reflexivity.
  cbn [Py.bind].
  rewrite (png_chunk_framed tag_IDAT) by lia. cbn [Py.bind].
  rewrite (png_chunk_framed tag_IEND []) by reflexivity.
  reflexivity.
Qed.

Lemma decode_png_framed compress decompress W H pixels :
  (forall d, decompress (compress d) = Some d) ->
  well_formed W H pixels ->
  0 < W < 2 ^ 31 -> 0 < H < 2 ^ 31 ->
  Z.of_nat (length (compress (scanlines pixels))) < 2 ^ 31 ->
  decode_png decompress
    (sig ++ framed tag_IHDR (ihdr_payload W H)
         ++ framed tag_IDAT (compress (scanlines pixels))
         ++ framed tag_IEND [])
  = Some (W, H, pixels).
Proof.
  intros Hz Hwf HW HH Hlen.
  assert (H31 : 2 ^ 31 < 2 ^ 32) by reflexivity.
  unfold decode_png.
  rewrite (take_app 8 sig _ eq_refl). cbn [Py.bind].
  rewrite bytes_eqb_refl.
  rewrite (read_chunk_framed tag_IHDR (ihdr_payload W H) _ eq_refl eq_refl).
  cbn [Py.bind]. rewrite bytes_eqb_refl.
  unfold ihdr_payload.
  rewrite unpack_I_be32 by lia. cbn [Py.bind].
  rewrite unpack_I_be32 by lia. cbn [Py.bind].
  rewrite bytes_eqb_refl.
  replace (0 <? W) with true by lia. replace (W <? 2 ^ 31) with true by lia.
  replace (0 <? H) with true by lia. replace (H <? 2 ^ 31) with true by lia.
  cbn [andb].
  rewrite (read_idat_ok _ Hlen). cbn [Py.bind].
  rewrite Hz. cbn [Py.bind].
  destruct Hwf as [[Hrows Hcols] Hb].
  replace (Z.to_nat H) with (length pixels) by lia.
  rewrite (read_scanlines_ok (Z.to_nat W) pixels); [ reflexivity | | exact Hb ].
  eapply Forall_impl; [ | exact Hcols ]. simpl. intros row Hrow. lia.
Qed.

(** A decoder rejects a header that announces no columns or no rows. *)
Lemma decode_png_no_pixels decompress W H rest :
  W = 0 \/ H = 0 -> 0 <= W < 2 ^ 32 -> 0 <= H < 2 ^ 32 ->
  decode_png decompress (sig ++ framed tag_IHDR (ihdr_payload W H) ++ rest) = None.
Proof.
  intros Hz HW HH. unfold decode_png.
  rewrite (take_app 8 sig _ eq_refl). cbn [Py.bind].
  rewrite bytes_eqb_refl.
  rewrite (read_chunk_framed tag_IHDR (ihdr_payload W H) _ eq_refl eq_refl).
  cbn [Py.bind]. rewrite bytes_eqb_refl.
  unfold ihdr_payload.
  rewrite unpack_I_be32 by lia. cbn [Py.bind].
  rewrite unpack_I_be32 by lia. cbn [Py.bind].
  rewrite bytes_eqb_refl. cbn [andb].
  destruct Hz as [-> | ->].
  - reflexivity.
  - change (0 <? 0) with false. now rewrite andb_false_r.
Qed.

End PngEdges.

(** ** The bars never go out of the canvas or out of the byte range *)

Module BarsFacts.
Import FloatPred FloatFacts Interval Pacing PacingFacts Canvas Png Bars
  ByteCheck BlendFacts CanvasFacts FillFacts.

Local Open Scope float_scope.

Lemma clamp_within x : within 0 100 (clamp_pct x).
Proof.
  destruct (clamp_pct_range x) as [Hp Hle].
  unfold within, fle. repeat split; try reflexivity.
  - apply (plus_below_fin _ 100); auto. reflexivity.
  - now apply plus_zero_le.
  - exact Hle.
Qed.

Lemma float_of_bar_h : Py.float_of_int BAR_H = Some 11.
Proof. vm_compute. reflexivity. Qed.

(** The fill of a bar is 2 to 11 pixels high, whatever the input. *)
Lemma fill_height_range rpct :
  exists h, fill_height rpct = Some h /\ (2 <= h <= 11)%Z.
Proof.
  unfold fill_height. rewrite float_of_bar_h. cbn [Py.bind].
  fold (clamp_pct rpct). unfold Py.div.
  change (100 =? 0) with false. cbv iota. cbn [Py.bind].
  assert (Hm : within (11 * 0) (11 * 100) (11 * clamp_pct rpct)).
  { apply within_mul_l; [ apply clamp_within | reflexivity | reflexivity ]. }
  assert (Hd : within (11 * 0 / 100) (11 * 100 / 100) (11 * clamp_pct rpct / 100)).
  { apply within_div; [ exact Hm | reflexivity | reflexivity ]. }
  destruct (within_int _ _ _ 0%Z 11%Z Hd) as [i [Hi Hr]];
    [ vm_compute; reflexivity | vm_compute; reflexivity | ].
  rewrite Hi. cbn [Py.bind]. exists (Z.max 2 i). split; [ reflexivity | lia ].
Qed.

(** *** The floor of a float, by comparisons *)

(** Checked on the floats of the integers 0 to 255: each holds its
    integer exactly. *)
Lemma byte_floats_hold_true :
  forallb (fun n => RoundDefs.holds_int (Prim2SF (byte_float n)) (Z.of_nat n))
    (seq 0 256) = true.
Proof. vm_compute. reflexivity. Qed.

(** The truncation [i] of a float [x >= 0] is its floor:
    [float(i) <= x < float(i + 1)]. *)
Lemma int_floor x i :
  fin x -> Py.int x = Some i -> (0 <= i < 255)%Z ->
  exists fi fi1,
    Py.float_of_int i = Some fi /\ Py.float_of_int (i + 1) = Some fi1
    /\ (fi <=? x) = true /\ (x <? fi1) = true.
Proof.
  intros Fx Hi Hr.
  exists (byte_float (Z.to_nat i)), (byte_float (Z.to_nat (i + 1))).
  split; [ apply float_of_byte; apply is_byte_spec; lia | ].
  split; [ apply float_of_byte; apply is_byte_spec; lia | ].
  pose proof byte_floats_hold_true as H. rewrite forallb_forall in H.
  assert (H0 := H (Z.to_nat i) ltac:(apply in_seq; lia)).
  assert (H1 := H (Z.to_nat (i + 1)) ltac:(apply in_seq; lia)).
  cbv beta in H0, H1. rewrite Z2Nat.id in H0, H1 by lia.
  unfold Py.int, fin in *. rewrite leb_spec, ltb_spec.
  destruct (ArithFacts.trunc_vs_int _ _ i i Fx (Prim2SF_valid x) H0 Hi) as [Hle _].
  destruct (ArithFacts.trunc_vs_int _ _ (i + 1)%Z i Fx (Prim2SF_valid x) H1 Hi)
    as [_ Hlt].
  split; [ apply Hle; lia | apply Hlt; lia ].
Qed.

(** The fill height is [max(2, i)] for the floor [i] of the float
    [11 * clamp / 100], a number of 0 to 11. *)
Lemma fill_height_floor rpct :
  exists i fi fi1,
    fill_height rpct = Some (Z.max 2 i) /\ (0 <= i <= 11)%Z
    /\ Py.float_of_int i = Some fi /\ Py.float_of_int (i + 1) = Some fi1
    /\ fle fi (11 * clamp_pct rpct / 100)
    /\ flt (11 * clamp_pct rpct / 100) fi1.
Proof.
  unfold fill_height. rewrite float_of_bar_h. cbn [Py.bind].
  fold (clamp_pct rpct). unfold Py.div.
  change (100 =? 0) with false. cbv iota. cbn [Py.bind].
  assert (Hm : within (11 * 0) (11 * 100) (11 * clamp_pct rpct)).
  { apply within_mul_l; [ apply clamp_within | reflexivity | reflexivity ]. }
  assert (Hd : within (11 * 0 / 100) (11 * 100 / 100) (11 * clamp_pct rpct / 100)).
  { apply within_div; [ exact Hm | reflexivity | reflexivity ]. }
  destruct (within_int _ _ _ 0%Z 11%Z Hd) as [i [Hi Hr]];
    [ vm_compute; reflexivity | vm_compute; reflexivity | ].
  destruct Hd as (_ & _ & Fq & _ & _).
  destruct (int_floor _ i Fq Hi ltac:(lia)) as (fi & fi1 & Ei & Ei1 & Hle & Hlt).
  exists i, fi, fi1. rewrite Hi. cbn [Py.bind].
  repeat split; auto; lia.
Qed.

(** *** The colour ramp *)

(** The fractional part of [h * 6] that [hsv_to_rgb] computes. *)
Lemma frac_within h6 i :
  within 0 2 h6 -> Py.int h6 = Some i ->
  exists fi,
    Py.float_of_int i = Some fi /\ within 0 1 (h6 - fi)
    /\ (i = 0 \/ i = 1 \/ i = 2)%Z.
Proof.
  intros Hw Hi.
  destruct (within_int 0 2 h6 0%Z 2%Z Hw) as [i' [Hi' Hr]];
    [ vm_compute; reflexivity | vm_compute; reflexivity | ].
  rewrite Hi in Hi'. injection Hi' as <-.
  destruct Hw as (_ & _ & Fh & Hlo & Hhi). unfold fle in *.
  assert (Hc : (i = 0 \/ i = 1 \/ i = 2)%Z) by lia.
  destruct Hc as [-> | [-> | ->]].
  - exists 0. split; [ vm_compute; reflexivity | ]. split; [ | auto ].
    rewrite (sub_zero_r h6 Fh).
    assert (Hle : (h6 <=? 1) = true).
    { apply (int_lt_le h6 1 0 1); auto; reflexivity. }
    unfold within, fle. repeat split; auto; reflexivity.
  - exists 1. split; [ vm_compute; reflexivity | ]. split; [ | auto ].
    assert (H1 : (1 <=? h6) = true) by (apply (int_ge_one h6 1); auto; lia).
    assert (Hw1 : within 1 2 h6)
      by (unfold within, fle; repeat split; auto; reflexivity).
    pose proof (within_sub_l 1 2 h6 1 Hw1 eq_refl eq_refl) as Hs.
    apply (within_weaken _ _ 0 1 _ Hs); reflexivity.
  - exists 2. split; [ vm_compute; reflexivity | ]. split; [ | auto ].
    assert (H2 : (2 <=? h6) = true) by (apply (int_ge_two h6 2); auto; lia).
    assert (Hw2 : within 2 2 h6)
      by (unfold within, fle; repeat split; auto; reflexivity).
    pose proof (within_sub_l 2 2 h6 2 Hw2 eq_refl eq_refl) as Hs.
    apply (within_weaken _ _ 0 1 _ Hs); reflexivity.
Qed.

Lemma channel_v : Py.int (0.88 * 255) = Some 224%Z.
Proof. vm_compute. reflexivity. Qed.

Lemma channel_p : Py.int (0.88 * (1 - 0.78) * 255) = Some 49%Z.
Proof. vm_compute. reflexivity. Qed.

Lemma channel_q f :
  within 0 1 f ->
  exists n, Py.int (0.88 * (1 - 0.78 * f) * 255) = Some n /\ (49 <= n <= 224)%Z.
Proof.
  intros Hf.
  assert (H1 : within (0.78 * 0) (0.78 * 1) (0.78 * f))
    by (apply within_mul_l; [ exact Hf | reflexivity | reflexivity ]).
  assert (H2 : within (1 - 0.78 * 1) (1 - 0.78 * 0) (1 - 0.78 * f))
    by (apply within_sub_r; [ exact H1 | reflexivity | reflexivity ]).
  assert (H3 : within (0.88 * (1 - 0.78 * 1)) (0.88 * (1 - 0.78 * 0))
                 (0.88 * (1 - 0.78 * f)))
    by (apply within_mul_l; [ exact H2 | reflexivity | reflexivity ]).
  assert (H4 : within (0.88 * (1 - 0.78 * 1) * 255) (0.88 * (1 - 0.78 * 0) * 255)
                 (0.88 * (1 - 0.78 * f) * 255))
    by (apply within_mul_r; [ exact H3 | reflexivity | reflexivity ]).
  apply (within_int _ _ _ 49%Z 224%Z H4); vm_compute; reflexivity.
Qed.

Lemma channel_t f :
  within 0 1 f ->
  exists n,
    Py.int (0.88 * (1 - 0.78 * (1 - f)) * 255) = Some n /\ (49 <= n <= 224)%Z.
Proof.
  intros Hf.
  assert (H0 : within (1 - 1) (1 - 0) (1 - f))
    by (apply within_sub_r; [ exact Hf | reflexivity | reflexivity ]).
  assert (H1 : within 0 1 (1 - f))
    by (apply (within_weaken _ _ 0 1 _ H0); reflexivity).
  now apply channel_q.
Qed.

(** Every channel of the colour of a score in [0, 1] lies between 49 and
    224. *)
Lemma score_to_rgb_range s :
  (0 <=? s) = true -> (s <=? 1) = true ->
  exists r g b,
    score_to_rgb s = Some (r, g, b, 230%Z)
    /\ (49 <= r <= 224)%Z /\ (49 <= g <= 224)%Z /\ (49 <= b <= 224)%Z.
Proof.
  intros H0 H1.
  destruct (zero_le_cases s H0) as [-> | Hp].
  { exists 224%Z, 49%Z, 49%Z. split; [ vm_compute; reflexivity | lia ]. }
  assert (Hs : within 0 1 s).
  { unfold within, fle. repeat split; auto; try reflexivity.
    apply (plus_below_fin _ 1); auto. reflexivity. }
  unfold score_to_rgb.
  assert (Hh : within (0 * (120 / 360)) (1 * (120 / 360)) (s * (120 / 360)))
    by (apply within_mul_r; [ exact Hs | reflexivity | reflexivity ]).
  set (h := s * (120 / 360)) in *.
  assert (H6 : within 0 2 (h * 6))
    by (apply (within_mul_r _ _ _ 6 Hh); reflexivity).
  destruct (within_int _ _ _ 0%Z 2%Z H6) as [i [Hi _]];
    [ vm_compute; reflexivity | vm_compute; reflexivity | ].
  destruct (frac_within (h * 6) i H6 Hi) as (fi & Hfi & Hf & Hc).
  destruct (channel_q _ Hf) as (nq & Hq & Rq).
  destruct (channel_t _ Hf) as (nt & Ht & Rt).
  unfold hsv_to_rgb. change (0.78 =? 0) with false. cbv iota.
  rewrite Hi. cbn [Py.bind]. rewrite Hfi. cbn [Py.bind]. cbv zeta.
  destruct Hc as [-> | [-> | ->]].
  - change ((0 mod 6 =? 0)%Z) with true. cbv iota. cbn [Py.bind].
    rewrite channel_v, Ht, channel_p. cbn [Py.bind].
    exists 224%Z, nt, 49%Z. split; [ reflexivity | lia ].
  - change ((1 mod 6 =? 0)%Z) with false. change ((1 mod 6 =? 1)%Z) with true.
    cbv iota. cbn [Py.bind].
    rewrite Hq, channel_v, channel_p. cbn [Py.bind].
    exists nq, 224%Z, 49%Z. split; [ reflexivity | lia ].
  - change ((2 mod 6 =? 0)%Z) with false. change ((2 mod 6 =? 1)%Z) with false.
    change ((2 mod 6 =? 2)%Z) with true.
    cbv iota. cbn [Py.bind].
    rewrite channel_p, channel_v, Ht. cbn [Py.bind].
    exists 49%Z, 224%Z, nt. split; [ reflexivity | lia ].
Qed.

(** The colour of a bar is a byte colour, whatever the inputs. *)
Lemma bar_color_bytes rpct tpct :
  exists c, bar_color rpct tpct = Some c /\ byte_rgba c = true.
Proof.
  unfold bar_color. rewrite pace_score_rules. cbn [Py.bind].
  destruct (clamp_pct_range rpct) as [Hrp Hr].
  destruct (clamp_pct_range tpct) as [Htp Ht].
  destruct (pace_rules_range _ _ Hrp Hr Htp Ht) as [S0 S1].
  destruct (score_to_rgb_range _ S0 S1) as (r & g & b & -> & Rr & Rg & Rb).
  exists (r, g, b, 230%Z). split; [ reflexivity | ].
  unfold byte_rgba, is_byte.
  rewrite !andb_true_iff, !Z.leb_le. lia.
Qed.

(** *** The bars stay on the canvas *)

Lemma draw_bar_total W b pixels x :
  well_formed W ICON_H pixels -> (0 <= x)%Z -> (x + BAR_W <= W)%Z ->
  exists pixels',
    draw_bar b (pixels, x) = Some (pixels', (x + BAR_W + GAP)%Z)
    /\ well_formed W ICON_H pixels'.
Proof.
  intros Hwf Hx Hxw. unfold draw_bar, draw_rect, track_rect, fill_rect.
  unfold BAR_W, ICON_H in *. change y_top with 5%Z. unfold BAR_H.
  destruct (draw_rounded_rect_total W 22 pixels x 5 (x + 3 - 1) (5 + 11 - 1)
              CORNER_R (140, 140, 140, 45)%Z Hwf eq_refl
              ltac:(lia) ltac:(lia) ltac:(lia) ltac:(lia)) as (p1 & -> & Hwf1).
  cbn [Py.bind].
  destruct (fill_height_range (get (remaining_pct b) 100)) as (h & -> & Hh).
  cbn [Py.bind].
  destruct (bar_color_bytes (get (remaining_pct b) 100)
              (get (time_remaining_pct b) 100)) as (c & -> & Hc).
  cbn [Py.bind].
  destruct (draw_rounded_rect_total W 22 p1 x (5 + 11 - h) (x + 3 - 1) (5 + 11 - 1)
              CORNER_R c Hwf1 Hc
              ltac:(lia) ltac:(lia) ltac:(lia) ltac:(lia)) as (p2 & -> & Hwf2).
  cbn [Py.bind]. exists p2. split; [ reflexivity | exact Hwf2 ].
Qed.

Lemma draw_bars_total W bars :
  forall pixels x,
    well_formed W ICON_H pixels -> (0 <= x)%Z ->
    (x + 5 * Z.of_nat (length bars) - 2 <= W)%Z ->
    exists pixels',
      draw_bars bars (pixels, x)
      = Some (pixels', (x + 5 * Z.of_nat (length bars))%Z)
      /\ well_formed W ICON_H pixels'.
Proof.
  induction bars as [| b bars IH]; intros pixels x Hwf Hx Hw.
  - exists pixels. split; [ | exact Hwf ].
    cbn [draw_bars length]. change (Z.of_nat 0) with 0%Z.
    now rewrite Z.mul_0_r, Z.add_0_r.
  - cbn [draw_bars]. cbn [length] in Hw |- *. rewrite Nat2Z.inj_succ in Hw |- *.
    destruct (draw_bar_total W b pixels x Hwf Hx) as (p1 & -> & Hwf1).
    { unfold BAR_W. lia. }
    cbn [Py.bind]. unfold BAR_W, GAP.
    assert (Ha : (0 <= x + 3 + 2)%Z) by lia.
    assert (Hb : (x + 3 + 2 + 5 * Z.of_nat (length bars) - 2 <= W)%Z) by lia.
    destruct (IH p1 (x + 3 + 2)%Z Hwf1 Ha Hb) as (p2 & -> & Hwf2).
    exists p2. split; [ | exact Hwf2 ].
    assert (E : (x + 3 + 2 + 5 * Z.of_nat (length bars)
                 = x + 5 * Z.succ (Z.of_nat (length bars)))%Z) by lia.
    now rewrite E.
Qed.

Lemma image_width_bars n : image_width n = (5 * n)%Z.
Proof. unfold image_width, PAD_X, BAR_W, GAP. lia. Qed.

(** The renderer never raises: for every list of bars it returns a
    well-formed canvas, 22 rows of 5 pixels per bar. *)
Lemma generate_bars_canvas_total bars :
  exists pixels,
    generate_bars_canvas bars
    = Some ((5 * Z.of_nat (length bars))%Z, 22%Z, pixels)
    /\ well_formed (5 * Z.of_nat (length bars)) 22 pixels.
Proof.
  unfold generate_bars_canvas. rewrite image_width_bars.
  set (W := (5 * Z.of_nat (length bars))%Z).
  assert (Hwf : well_formed W ICON_H (blank W ICON_H)).
  { split; [ apply blank_dims; unfold W, ICON_H; lia | apply blank_bytes ]. }
  destruct (draw_bars_total W bars (blank W ICON_H) PAD_X Hwf)
    as (p & -> & Hp); [ unfold PAD_X; lia | unfold PAD_X, W; lia | ].
  cbn [Py.bind]. exists p. split; [ reflexivity | exact Hp ].
Qed.

End BarsFacts.

(** ** Every pixel of the rendered bars *)

Module BarsEffect.
Import FloatPred Pacing Canvas Png Bars Aux BlendFacts CanvasFacts FillFacts
  FillEffect RectFacts BarsFacts.

(** A fill with corner radius 1 of a rectangle inside the canvas paints
    every pixel of the rectangle but the four corners. *)
Lemma rounded_fill_effect W H pixels x0 y0 x1 y1 color :
  well_formed W H pixels -> byte_rgba color = true ->
  0 <= x0 -> x0 < x1 -> x1 < W -> 0 <= y0 -> y0 < y1 -> y1 < H ->
  exists pixels',
    draw_rounded_rect pixels x0 y0 x1 y1 1 color = Some pixels'
    /\ well_formed W H pixels'
    /\ forall px py, 0 <= px -> 0 <= py ->
         pixel_at pixels' px py =
         (dst <- pixel_at pixels px py ;; paint (x0, y0, x1, y1) color px py dst).
Proof.
  intros Hwf Hc Hx0 Hx Hx1 Hy0 Hy Hy1.
  destruct (draw_rounded_rect_total W H pixels x0 y0 x1 y1 1 color Hwf Hc
              ltac:(lia) Hx1 ltac:(lia) Hy1) as (p' & Hp & Hwf').
  exists p'. split; [ exact Hp | ]. split; [ exact Hwf' | ].
  intros px py Hpx Hpy.
  rewrite (draw_rounded_rect_effect _ _ _ _ _ _ _ _ Hx0 Hy0 Hp px py Hpx Hpy).
  unfold paint, in_rounded.
  destruct (in_rect x0 y0 x1 y1 px py) eqn:Ein; cbn [andb].
  - rewrite (draw_flag_radius_1 _ _ _ _ _ _ Hx Hy Ein).
    destruct (negb (is_corner x0 y0 x1 y1 px py));
      destruct (pixel_at pixels px py); reflexivity.
  - destruct (pixel_at pixels px py); reflexivity.
Qed.

(** One bar: the track, then the fill over its bottom rows. *)
Lemma draw_bar_effect W b pixels x :
  well_formed W ICON_H pixels -> 0 <= x -> x + BAR_W <= W ->
  exists h color pixels',
    fill_height (get (remaining_pct b) 100) = Some h /\ 2 <= h <= 11
    /\ bar_color (get (remaining_pct b) 100) (get (time_remaining_pct b) 100)
        = Some color
    /\ draw_bar b (pixels, x) = Some (pixels', x + BAR_W + GAP)
    /\ well_formed W ICON_H pixels'
    /\ forall px py, 0 <= px -> 0 <= py ->
         pixel_at pixels' px py =
         (dst <- pixel_at pixels px py ;; bar_pixel x h color px py dst).
Proof.
  intros Hwf Hx Hxw.
  destruct (fill_height_range (get (remaining_pct b) 100)) as (h & Eh & Hh).
  destruct (bar_color_bytes (get (remaining_pct b) 100)
              (get (time_remaining_pct b) 100)) as (c & Ec & Hc).
  unfold BAR_W, ICON_H in *.
  destruct (rounded_fill_effect W 22 pixels x 5 (x + 3 - 1) (5 + 11 - 1) track_color
              Hwf eq_refl ltac:(lia) ltac:(lia) ltac:(lia) ltac:(lia) ltac:(lia)
              ltac:(lia)) as (p1 & E1 & Hwf1 & P1).
  destruct (rounded_fill_effect W 22 p1 x (5 + 11 - h) (x + 3 - 1) (5 + 11 - 1) c
              Hwf1 Hc ltac:(lia) ltac:(lia) ltac:(lia) ltac:(lia) ltac:(lia)
              ltac:(lia)) as (p2 & E2 & Hwf2 & P2).
  exists h, c, p2. split; [ exact Eh | ]. split; [ exact Hh | ].
  split; [ exact Ec | ]. split; [ | split; [ exact Hwf2 | ] ].
  - unfold draw_bar, draw_rect, track_rect, fill_rect.
    change y_top with 5. unfold BAR_W, BAR_H. change CORNER_R with 1.
    change (140, 140, 140, 45) with track_color.
    rewrite E1. cbn [Py.bind]. rewrite Eh. cbn [Py.bind].
    rewrite Ec. cbn [Py.bind]. rewrite E2. reflexivity.
  - intros px py Hpx Hpy. rewrite (P2 px py Hpx Hpy), (P1 px py Hpx Hpy).
    unfold bar_pixel. change y_top with 5. unfold BAR_W, BAR_H.
    destruct (pixel_at pixels px py) as [dst |]; cbn [Py.bind]; reflexivity.
Qed.

(** The bars one after the other. *)
Lemma draw_bars_effect W bars :
  forall pixels x,
    well_formed W ICON_H pixels -> 0 <= x ->
    x + 5 * Z.of_nat (length bars) - 2 <= W ->
    exists pixels',
      draw_bars bars (pixels, x) = Some (pixels', x + 5 * Z.of_nat (length bars))
      /\ well_formed W ICON_H pixels'
      /\ forall px py, 0 <= px -> 0 <= py ->
           pixel_at pixels' px py =
           (dst <- pixel_at pixels px py ;; bars_pixel bars x px py dst).
Proof.
  induction bars as [| b bars IH]; intros pixels x Hwf Hx Hw.
  - exists pixels. split; [ | split; [ exact Hwf | ] ].
    + cbn [draw_bars length]. change (Z.of_nat 0) with 0.
      now rewrite Z.mul_0_r, Z.add_0_r.
    + intros px py _ _. cbn [bars_pixel].
      destruct (pixel_at pixels px py); reflexivity.
  - cbn [length] in Hw |- *. rewrite Nat2Z.inj_succ in Hw |- *.
    destruct (draw_bar_effect W b pixels x Hwf Hx ltac:(unfold BAR_W; lia))
      as (h & c & p1 & Eh & Hh & Ec & E1 & Hwf1 & P1).
    assert (Ha : 0 <= x + BAR_W + GAP) by (unfold BAR_W, GAP; lia).
    assert (Hb : x + BAR_W + GAP + 5 * Z.of_nat (length bars) - 2 <= W)
      by (unfold BAR_W, GAP; lia).
    destruct (IH p1 (x + BAR_W + GAP) Hwf1 Ha Hb) as (p2 & E2 & Hwf2 & P2).
    exists p2. split; [ | split; [ exact Hwf2 | ] ].
    + cbn [draw_bars]. rewrite E1. cbn [Py.bind]. rewrite E2.
      assert (E : x + BAR_W + GAP + 5 * Z.of_nat (length bars)
                  = x + 5 * Z.succ (Z.of_nat (length bars)))
        by (unfold BAR_W, GAP; lia).
      now rewrite E.
    + intros px py Hpx Hpy. rewrite (P2 px py Hpx Hpy), (P1 px py Hpx Hpy).
      cbn [bars_pixel]. cbv zeta. rewrite Eh, Ec. cbn [Py.bind].
      destruct (pixel_at pixels px py) as [dst |]; cbn [Py.bind]; [ | reflexivity ].
      destruct (bar_pixel x h c px py dst); reflexivity.
Qed.

Lemma pixel_at_blank W H px py :
  0 <= px < W -> 0 <= py < H -> pixel_at (blank W H) px py = Some (0, 0, 0, 0).
Proof.
  intros Hpx Hpy. rewrite pixel_at_nonneg by lia. unfold blank.
  rewrite nth_error_map.
  destruct (nth_error (range 0 H) (Z.to_nat py)) as [y |] eqn:Ey.
  - cbn [option_map Py.bind]. rewrite nth_error_map.
    destruct (nth_error (range 0 W) (Z.to_nat px)) as [x |] eqn:Ex;
      [ reflexivity | ].
    apply nth_error_None in Ex. rewrite length_range in Ex. lia.
  - apply nth_error_None in Ey. rewrite length_range in Ey. lia.
Qed.

(** The renderer never raises, and every pixel of its canvas is the
    bars painted over the transparent pixel. *)
Lemma generate_bars_canvas_spec bars :
  exists pixels,
    generate_bars_canvas bars = Some (5 * Z.of_nat (length bars), 22, pixels)
    /\ well_formed (5 * Z.of_nat (length bars)) 22 pixels
    /\ forall px py, 0 <= px < 5 * Z.of_nat (length bars) -> 0 <= py < 22 ->
         pixel_at pixels px py = bars_pixel bars PAD_X px py (0, 0, 0, 0).
Proof.
  unfold generate_bars_canvas. rewrite image_width_bars.
  set (W := 5 * Z.of_nat (length bars)).
  assert (Hwf : well_formed W ICON_H (blank W ICON_H)).
  { split; [ apply blank_dims; unfold W, ICON_H; lia | apply blank_bytes ]. }
  destruct (draw_bars_effect W bars (blank W ICON_H) PAD_X Hwf)
    as (p & -> & Hp & P); [ unfold PAD_X; lia | unfold PAD_X, W; lia | ].
  cbn [Py.bind]. exists p. split; [ reflexivity | ]. split; [ exact Hp | ].
  intros px py Hpx Hpy. rewrite (P px py ltac:(lia) ltac:(lia)).
  now rewrite (pixel_at_blank W ICON_H px py Hpx Hpy).
Qed.

End BarsEffect.

(** ** The clock and the derived percentage never leave [0, 100] *)

Module UsageFacts.
Import FloatPred FloatOrder FloatFacts RoundFacts ArithFacts Interval Pacing
  PacingFacts Clock Usage BarsFacts.

Local Open Scope float_scope.





(** *** The percentage derived from [used] and [limit] *)







End UsageFacts.

(** ** Claims about the pacing engine *)

Module PacingClaims.
Import FloatPred FloatFacts Pacing PacingFacts PacingMono.

Local Open Scope float_scope.

(** C1: [pace_score] first clamps both inputs to [0,100] (the clamp returns
    its argument when that lies strictly inside, and the bound the argument
    is beyond otherwise) and then applies the four rules in priority order:
    clamped capacity at most 3 gives 0.0; else at least 92 gives 1.0; else
    clamped time at most 5 gives [min(1.0, r/35.0)]; else
    [min(1.0, max(0.0, (r / max(t, 0.1)) / 1.3))].  In particular
    [pace_score(2, 50) = 0.0], [pace_score(95, 10) = 1.0] and
    [pace_score(50, 50) = min(1.0, (50/50)/1.3)]. *)
Theorem pace_score_priority_rules :
  (forall x, fle 0 (clamp_pct x) /\ fle (clamp_pct x) 100)
  /\ (forall x,
        (clamp_pct x = x /\ (0 <? x) = true /\ (x <? 100) = true)
        \/ (clamp_pct x = 0 /\ (0 <? x) = false /\ (x <? 100) = true)
        \/ (clamp_pct x = 100 /\ (x <? 100) = false))
  /\ (forall r t, pace_score r t = Some (pace_rules (clamp_pct r) (clamp_pct t)))
  /\ pace_score 2 50 = Some 0
  /\ pace_score 95 10 = Some 1
  /\ pace_score 50 50 = Some (fmin 1 (50 / 50 / 1.3)).
Proof.
  split; [ | split; [ | split; [ | repeat split ] ] ].
  - intros x. destruct (clamp_pct_range x) as [Hp Hle].
    split; [ now apply plus_zero_le | exact Hle ].
  - exact clamp_pct_cases.
  - exact pace_score_rules.
Qed.

(** C6: for all inputs, far out of range ones such as [r = -50] or
    [t = 500] included, [pace_score(r, t)] returns a number of the closed
    interval [0,1]; both inputs are clamped to [0,100] before use. *)
Theorem pace_score_unit_interval :
  (forall r t,
      fle 0 (clamp_pct r) /\ fle (clamp_pct r) 100
      /\ fle 0 (clamp_pct t) /\ fle (clamp_pct t) 100
      /\ exists s, pace_score r t = Some s /\ fle 0 s /\ fle s 1)
  /\ pace_score (-50) 500 = Some 0
  /\ pace_score 500 (-50) = Some 1
  /\ pace_score 50 500 = Some (0.5 / 1.3).
Proof.
  split; [ | repeat split ].
  intros r t.
  destruct (clamp_pct_range r) as [Hrp Hr]. destruct (clamp_pct_range t) as [Htp Ht].
  split; [ now apply plus_zero_le | ]. split; [ exact Hr | ].
  split; [ now apply plus_zero_le | ]. split; [ exact Ht | ].
  exists (pace_rules (clamp_pct r) (clamp_pct t)).
  split; [ apply pace_score_rules | ].
  now apply pace_rules_range.
Qed.

(** C10: for every fixed [time_remaining_pct], [pace_score] is monotone
    nondecreasing in [remaining_pct]: for [r1 <= r2] both calls return and
    the score at [r1] is at most the score at [r2], across the rule
    boundaries at 3 and 92 as well. *)
Theorem pace_score_monotone t r1 r2 :
  fle r1 r2 ->
  exists s1 s2,
    pace_score r1 t = Some s1 /\ pace_score r2 t = Some s2 /\ fle s1 s2.
Proof. apply pace_score_mono. Qed.

Lemma pace_score_monotone_witness :
  fle 2.5 93
  /\ exists s1 s2,
       pace_score 2.5 50 = Some s1 /\ pace_score 93 50 = Some s2 /\ fle s1 s2.
Proof.
  split; [ reflexivity | ].
  apply (pace_score_monotone 50 2.5 93). reflexivity.
Defined.

End PacingClaims.

(** ** Claims about the canvas and the encoder *)

Module CanvasClaims.
Import Pacing Canvas Png BlendFacts CanvasFacts FillFacts FillEffect PngFacts PngRoundTrip.

Lemma blend_formula color dst out :
  blend color dst = Some out ->
  exists fsa,
    Py.float_of_int (alpha color) = Some fsa
    /\ over (red color) (red dst) (fsa / 255)%float (red out)
    /\ over (green color) (green dst) (fsa / 255)%float (green out)
    /\ over (blue color) (blue dst) (fsa / 255)%float (blue out)
    /\ alpha out = Z.min 255 (alpha color + alpha dst).
Proof.
  destruct color as [[[sr sg] sb] sa]. destruct dst as [[[dr dg] db] da].
  unfold blend, Py.div.
  destruct (Py.float_of_int sa) as [fsa |] eqn:Ea; cbn [Py.bind]; [ | discriminate ].
  change (255 =? 0)%float with false. cbn [Py.bind].
  assert (Hch : forall s d v, blend_channel s d (fsa / 255)%float = Some v ->
                  over s d (fsa / 255)%float v).
  { intros s d v. unfold blend_channel, over.
    destruct (Py.float_of_int s) as [fs |]; cbn [Py.bind]; [ | discriminate ].
    destruct (Py.float_of_int d) as [fd |]; cbn [Py.bind]; [ | discriminate ].
    intros Hv. now exists fs, fd. }
  destruct (blend_channel sr dr _) as [cr |] eqn:Er; cbn [Py.bind]; [ | discriminate ].
  destruct (blend_channel sg dg _) as [cg |] eqn:Eg; cbn [Py.bind]; [ | discriminate ].
  destruct (blend_channel sb db _) as [cb |] eqn:Eb; cbn [Py.bind]; [ | discriminate ].
  intros [= <-]. exists fsa. simpl. auto 10.
Qed.




(** C5: after a fill, every pixel of the rectangle that passes the corner
    test holds the colour blended over its previous value and every other
    pixel is unchanged; the blend computes each of R, G, B as
    [src * a + dst * (1 - a)] with [a] the source alpha divided by 255
    (in floats, truncated to an integer) and the alpha as the saturating
    sum [min(255, src_a + dst_a)], which is not the canonical "over"
    alpha. *)
Theorem fill_blends_over pixels pixels' x0 y0 x1 y1 r color :
  0 <= x0 -> 0 <= y0 ->
  draw_rounded_rect pixels x0 y0 x1 y1 r color = Some pixels' ->
  (forall x y, 0 <= x -> 0 <= y ->
     pixel_at pixels' x y =
     if in_rect x0 y0 x1 y1 x y && draw_flag x0 y0 x1 y1 r x y
     then dst <- pixel_at pixels x y ;; blend color dst
     else pixel_at pixels x y)
  /\ (forall dst out, blend color dst = Some out ->
        exists fsa,
          Py.float_of_int (alpha color) = Some fsa
          /\ over (red color) (red dst) (fsa / 255)%float (red out)
          /\ over (green color) (green dst) (fsa / 255)%float (green out)
          /\ over (blue color) (blue dst) (fsa / 255)%float (blue out)
          /\ alpha out = Z.min 255 (alpha color + alpha dst))
  /\ Z.min 255 (128 + 128) <> canonical_over_alpha 128 128.
Proof.
  intros Hx0 Hy0 Hd. split; [ | split ].
  - now apply draw_rounded_rect_effect.
  - intros dst out. apply blend_formula.
  - vm_compute. discriminate.
Qed.

Lemma fill_blends_over_witness :
  let before := [[(10, 20, 30, 40); (0, 0, 0, 0)]; [(0, 0, 0, 0); (50, 60, 70, 80)]] in
  let after := [[(10, 20, 30, 40); (0, 0, 0, 0)]; [(0, 0, 0, 0); (26, 31, 37, 200)]] in
  pixel_at after 1 1 = blend (0, 0, 0, 120) (50, 60, 70, 80)
  /\ pixel_at after 0 0 = pixel_at before 0 0.
Proof.
  intros before after.
  assert (Hd : draw_rounded_rect before 1 1 1 1 0 (0, 0, 0, 120) = Some after)
    by (vm_compute; reflexivity).
  destruct (fill_blends_over before after 1 1 1 1 0 (0, 0, 0, 120)
              ltac:(lia) ltac:(lia) Hd) as [Hpix _].
  split.
  - rewrite (Hpix 1 1 ltac:(lia) ltac:(lia)). reflexivity.
  - rewrite (Hpix 0 0 ltac:(lia) ltac:(lia)). reflexivity.
Defined.

(** C9: starting from the all-transparent canvas, after any sequence of
    rounded-rectangle fills whose colours are bytes, every component of
    every pixel is a byte, and so packing the pixels for [create_png] never
    fails its range check: the scanlines are produced. *)
Theorem fills_keep_bytes W H fills pixels' :
  0 <= W -> 0 <= H ->
  Forall (fun f => byte_rgba (fill_color f) = true) fills ->
  draw_all fills (blank W H) = Some pixels' ->
  byte_canvas pixels' = true
  /\ raw_scanlines W H pixels' = Some (scanlines pixels').
Proof.
  intros HW HH Hf Hd.
  assert (Hb : byte_canvas pixels' = true)
    by (eapply draw_all_bytes; eauto using blank_bytes).
  split; [ exact Hb | ].
  apply raw_scanlines_ok. split; [ | exact Hb ].
  eapply draw_all_dims; eauto using blank_dims.
Qed.

Lemma fills_keep_bytes_witness :
  let pixels' := [[(0, 0, 0, 0); (24, 24, 24, 45); (0, 0, 0, 0)];
                  [(24, 24, 24, 45); (204, 46, 46, 255); (24, 24, 24, 45)];
                  [(0, 0, 0, 0); (204, 46, 46, 255); (0, 0, 0, 0)]] in
  byte_canvas pixels' = true
  /\ raw_scanlines 3 3 pixels' = Some (scanlines pixels').
Proof.
  apply (fills_keep_bytes 3 3
           [ {| fill_x0 := 0; fill_y0 := 0; fill_x1 := 2; fill_y1 := 2;
                fill_r := 1; fill_color := (140, 140, 140, 45) |};
             {| fill_x0 := 0; fill_y0 := 1; fill_x1 := 2; fill_y1 := 2;
                fill_r := 1; fill_color := (224, 49, 49, 230) |} ]).
  - lia.
  - lia.
  - repeat constructor.
  - vm_compute. reflexivity.
Defined.

(** C2, as amended: for a canvas of [H] rows of [W] byte pixels, with
    positive dimensions below [2^31] and a compressed stream that fits one
    chunk,
    [create_png] returns the signature, an [IHDR] chunk (width, height,
    depth 8, colour type 6), one [IDAT] chunk holding the compressed
    scanlines, each led by the filter byte 0, and an empty [IEND] chunk,
    every chunk framed as big-endian length, tag, payload and the CRC-32 of
    tag and payload; a PNG decoder reads back the same width, height and
    pixels. *)
Theorem create_png_round_trip
    (compress : bytes -> bytes) (decompress : bytes -> option bytes)
    W H pixels :
  (forall d, decompress (compress d) = Some d) ->
  well_formed W H pixels ->
  0 < W < 2 ^ 31 -> 0 < H < 2 ^ 31 ->
  Z.of_nat (length (compress (scanlines pixels))) < 2 ^ 31 ->
  let png := sig ++ framed tag_IHDR (ihdr_payload W H)
                 ++ framed tag_IDAT (compress (scanlines pixels))
                 ++ framed tag_IEND [] in
  create_png compress W H pixels = Some png
  /\ decode_png decompress png = Some (W, H, pixels).
Proof.
  intros Hz Hwf HW HH Hlen png.
  assert (H31 : 2 ^ 31 < 2 ^ 32) by reflexivity.
  split.
  - unfold create_png.
    rewrite !pack_I_be32 by lia. cbn [Py.bind].
    rewrite (raw_scanlines_ok W H pixels Hwf). cbn [Py.bind].
    fold (ihdr_payload W H).
    rewrite (png_chunk_framed tag_IHDR (ihdr_payload W H)) by reflexivity.
    cbn [Py.bind].
    rewrite (png_chunk_framed tag_IDAT) by lia. cbn [Py.bind].
    rewrite (png_chunk_framed tag_IEND []) by reflexivity.
    reflexivity.
  - unfold decode_png, png.
    rewrite (take_app 8 sig _ eq_refl). cbn [Py.bind].
    rewrite bytes_eqb_refl.
    rewrite (read_chunk_framed tag_IHDR (ihdr_payload W H) _ eq_refl eq_refl).
    cbn [Py.bind]. rewrite bytes_eqb_refl.
    unfold ihdr_payload.
    rewrite unpack_I_be32 by lia. cbn [Py.bind].
    rewrite unpack_I_be32 by lia. cbn [Py.bind].
    rewrite bytes_eqb_refl.
    replace (0 <? W) with true by lia. replace (W <? 2 ^ 31) with true by lia.
    replace (0 <? H) with true by lia. replace (H <? 2 ^ 31) with true by lia.
    cbn [andb].
    rewrite (read_idat_ok _ Hlen). cbn [Py.bind].
    rewrite Hz. cbn [Py.bind].
    destruct Hwf as [[Hrows Hcols] Hb].
    replace (Z.to_nat H) with (length pixels) by lia.
    rewrite (read_scanlines_ok (Z.to_nat W) pixels); [ reflexivity | | exact Hb ].
    eapply Forall_impl; [ | exact Hcols ]. simpl. intros row Hrow. lia.
Qed.

Lemma create_png_round_trip_witness :
  let pixels := [[(1, 2, 3, 4); (5, 6, 7, 255)]] in
  let png := sig ++ framed tag_IHDR (ihdr_payload 2 1)
                 ++ framed tag_IDAT (scanlines pixels)
                 ++ framed tag_IEND [] in
  create_png (fun d => d) 2 1 pixels = Some png
  /\ decode_png Some png = Some (2, 1, pixels).
Proof.
  apply (create_png_round_trip (fun d => d) Some 2 1 [[(1, 2, 3, 4); (5, 6, 7, 255)]]).
  - reflexivity.
  - split; [ split; [ reflexivity | repeat constructor ] | reflexivity ].
  - split; reflexivity.
  - split; reflexivity.
  - reflexivity.
Defined.

(** C2 as stated fails for a canvas without pixels: with no bars
    [generate_bars_image] asks for an image 0 pixels wide and 22 high;
    [create_png] writes a file for it, signature, [IHDR] with width 0,
    [IDAT] with the 22 filter bytes and [IEND], and a PNG decoder rejects
    the header, a width of zero being invalid, so no image is read back. *)
Lemma create_png_zero_width_rejected :
  let png := sig ++ framed tag_IHDR (ihdr_payload 0 22)
                 ++ framed tag_IDAT (scanlines (blank 0 22))
                 ++ framed tag_IEND [] in
  Bars.generate_bars_canvas [] = Some (0, 22, blank 0 22)
  /\ well_formed 0 22 (blank 0 22)
  /\ create_png (fun d => d) 0 22 (blank 0 22) = Some png
  /\ decode_png Some png = None.
Proof.
  intros png. split; [ vm_compute; reflexivity | ].
  split; [ split; [ split; [ reflexivity | repeat constructor ] | reflexivity ] | ].
  split; vm_compute; reflexivity.
Qed.

End CanvasClaims.

(** ** Claims about the colour ramp and the bar layout *)

Module BarsClaims.
Import FloatPred FloatFacts Pacing PacingFacts Canvas Bars Aux.

Local Open Scope float_scope.



(** C8, as amended: the fill height of a bar is [max(2, i)], where [i] is
    the floor of the binary64 number [bar_height * clamp(remaining_pct, 0,
    100) / 100] (product and quotient each rounded): [float(i) <= q <
    float(i + 1)] and [0 <= i <= 11], so the height is 2 to 11 pixels
    whatever the input.  The renderer never raises; its image is 22 rows
    of 5 pixels per bar, and every pixel of it is the bars painted over
    the transparent pixel: per bar the track over the 11 rows of the bar,
    then the fill over the bottom [h] rows of the track, each without its
    four corner pixels.  A single bar with [remaining_pct = 0] gets a fill
    2 rows high, rows 14 and 15 of the bar's rows 5 to 15: in the middle
    column these two pixels carry the fill colour, the pixel above them
    and the upper corners of the fill the track alone. *)
Theorem fill_height_floor_anchor :
  (forall rpct,
      exists i fi fi1,
        fill_height rpct = Some (Z.max 2 i) /\ (0 <= i <= 11)%Z
        /\ Py.float_of_int i = Some fi /\ Py.float_of_int (i + 1) = Some fi1
        /\ fle fi (11 * clamp_pct rpct / 100)
        /\ flt (11 * clamp_pct rpct / 100) fi1)
  /\ (forall bars,
        exists pixels,
          generate_bars_canvas bars
          = Some ((5 * Z.of_nat (length bars))%Z, 22%Z, pixels)
          /\ well_formed (5 * Z.of_nat (length bars)) 22 pixels
          /\ forall px py,
               (0 <= px < 5 * Z.of_nat (length bars))%Z -> (0 <= py < 22)%Z ->
               pixel_at pixels px py
               = bars_pixel bars PAD_X px py (0, 0, 0, 0)%Z)
  /\ (forall tp,
        exists pixels,
          generate_bars_canvas [bar (Some 0) tp] = Some (5%Z, 22%Z, pixels)
          /\ fill_height 0 = Some 2%Z
          /\ pixel_at pixels 2 13 = Some (24, 24, 24, 45)%Z
          /\ pixel_at pixels 2 14 = Some (204, 46, 46, 255)%Z
          /\ pixel_at pixels 2 15 = Some (204, 46, 46, 255)%Z
          /\ pixel_at pixels 1 14 = Some (24, 24, 24, 45)%Z
          /\ pixel_at pixels 3 14 = Some (24, 24, 24, 45)%Z
          /\ pixel_at pixels 1 15 = Some (0, 0, 0, 0)%Z
          /\ pixel_at pixels 3 15 = Some (0, 0, 0, 0)%Z
          /\ pixel_at pixels 2 16 = Some (0, 0, 0, 0)%Z).
Proof.
  split; [ exact BarsFacts.fill_height_floor | ].
  split; [ exact BarsEffect.generate_bars_canvas_spec | ].
  intros tp.
  destruct (BarsEffect.generate_bars_canvas_spec [bar (Some 0) tp])
    as (pixels & E & _ & P).
  change (5 * Z.of_nat (length [bar (Some 0%float) tp]))%Z with 5%Z in E, P.
  exists pixels. split; [ exact E | ].
  split; [ vm_compute; reflexivity | ].
  repeat split; rewrite P by (clear; lia); vm_compute; reflexivity.
Qed.

Lemma fill_height_floor_anchor_witness :
  pixel_at (blank 5 22) 2 10 = Some (0, 0, 0, 0)%Z
  /\ exists pixels,
       generate_bars_canvas [bar (Some 50) (Some 50)] = Some (5%Z, 22%Z, pixels)
       /\ pixel_at pixels 2 10
          = bars_pixel [bar (Some 50) (Some 50)] PAD_X 2 10 (0, 0, 0, 0)%Z.
Proof.
  split; [ reflexivity | ].
  destruct (proj1 (proj2 fill_height_floor_anchor) [bar (Some 50) (Some 50)])
    as (pixels & E & _ & P).
  change (5 * Z.of_nat (length [bar (Some 50%float) (Some 50%float)]))%Z
    with 5%Z in E, P.
  exists pixels. split; [ exact E | ].
  apply P; [ split; [ discriminate | reflexivity ]
           | split; [ discriminate | reflexivity ] ].
Defined.

(** C8 as stated fails when the floor is taken of the exact product and
    quotient: for [remaining_pct = (1 - 1/11) * 100], just below
    [1000/11], [11 * remaining_pct / 100] is just below 10 and its floor
    is 9, while the code rounds the product to 1000.0 and fills 10 rows. *)
Lemma fill_height_above_exact_floor :
  fill_height ((1 - 1 / 11) * 100) = Some 10%Z
  /\ spec_fill_height ((1 - 1 / 11) * 100) = Some 9%Z.
Proof. split; vm_compute; reflexivity. Qed.




End BarsClaims.

(** * Further properties of the program *)

(** ** The history builder *)

Module HistoryProps.
Import Usage History HistoryFacts FloatPred.

Lemma increasing_NoDup l : increasing l = true -> NoDup (map ts l).
Proof.
  induction l as [| n l IH]; intros H; [ constructor | ].
  apply increasing_cons in H as [Hall Hl]. simpl. constructor; [ | auto ].
  intros Hin. apply in_map_iff in Hin as (m & Em & Hm).
  specialize (Hall m Hm). rewrite Em, string_ltb_irrefl in Hall. discriminate.
Qed.

Lemma find_ts_sort t l :
  NoDup (map ts l) -> find_ts t (sort_by_ts l) = find_ts t l.
Proof.
  intros Hnd.
  pose proof (increasing_NoDup _ (increasing_sort_by_ts l Hnd)) as Hs.
  destruct (find_ts t l) as [n |] eqn:E.
  - apply find_ts_some in E as [Hin Et]. subst t.
    apply find_ts_NoDup; [ exact Hs | ]. now apply In_sort_by_ts.
  - destruct (find_ts t (sort_by_ts l)) as [m |] eqn:E2; [ | reflexivity ].
    apply find_ts_some in E2 as [Hin Et].
    apply (proj1 (In_sort_by_ts _ _)) in Hin.
    apply find_ts_none in E. exfalso. apply E. subst t.
    exact (in_map ts _ _ Hin).
Qed.

Lemma read_lines_start lines :
  exists entries seen_ts,
    read_lines lines ([], []) = Some (entries, seen_ts)
    /\ NoDup (map ts entries)
    /\ forall t, find_ts t entries = first_with_ts t lines.
Proof.
  destruct (read_lines_spec lines [] []) as (entries & seen_ts & E & Hnd & Hf).
  - intros t. reflexivity.
  - constructor.
  - exists entries, seen_ts. split; [ exact E | ]. split; [ exact Hnd | ].
    intros t. now rewrite Hf.
Qed.

Lemma first_with_ts_some t lines n :
  first_with_ts t lines = Some n ->
  exists raw, In (Some raw) lines /\ normalize raw = Some (Some n) /\ ts n = t.
Proof.
  induction lines as [| line lines IH]; simpl; [ discriminate | ].
  intros H.
  assert (Hrest : first_with_ts t lines = Some n ->
                  exists raw, In (Some raw) (line :: lines)
                              /\ normalize raw = Some (Some n) /\ ts n = t).
  { intros H'. destruct (IH H') as (raw & Hin & Hn & Et).
    exists raw. split; [ now right | now split ]. }
  destruct line as [raw |]; [ | now apply Hrest ].
  destruct (normalize raw) as [[m |] |] eqn:En; try (now apply Hrest).
  destruct (ts m =? t)%string eqn:Em; [ | now apply Hrest ].
  injection H as ->. apply String.eqb_eq in Em.
  exists raw. split; [ now left | now split ].
Qed.

Lemma first_with_ts_found lines raw n :
  In (Some raw) lines -> normalize raw = Some (Some n) ->
  exists m, first_with_ts (ts n) lines = Some m.
Proof.
  induction lines as [| line lines IH]; simpl; [ contradiction | ].
  intros [-> | Hin] Hn.
  - rewrite Hn, String.eqb_refl. now exists n.
  - destruct (IH Hin Hn) as (m & Em).
    destruct line as [raw' |]; [ | now exists m ].
    destruct (normalize raw') as [[m' |] |]; try (now exists m).
    destruct (ts m' =? ts n)%string; [ now exists m' | now exists m ].
Qed.


(** X2: of several lines with the same timestamp the first one of the file
    wins: for every timestamp, the entry written for it is the normalised
    form of the first line that normalises to that timestamp, and there is
    none when no line does. *)
Theorem build_entries_first_wins lines :
  exists out,
    build_entries lines = Some out
    /\ forall t, find_ts t out = first_with_ts t lines.
Proof.
  destruct (read_lines_start lines) as (entries & seen_ts & E & Hnd & Hf).
  exists (sort_by_ts entries). unfold build_entries. rewrite E. simpl.
  split; [ reflexivity | ].
  intros t. now rewrite find_ts_sort, Hf.
Qed.

(** X3: nothing is invented and no timestamp is lost: every entry written
    is the normalised form of a line of the file, and every line that
    normalises to an entry has its timestamp among the entries written. *)
Theorem build_entries_complete lines :
  exists out,
    build_entries lines = Some out
    /\ (forall n, In n out ->
          exists raw, In (Some raw) lines /\ normalize raw = Some (Some n))
    /\ (forall raw n, In (Some raw) lines -> normalize raw = Some (Some n) ->
          exists m, In m out /\ ts m = ts n).
Proof.
  destruct (read_lines_start lines) as (entries & seen_ts & E & Hnd & Hf).
  exists (sort_by_ts entries). unfold build_entries. rewrite E. simpl.
  split; [ reflexivity | ]. split.
  - intros n Hin. apply (proj1 (In_sort_by_ts _ _)) in Hin.
    pose proof (find_ts_NoDup _ Hnd n Hin) as Hn. rewrite Hf in Hn.
    destruct (first_with_ts_some _ _ _ Hn) as (raw & Hr & Hnorm & _).
    now exists raw.
  - intros raw n Hin Hnorm.
    destruct (first_with_ts_found _ _ _ Hin Hnorm) as (m & Em).
    rewrite <- Hf in Em. apply find_ts_some in Em as [Hm Et].
    exists m. split; [ now apply In_sort_by_ts | exact Et ].
Qed.


(** X5: a normalised entry takes its timestamp from [ts], or from
    [updated_at] when [ts] is absent or empty, and never has an empty one;
    it keeps a [remaining_pct] that the line gives verbatim, puts 100 where
    a tier yields none, and never carries an empty [reset_at]. *)
Theorem normalize_fields e n :
  normalize e = Some (Some n) ->
  Some (ts n) = (if truthy (raw_ts e) then raw_ts e else raw_updated_at e)
  /\ ts n <> ""%string
  /\ (forall v, raw_remaining_pct (get_tier (raw_session e)) = Some v ->
        remaining_pct (session n) = v)
  /\ (forall v, raw_remaining_pct (get_tier (raw_weekly e)) = Some v ->
        remaining_pct (weekly n) = v)
  /\ (get_remaining (get_tier (raw_weekly e)) = Some None ->
        remaining_pct (weekly n) = 100%float)
  /\ (get_remaining (get_tier (raw_extra e)) = Some None ->
        extra_remaining_pct (extra n) = 100%float)
  /\ reset_at (session n) <> Some ""%string
  /\ reset_at (weekly n) <> Some ""%string
  /\ extra_reset_at (extra n) <> Some ""%string.
Proof.
  unfold normalize.
  set (t0 := if truthy (raw_ts e) then raw_ts e else raw_updated_at e).
  assert (Hk : forall t, kept_reset_at t <> Some ""%string).
  { intros t. unfold kept_reset_at, truthy.
    destruct (raw_reset_at t) as [s |]; [ | discriminate ].
    destruct (s =? "")%string eqn:Es; simpl; [ discriminate | ].
    intros H. injection H as ->. discriminate. }
  destruct (truthy t0) eqn:Et0; simpl negb; cbv iota; [ | discriminate ].
  destruct t0 as [t |] eqn:Dt0; [ | discriminate ].
  destruct (raw_event e && negb (present (raw_session e))); [ discriminate | ].
  destruct (get_remaining_total (get_tier (raw_session e))) as [s Es].
  destruct (get_remaining_total (get_tier (raw_weekly e))) as [w Ew].
  destruct (get_remaining_total (get_tier (raw_extra e))) as [x Ex].
  rewrite Es, Ew, Ex. cbn [Py.bind].
  destruct (negb (present s) && negb (present w)); [ discriminate | ].
  intros H. injection H as <-. cbn [ts session weekly extra remaining_pct
    extra_remaining_pct History.reset_at extra_reset_at].
  repeat split; try apply Hk.
  - unfold truthy in Et0. intros ->. discriminate.
  - intros v Hv. unfold get_remaining in Es. rewrite Hv in Es.
    injection Es as <-. reflexivity.
  - intros v Hv. unfold get_remaining in Ew. rewrite Hv in Ew.
    injection Ew as <-. reflexivity.
  - intros Hw. injection Hw as ->. reflexivity.
  - intros Hx. injection Hx as ->. reflexivity.
Qed.

Lemma normalize_fields_witness :
  let tier0 := {| raw_remaining_pct := Some 40%float; raw_used := None;
                  raw_limit := None; raw_spent := None; raw_cap := None;
                  raw_reset_at := Some ""%string |} in
  let e := {| raw_ts := None; raw_updated_at := Some "2026-01-01T00:00:00Z"%string;
              raw_event := false; raw_session := Some tier0;
              raw_weekly := None; raw_extra := None |} in
  exists n,
    normalize e = Some (Some n)
    /\ ts n = "2026-01-01T00:00:00Z"%string
    /\ remaining_pct (session n) = 40%float
    /\ remaining_pct (weekly n) = 100%float
    /\ reset_at (session n) <> Some ""%string.
Proof.
  intros tier0 e.
  destruct (normalize e) as [[n |] |] eqn:En; try discriminate.
  exists n. split; [ reflexivity | ].
  destruct (normalize_fields e n En) as (Hts & _ & Hs & _ & Hw & _ & Hr & _).
  split; [ now injection Hts | ].
  split; [ now apply Hs | ].
  split; [ now apply Hw | exact Hr ].
Defined.


End HistoryProps.

(** ** The time helpers and the menu lines *)

Module MenuProps.
Import FloatPred FloatFacts Pacing PacingFacts PacingMono Clock Bars Aux.

Local Open Scope float_scope.

Lemma pace_dot_mono a b :
  (a <=? b) = true -> (dot_rank (pace_dot a) <= dot_rank (pace_dot b))%nat.
Proof.
  intros Hab.
  assert (T : forall c, (c <=? a) = true -> (c <=? b) = true)
    by (intros c Hc; exact (leb_trans _ _ _ Hc Hab)).
  unfold pace_dot.
  destruct (0.8 <=? a) eqn:A1, (0.5 <=? a) eqn:A2, (0.25 <=? a) eqn:A3,
           (0.8 <=? b) eqn:B1, (0.5 <=? b) eqn:B2, (0.25 <=? b) eqn:B3;
    try (rewrite (T _ A1) in B1; discriminate);
    try (rewrite (T _ A2) in B2; discriminate);
    try (rewrite (T _ A3) in B3; discriminate);
    apply Nat.leb_le; vm_compute; reflexivity.
Qed.



(** X9: [format_pace_hint] never raises, and its hint is empty exactly for
    a sentinel tier ([remaining_pct] negative or absent). *)
Theorem format_pace_hint_total t :
  exists s,
    format_pace_hint t = Some s
    /\ (s = ""%string <-> (get (remaining_pct t) (-1) <? 0) = true).
Proof.
  unfold format_pace_hint. rewrite pace_score_rules.
  destruct (get (remaining_pct t) (-1) <? 0).
  - exists ""%string. split; [ reflexivity | split; reflexivity ].
  - cbn [Py.bind]. eexists. split; [ reflexivity | ].
    unfold pace_message.
    destruct (0.8 <=? _); [ | destruct (0.5 <=? _); [ | destruct (0.25 <=? _) ] ];
      split; discriminate.
Qed.

(** X10: the status dot of a tier line and the message of its pace hint
    use the same thresholds, so they always agree: green with
    "Comfortable pace", yellow with "Burning a bit fast", orange with
    "Slow down", red with "Near limit". *)
Theorem pace_dot_message_agree s :
  (pace_dot s = "🟢"%string <-> pace_message s = "↳ Comfortable pace"%string)
  /\ (pace_dot s = "🟡"%string <-> pace_message s = "↳ Burning a bit fast"%string)
  /\ (pace_dot s = "🟠"%string
      <-> pace_message s = "↳ Slow down to avoid hitting limit"%string)
  /\ (pace_dot s = "🔴"%string
      <-> pace_message s = "⚠️ Near limit — conserve usage"%string).
Proof.
  unfold pace_dot, pace_message.
  destruct (0.8 <=? s); [ | destruct (0.5 <=? s); [ | destruct (0.25 <=? s) ] ];
    repeat split; intros H; try reflexivity; discriminate H.
Qed.

(** X11: with the time left fixed, more remaining capacity never gives a
    worse status dot (red, orange, yellow, green in this order). *)
Theorem dot_never_worsens t r1 r2 :
  (r1 <=? r2) = true ->
  exists s1 s2,
    pace_score r1 t = Some s1 /\ pace_score r2 t = Some s2
    /\ (dot_rank (pace_dot s1) <= dot_rank (pace_dot s2))%nat.
Proof.
  intros Hr. destruct (pace_score_mono t r1 r2 Hr) as (s1 & s2 & E1 & E2 & Hs).
  exists s1, s2. split; [ exact E1 | ]. split; [ exact E2 | ].
  now apply pace_dot_mono.
Qed.

Lemma dot_never_worsens_witness :
  exists s1 s2,
    pace_score 20 50 = Some s1 /\ pace_score 60 50 = Some s2
    /\ (dot_rank (pace_dot s1) <= dot_rank (pace_dot s2))%nat.
Proof. apply (dot_never_worsens 50 20 60). reflexivity. Defined.

(** X12: inputs that are not numbers of the range are clamped like any
    other: a NaN or infinite [remaining_pct] counts as 100 (score 1.0 and
    a full bar), minus infinity as 0 (score 0.0 and the 2-pixel bar), and a
    NaN [time_remaining_pct] counts as 100. *)
Theorem pace_score_not_a_number t r :
  pace_score nan t = Some 1
  /\ pace_score infinity t = Some 1
  /\ pace_score neg_infinity t = Some 0
  /\ pace_score r nan = pace_score r 100
  /\ fill_height nan = Some 11%Z
  /\ fill_height neg_infinity = Some 2%Z.
Proof.
  repeat split; try (vm_compute; reflexivity).
Qed.

End MenuProps.

(** ** The rounded-rectangle fill *)

Module FillProps.
Import Pacing Canvas Aux CanvasFacts FillFacts RectFacts BlendEnds.

(** X13: a rectangle whose corners are given in the wrong order
    ([x1 < x0] or [y1 < y0]) is empty: the fill returns the canvas as it
    is and never raises, wherever the rectangle lies and whatever the
    canvas holds. *)
Theorem empty_rect_is_noop pixels x0 y0 x1 y1 r color :
  x1 < x0 \/ y1 < y0 ->
  draw_rounded_rect pixels x0 y0 x1 y1 r color = Some pixels.
Proof. apply draw_rounded_rect_empty. Qed.

Lemma empty_rect_is_noop_witness :
  draw_rounded_rect (blank 2 2) 7 9 5 40 3 (300, 0, 0, 0) = Some (blank 2 2).
Proof. apply (empty_rect_is_noop (blank 2 2) 7 9 5 40 3 (300, 0, 0, 0)). left. reflexivity. Defined.

(** X14: the corner test: with radius 0 every pixel of the rectangle is
    painted, and with radius 1, the radius of the bars, every pixel but
    the four corner pixels, provided the rectangle has at least two rows
    and two columns. *)
Theorem corner_rule_small_radius x0 y0 x1 y1 x y :
  in_rect x0 y0 x1 y1 x y = true ->
  draw_flag x0 y0 x1 y1 0 x y = true
  /\ (x0 < x1 -> y0 < y1 ->
      draw_flag x0 y0 x1 y1 1 x y = negb (is_corner x0 y0 x1 y1 x y)).
Proof.
  intros Hin. split; [ now apply draw_flag_square | ].
  intros Hx Hy. now apply draw_flag_radius_1.
Qed.

Lemma corner_rule_small_radius_witness :
  draw_flag 1 5 3 15 0 1 5 = true
  /\ (1 < 3 -> 5 < 15 -> draw_flag 1 5 3 15 1 1 5 = negb (is_corner 1 5 3 15 1 5)).
Proof. apply (corner_rule_small_radius 1 5 3 15 1 5). reflexivity. Defined.

(** X15: the fill does not clip: a rectangle given by negative
    coordinates that stay within the canvas size is painted where Python's
    negative indices point, counted from the right and bottom edges. *)
Theorem negative_coordinates_wrap W H pixels x0 y0 x1 y1 r color :
  has_dims W H pixels ->
  - W <= x0 -> x1 < 0 -> - H <= y0 -> y1 < 0 ->
  draw_rounded_rect pixels x0 y0 x1 y1 r color
  = draw_rounded_rect pixels (x0 + W) (y0 + H) (x1 + W) (y1 + H) r color.
Proof.
  intros Hd Hx0 Hx1 Hy0 Hy1. symmetry.
  apply (draw_rounded_rect_wrap W H); [ exact Hd | | ];
    right; repeat split; assumption.
Qed.

Lemma negative_coordinates_wrap_witness :
  draw_rounded_rect (blank 3 2) (-2) (-1) (-1) (-1) 0 (9, 9, 9, 255)
  = draw_rounded_rect (blank 3 2) (-2 + 3) (-1 + 2) (-1 + 3) (-1 + 2) 0 (9, 9, 9, 255).
Proof.
  apply (negative_coordinates_wrap 3 2 (blank 3 2) (-2) (-1) (-1) (-1) 0 (9, 9, 9, 255)).
  - split; [ reflexivity | repeat constructor ].
  - discriminate.
  - reflexivity.
  - discriminate.
  - reflexivity.
Defined.

(** X16: a fill in an opaque colour (alpha 255) overwrites: inside the
    canvas it never raises, every pixel of the rounded rectangle becomes
    exactly the fill colour, whatever was there, and every other pixel is
    unchanged. *)
Theorem opaque_fill_overwrites W H pixels x0 y0 x1 y1 r sr sg sb :
  well_formed W H pixels ->
  is_byte sr = true -> is_byte sg = true -> is_byte sb = true ->
  0 <= x0 -> x1 < W -> 0 <= y0 -> y1 < H ->
  exists pixels',
    draw_rounded_rect pixels x0 y0 x1 y1 r (sr, sg, sb, 255) = Some pixels'
    /\ forall x y, 0 <= x -> 0 <= y ->
         pixel_at pixels' x y =
         if in_rect x0 y0 x1 y1 x y && draw_flag x0 y0 x1 y1 r x y
         then Some (sr, sg, sb, 255)
         else pixel_at pixels x y.
Proof. apply draw_rounded_rect_opaque. Qed.

Lemma opaque_fill_overwrites_witness :
  exists pixels',
    draw_rounded_rect [[(1, 2, 3, 4); (5, 6, 7, 8)]] 1 0 1 0 0 (10, 20, 30, 255)
    = Some pixels'
    /\ forall x y, 0 <= x -> 0 <= y ->
         pixel_at pixels' x y =
         if in_rect 1 0 1 0 x y && draw_flag 1 0 1 0 0 x y
         then Some (10, 20, 30, 255)
         else pixel_at [[(1, 2, 3, 4); (5, 6, 7, 8)]] x y.
Proof.
  apply (opaque_fill_overwrites 2 1 [[(1, 2, 3, 4); (5, 6, 7, 8)]] 1 0 1 0 0 10 20 30).
  - split; [ split; [ reflexivity | repeat constructor ] | reflexivity ].
  - reflexivity.
  - reflexivity.
  - reflexivity.
  - discriminate.
  - reflexivity.
  - discriminate.
  - reflexivity.
Defined.

(** X17: a fill in a fully transparent colour (alpha 0) changes nothing:
    inside the canvas it returns the canvas as it is. *)
Theorem transparent_fill_is_noop W H pixels x0 y0 x1 y1 r sr sg sb :
  well_formed W H pixels ->
  is_byte sr = true -> is_byte sg = true -> is_byte sb = true ->
  - W <= x0 -> x1 < W -> - H <= y0 -> y1 < H ->
  draw_rounded_rect pixels x0 y0 x1 y1 r (sr, sg, sb, 0) = Some pixels.
Proof. apply draw_rounded_rect_clear. Qed.

Lemma transparent_fill_is_noop_witness :
  draw_rounded_rect [[(1, 2, 3, 4); (5, 6, 7, 8)]] 0 0 1 0 1 (10, 20, 30, 0)
  = Some [[(1, 2, 3, 4); (5, 6, 7, 8)]].
Proof.
  apply (transparent_fill_is_noop 2 1 [[(1, 2, 3, 4); (5, 6, 7, 8)]] 0 0 1 0 1 10 20 30).
  - split; [ split; [ reflexivity | repeat constructor ] | reflexivity ].
  - reflexivity.
  - reflexivity.
  - reflexivity.
  - discriminate.
  - reflexivity.
  - discriminate.
  - reflexivity.
Defined.

End FillProps.

(** ** The PNG writer *)

Module PngProps.
Import Pacing Canvas Png Aux CanvasFacts FillFacts PngFacts PngRoundTrip PngEdges.

Lemma length_pixel_rows (row : list rgba) :
  length (concat (map pixel_bytes row)) = (4 * length row)%nat.
Proof.
  induction row as [| [[[r g] b] a] row IH]; [ reflexivity | ].
  cbn [map concat]. rewrite length_app, IH. cbn [pixel_bytes length]. lia.
Qed.

Lemma length_scanlines W pixels :
  Forall (fun row => Z.of_nat (length row) = W) pixels ->
  Z.of_nat (length (scanlines pixels)) = Z.of_nat (length pixels) * (1 + 4 * W).
Proof.
  unfold scanlines. induction 1 as [| row pixels Hrow _ IH]; [ reflexivity | ].
  cbn [map concat]. rewrite length_app. unfold scanline at 1.
  cbn [length]. rewrite length_pixel_rows. lia.
Qed.

(** X18: [create_png] raises when a pixel of the [width] by [height]
    window is missing from the buffer ([IndexError]) or has a component
    outside 0..255 ([struct.error]). *)
Theorem create_png_rejects_non_bytes compress W H pixels x y :
  0 <= x < W -> 0 <= y < H -> packable pixels x y = false ->
  create_png compress W H pixels = None.
Proof.
  intros Hx Hy Hp. unfold create_png.
  rewrite (raw_scanlines_raises W H pixels x y Hx Hy Hp).
  destruct (pack_I W); [ | reflexivity ]. destruct (pack_I H); reflexivity.
Qed.

Lemma create_png_rejects_non_bytes_witness :
  create_png (fun d => d) 2 1 [[(0, 0, 0, 255); (256, 0, 0, 255)]] = None.
Proof.
  apply (create_png_rejects_non_bytes (fun d => d) 2 1
           [[(0, 0, 0, 255); (256, 0, 0, 255)]] 1 0).
  - split; [ discriminate | reflexivity ].
  - split; [ discriminate | reflexivity ].
  - reflexivity.
Defined.

(** X19: [create_png] reads the [width] by [height] window of the buffer
    and nothing else: two buffers that agree on it give the same file, so
    rows and pixels beyond the declared size are silently dropped. *)
Theorem create_png_reads_window compress W H p1 p2 :
  (forall x y, 0 <= x < W -> 0 <= y < H -> pixel_at p1 x y = pixel_at p2 x y) ->
  create_png compress W H p1 = create_png compress W H p2.
Proof.
  intros Hw. unfold create_png. now rewrite (raw_scanlines_window W H p1 p2 Hw).
Qed.

Lemma create_png_reads_window_witness :
  create_png (fun d => d) 1 1 [[(1, 2, 3, 4)]]
  = create_png (fun d => d) 1 1 [[(1, 2, 3, 4); (5, 6, 7, 8)]; [(9, 9, 9, 9)]].
Proof.
  apply (create_png_reads_window (fun d => d) 1 1 [[(1, 2, 3, 4)]]
           [[(1, 2, 3, 4); (5, 6, 7, 8)]; [(9, 9, 9, 9)]]).
  intros x y Hx Hy.
  assert (Ex : x = 0) by lia. assert (Ey : y = 0) by lia.
  rewrite Ex, Ey. reflexivity.
Defined.

(** X20: for a width or a height of zero [create_png] still returns a
    file, whatever the buffer holds: signature, header, the [height] filter
    bytes compressed, end chunk; a PNG decoder rejects it, a zero
    dimension being invalid. *)
Theorem create_png_empty_undecodable compress decompress W H pixels :
  W = 0 \/ H = 0 -> 0 <= W < 2 ^ 32 -> 0 <= H < 2 ^ 32 ->
  Z.of_nat (length (compress (repeat Byte.x00 (Z.to_nat H)))) < 2 ^ 32 ->
  create_png compress W H pixels
  = Some (sig ++ framed tag_IHDR (ihdr_payload W H)
              ++ framed tag_IDAT (compress (repeat Byte.x00 (Z.to_nat H)))
              ++ framed tag_IEND [])
  /\ decode_png decompress
       (sig ++ framed tag_IHDR (ihdr_payload W H)
            ++ framed tag_IDAT (compress (repeat Byte.x00 (Z.to_nat H)))
            ++ framed tag_IEND []) = None.
Proof.
  intros Hz HW HH Hlen. split.
  - apply create_png_of_raw; try assumption.
    apply raw_scanlines_no_pixels; [ exact Hz | lia ].
  - now apply decode_png_no_pixels.
Qed.

Lemma create_png_empty_undecodable_witness :
  create_png (fun d => d) 3 0 [[(1, 2, 3, 4)]]
  = Some (sig ++ framed tag_IHDR (ihdr_payload 3 0)
              ++ framed tag_IDAT (repeat Byte.x00 (Z.to_nat 0))
              ++ framed tag_IEND [])
  /\ decode_png Some
       (sig ++ framed tag_IHDR (ihdr_payload 3 0)
            ++ framed tag_IDAT (repeat Byte.x00 (Z.to_nat 0))
            ++ framed tag_IEND []) = None.
Proof.
  apply (create_png_empty_undecodable (fun d => d) Some 3 0 [[(1, 2, 3, 4)]]).
  - right. reflexivity.
  - split; [ discriminate | reflexivity ].
  - split; [ discriminate | reflexivity ].
  - reflexivity.
Defined.

(** X21: the chunk writer on known values: the end chunk [_png_chunk(b"IEND",
    b"")] is the 12 bytes [00 00 00 00 49 45 4E 44 AE 42 60 82] that end
    every PNG file, and the CRC-32 it relies on gives the check value
    [0xCBF43926] on the ASCII digits [123456789]. *)
Theorem png_end_chunk_bytes :
  _png_chunk tag_IEND []
  = Some [Byte.x00; Byte.x00; Byte.x00; Byte.x00;
          Byte.x49; Byte.x45; Byte.x4e; Byte.x44;
          Byte.xae; Byte.x42; Byte.x60; Byte.x82]
  /\ crc32 [Byte.x31; Byte.x32; Byte.x33; Byte.x34; Byte.x35;
            Byte.x36; Byte.x37; Byte.x38; Byte.x39] = 0xCBF43926.
Proof. split; vm_compute; reflexivity. Qed.

(** X22: the size of the file: for a buffer of [H] rows of [W] byte pixels
    the uncompressed image data is [H * (1 + 4 * W)] bytes, a filter byte
    and four bytes per pixel on every scanline, and the file is 57 bytes
    longer than the compressed data (signature 8, header chunk 25, 12 of
    framing for each of the data and end chunks). *)
Theorem create_png_size compress W H pixels :
  well_formed W H pixels -> 0 <= W < 2 ^ 32 -> 0 <= H < 2 ^ 32 ->
  Z.of_nat (length (compress (scanlines pixels))) < 2 ^ 32 ->
  exists png,
    create_png compress W H pixels = Some png
    /\ raw_scanlines W H pixels = Some (scanlines pixels)
    /\ Z.of_nat (length (scanlines pixels)) = H * (1 + 4 * W)
    /\ Z.of_nat (length png) = 57 + Z.of_nat (length (compress (scanlines pixels))).
Proof.
  intros Hwf HW HH Hlen.
  pose proof (raw_scanlines_ok W H pixels Hwf) as Hraw.
  exists (sig ++ framed tag_IHDR (ihdr_payload W H)
              ++ framed tag_IDAT (compress (scanlines pixels))
              ++ framed tag_IEND []).
  split; [ apply create_png_of_raw; assumption | ].
  split; [ exact Hraw | ]. split.
  - destruct Hwf as [[Hrows Hcols] _]. rewrite (length_scanlines W pixels Hcols). lia.
  - rewrite !length_app, !length_framed. unfold ihdr_payload.
    rewrite !length_app, !length_be32. cbn [length sig tag_IHDR tag_IDAT tag_IEND]. lia.
Qed.

Lemma create_png_size_witness :
  exists png,
    create_png (fun d => d) 2 1 [[(1, 2, 3, 4); (5, 6, 7, 255)]] = Some png
    /\ raw_scanlines 2 1 [[(1, 2, 3, 4); (5, 6, 7, 255)]]
       = Some (scanlines [[(1, 2, 3, 4); (5, 6, 7, 255)]])
    /\ Z.of_nat (length (scanlines [[(1, 2, 3, 4); (5, 6, 7, 255)]])) = 1 * (1 + 4 * 2)
    /\ Z.of_nat (length png)
       = 57 + Z.of_nat (length (scanlines [[(1, 2, 3, 4); (5, 6, 7, 255)]])).
Proof.
  apply (create_png_size (fun d => d) 2 1 [[(1, 2, 3, 4); (5, 6, 7, 255)]]).
  - split; [ split; [ reflexivity | repeat constructor ] | reflexivity ].
  - split; [ discriminate | reflexivity ].
  - split; [ discriminate | reflexivity ].
  - reflexivity.
Defined.

End PngProps.

(** ** The bar image *)

Module BarsProps.
Import FloatPred FloatFacts Interval Pacing PacingFacts Canvas Png Bars Aux
  CanvasFacts FillFacts PngFacts PngRoundTrip PngEdges BarsFacts BarsEffect.

Local Open Scope float_scope.

Lemma fill_quotient_fin r : fin (11 * clamp_pct r / 100).
Proof.
  assert (Hm : within (11 * 0) (11 * 100) (11 * clamp_pct r)).
  { apply within_mul_l; [ apply clamp_within | reflexivity | reflexivity ]. }
  assert (Hd : within (11 * 0 / 100) (11 * 100 / 100) (11 * clamp_pct r / 100)).
  { apply within_div; [ exact Hm | reflexivity | reflexivity ]. }
  now destruct Hd as (_ & _ & F & _).
Qed.

Lemma fill_height_of_int r i :
  Py.int (11 * clamp_pct r / 100) = Some i -> fill_height r = Some (Z.max 2 i).
Proof.
  intros Hi. unfold fill_height. rewrite float_of_bar_h. cbn [Py.bind].
  fold (clamp_pct r). unfold Py.div.
  change (100 =? 0) with false. cbv iota. cbn [Py.bind].
  rewrite Hi. reflexivity.
Qed.

Lemma bar_color_palette rpct tpct :
  exists r g b,
    bar_color rpct tpct = Some (r, g, b, 230%Z)
    /\ (49 <= r <= 224)%Z /\ (49 <= g <= 224)%Z /\ (49 <= b <= 224)%Z.
Proof.
  unfold bar_color. rewrite pace_score_rules. cbn [Py.bind].
  destruct (clamp_pct_range rpct) as [Pr Hr].
  destruct (clamp_pct_range tpct) as [Pt Ht].
  destruct (pace_rules_range _ _ Pr Hr Pt Ht) as [H0 H1].
  exact (score_to_rgb_range _ H0 H1).
Qed.

(** X23: the colour of a bar is always in the palette of the ramp: for
    every pair of percentages, NaN and infinities included, [score_to_rgb]
    of the pace score returns red, green and blue between 49 and 224 and
    the alpha 230; it never raises. *)
Theorem bar_color_in_palette rpct tpct :
  exists r g b,
    bar_color rpct tpct = Some (r, g, b, 230%Z)
    /\ (49 <= r <= 224)%Z /\ (49 <= g <= 224)%Z /\ (49 <= b <= 224)%Z
    /\ byte_rgba (r, g, b, 230%Z) = true.
Proof.
  destruct (bar_color_palette rpct tpct) as (r & g & b & E & Hr & Hg & Hb).
  exists r, g, b. repeat split; try assumption; try lia.
  unfold byte_rgba, is_byte.
  repeat (apply andb_true_intro; split); try apply Z.leb_le; try lia; reflexivity.
Qed.

(** X26: the height of the fill never decreases when the remaining
    percentage grows. *)
Theorem fill_height_monotone r1 r2 :
  (r1 <=? r2) = true ->
  exists h1 h2,
    fill_height r1 = Some h1 /\ fill_height r2 = Some h2 /\ (h1 <= h2)%Z.
Proof.
  intros Hr. pose proof (PacingMono.clamp_pct_mono r1 r2 Hr) as Hc.
  destruct (clamp_pct_range r1) as [P1 _].
  destruct (clamp_pct_range r2) as [P2 _].
  assert (M : (11 * clamp_pct r1 / 100 <=? 11 * clamp_pct r2 / 100) = true).
  { apply PacingMono.div_mono.
    - rewrite mul_comm. apply mul_plus; [ exact P1 | reflexivity ].
    - rewrite mul_comm. apply mul_plus; [ exact P2 | reflexivity ].
    - reflexivity.
    - rewrite (mul_comm 11 (clamp_pct r1)), (mul_comm 11 (clamp_pct r2)).
      apply mul_mono_r; [ exact P1 | exact P2 | reflexivity | exact Hc ]. }
  destruct (int_mono _ _ (fill_quotient_fin r1) (fill_quotient_fin r2) M)
    as (i & j & Hi & Hj & Hij).
  exists (Z.max 2 i), (Z.max 2 j).
  split; [ now apply fill_height_of_int | ].
  split; [ now apply fill_height_of_int | lia ].
Qed.

Lemma fill_height_monotone_witness :
  exists h1 h2,
    fill_height 30 = Some h1 /\ fill_height 70 = Some h2 /\ (h1 <= h2)%Z.
Proof. apply (fill_height_monotone 30 70). reflexivity. Defined.

End BarsProps.

(** ** The pixels of the icon *)

Module IconProps.
Import FloatPred Pacing Canvas Png Bars Aux CanvasFacts FillFacts PngFacts
  PngRoundTrip PngEdges BarsFacts BarsEffect.

Ltac bool_cases :=
  repeat match goal with
         | |- context [(?a <=? ?b)] => destruct (Z.leb_spec a b)
         | |- context [(?a =? ?b)] => destruct (Z.eqb_spec a b)
         end.

Lemma paint_outside rect color px py dst :
  in_rounded rect px py = false -> paint rect color px py dst = Some dst.
Proof. unfold paint. now intros ->. Qed.

Lemma track_outside x px py :
  px < x \/ x + 2 < px \/ py < 5 \/ 15 < py ->
  in_rounded (x, y_top, x + BAR_W - 1, y_top + BAR_H - 1) px py = false.
Proof.
  intros H. unfold in_rounded, in_rect.
  change y_top with 5. change BAR_W with 3. change BAR_H with 11.
  bool_cases; simpl; try reflexivity; lia.
Qed.

Lemma fill_outside x h px py :
  2 <= h <= 11 -> px < x \/ x + 2 < px \/ py < 5 \/ 15 < py ->
  in_rounded (x, y_top + BAR_H - h, x + BAR_W - 1, y_top + BAR_H - 1) px py = false.
Proof.
  intros Hh H. unfold in_rounded, in_rect.
  change y_top with 5. change BAR_W with 3. change BAR_H with 11.
  bool_cases; simpl; try reflexivity; lia.
Qed.

Lemma track_corner x px py :
  (px = x \/ px = x + 2) -> (py = 5 \/ py = 15) ->
  in_rounded (x, y_top, x + BAR_W - 1, y_top + BAR_H - 1) px py = false.
Proof.
  intros Hx Hy. unfold in_rounded, in_rect, is_corner.
  change y_top with 5. change BAR_W with 3. change BAR_H with 11.
  bool_cases; simpl; try reflexivity; lia.
Qed.

Lemma fill_corner x h px py :
  2 <= h <= 11 -> (px = x \/ px = x + 2) -> (py = 5 \/ py = 15) ->
  in_rounded (x, y_top + BAR_H - h, x + BAR_W - 1, y_top + BAR_H - 1) px py = false.
Proof.
  intros Hh Hx Hy. unfold in_rounded, in_rect, is_corner.
  change y_top with 5. change BAR_W with 3. change BAR_H with 11.
  bool_cases; simpl; try reflexivity; lia.
Qed.

Lemma fill_in_track x h px py :
  2 <= h <= 11 ->
  in_rounded (x, y_top + BAR_H - h, x + BAR_W - 1, y_top + BAR_H - 1) px py = true ->
  in_rounded (x, y_top, x + BAR_W - 1, y_top + BAR_H - 1) px py = true.
Proof.
  intros Hh. unfold in_rounded, in_rect, is_corner.
  change y_top with 5. change BAR_W with 3. change BAR_H with 11.
  bool_cases; simpl; try reflexivity; try discriminate; lia.
Qed.

Lemma bar_pixel_outside x h color px py dst :
  2 <= h <= 11 -> px < x \/ x + 2 < px \/ py < 5 \/ 15 < py ->
  bar_pixel x h color px py dst = Some dst.
Proof.
  intros Hh Ho. unfold bar_pixel.
  rewrite (paint_outside _ _ _ _ _ (track_outside x px py Ho)). cbn [Py.bind].
  apply paint_outside. now apply fill_outside.
Qed.

Lemma bar_pixel_corner x h color px py dst :
  2 <= h <= 11 -> (px = x \/ px = x + 2) -> (py = 5 \/ py = 15) ->
  bar_pixel x h color px py dst = Some dst.
Proof.
  intros Hh Hx Hy. unfold bar_pixel.
  rewrite (paint_outside _ _ _ _ _ (track_corner x px py Hx Hy)). cbn [Py.bind].
  apply paint_outside. now apply fill_corner.
Qed.

Lemma bars_pixel_outside bars :
  forall x px py dst,
    px < x \/ py < 5 \/ 15 < py \/ 3 <= (px - x) mod 5 ->
    bars_pixel bars x px py dst = Some dst.
Proof.
  induction bars as [| b bars IH]; intros x px py dst Ho; [ reflexivity | ].
  cbn [bars_pixel]. cbv zeta.
  destruct (fill_height_range (get (remaining_pct b) 100)) as (h & Eh & Hh).
  destruct (bar_color_bytes (get (remaining_pct b) 100)
              (get (time_remaining_pct b) 100)) as (c & Ec & _).
  rewrite Eh, Ec. cbn [Py.bind].
  rewrite bar_pixel_outside; [ | exact Hh | ].
  - cbn [Py.bind]. apply IH. change (x + BAR_W + GAP) with (x + 3 + 2).
    destruct Ho as [Ho | [Ho | [Ho | Ho]]]; [ left; lia | tauto | tauto | ].
    right; right; right.
    replace (px - (x + 3 + 2)) with (px - x + (-1) * 5) by lia.
    now rewrite Z_mod_plus_full.
  - destruct Ho as [Ho | [Ho | [Ho | Ho]]]; [ tauto | tauto | tauto | ].
    destruct (Z_lt_le_dec px x) as [Hl | Hl]; [ tauto | ].
    destruct (Z_lt_le_dec (x + 2) px) as [Hg | Hg]; [ tauto | ].
    rewrite Z.mod_small in Ho by lia. lia.
Qed.

Lemma bars_pixel_nth bars :
  forall k x b px py dst,
    nth_error bars k = Some b ->
    x + 5 * Z.of_nat k - 1 <= px < x + 5 * Z.of_nat k + 4 ->
    exists h color,
      fill_height (get (remaining_pct b) 100) = Some h /\ 2 <= h <= 11
      /\ bar_color (get (remaining_pct b) 100) (get (time_remaining_pct b) 100)
         = Some color
      /\ bars_pixel bars x px py dst
         = bar_pixel (x + 5 * Z.of_nat k) h color px py dst.
Proof.
  induction bars as [| b0 bars IH]; intros k x b px py dst Hn Hp.
  - destruct k; discriminate.
  - destruct (fill_height_range (get (remaining_pct b0) 100)) as (h0 & Eh0 & Hh0).
    destruct (bar_color_bytes (get (remaining_pct b0) 100)
                (get (time_remaining_pct b0) 100)) as (c0 & Ec0 & _).
    destruct k as [| k]; cbn [nth_error] in Hn.
    + injection Hn as <-. exists h0, c0.
      split; [ exact Eh0 | ]. split; [ exact Hh0 | ]. split; [ exact Ec0 | ].
      cbn [bars_pixel]. cbv zeta. rewrite Eh0, Ec0. cbn [Py.bind].
      replace (x + 5 * Z.of_nat 0) with x by lia.
      destruct (bar_pixel x h0 c0 px py dst) as [d |]; cbn [Py.bind];
        [ | reflexivity ].
      apply bars_pixel_outside. left. change (x + BAR_W + GAP) with (x + 3 + 2). lia.
    + destruct (IH k (x + 3 + 2) b px py dst Hn) as (h & c & Eh & Hh & Ec & E);
        [ lia | ].
      exists h, c. split; [ exact Eh | ]. split; [ exact Hh | ]. split; [ exact Ec | ].
      cbn [bars_pixel]. cbv zeta. rewrite Eh0, Ec0. cbn [Py.bind].
      rewrite bar_pixel_outside; [ | exact Hh0 | right; left; lia ].
      cbn [Py.bind]. change (x + BAR_W + GAP) with (x + 3 + 2). rewrite E.
      replace (x + 3 + 2 + 5 * Z.of_nat k) with (x + 5 * Z.of_nat (S k)) by lia.
      reflexivity.
Qed.

Lemma track_over_transparent :
  blend track_color (0, 0, 0, 0) = Some (24, 24, 24, 45).
Proof. vm_compute. reflexivity. Qed.

Lemma blend_alpha sr sg sb sa dr dg db da px :
  blend (sr, sg, sb, sa) (dr, dg, db, da) = Some px ->
  alpha px = Z.min 255 (sa + da).
Proof.
  unfold blend.
  destruct (Py.float_of_int sa) as [fsa |]; [ | discriminate ]. cbn [Py.bind].
  destruct (Py.div fsa 255) as [a |]; [ | discriminate ]. cbn [Py.bind].
  destruct (blend_channel sr dr a); [ | discriminate ]. cbn [Py.bind].
  destruct (blend_channel sg dg a); [ | discriminate ]. cbn [Py.bind].
  destruct (blend_channel sb db a); [ | discriminate ]. cbn [Py.bind].
  intros H. injection H as <-. reflexivity.
Qed.

Lemma bar_of_column (bars : list tier) px :
  0 <= px < 5 * Z.of_nat (length bars) ->
  exists b,
    nth_error bars (Z.to_nat (px / 5)) = Some b
    /\ 5 * Z.of_nat (Z.to_nat (px / 5)) <= px < 5 * Z.of_nat (Z.to_nat (px / 5)) + 5.
Proof.
  intros Hp.
  assert (Hq : 0 <= px / 5 < Z.of_nat (length bars)).
  { split; [ apply Z.div_pos; lia | apply Z.div_lt_upper_bound; lia ]. }
  destruct (nth_error bars (Z.to_nat (px / 5))) as [b |] eqn:E.
  - exists b. split; [ reflexivity | ]. rewrite Z2Nat.id by lia.
    pose proof (Z.mul_div_le px 5 ltac:(lia)).
    pose proof (Z.mul_succ_div_gt px 5 ltac:(lia)). lia.
  - apply nth_error_None in E. lia.
Qed.

(** X27: every bar reflects its own tier and no other: in the image of any
    list of tiers, the five columns [5k .. 5k + 4] hold the [k]-th bar,
    painted at the columns [5k + 1 .. 5k + 3] with the fill height and the
    colour of the [k]-th tier, over transparent pixels. *)
Theorem bar_reflects_its_tier bars k b :
  nth_error bars k = Some b ->
  exists pixels h color,
    generate_bars_canvas bars = Some (5 * Z.of_nat (length bars), 22, pixels)
    /\ fill_height (get (remaining_pct b) 100) = Some h
    /\ bar_color (get (remaining_pct b) 100) (get (time_remaining_pct b) 100)
       = Some color
    /\ forall px py,
         5 * Z.of_nat k <= px < 5 * Z.of_nat k + 5 -> 0 <= py < 22 ->
         pixel_at pixels px py
         = bar_pixel (1 + 5 * Z.of_nat k) h color px py (0, 0, 0, 0).
Proof.
  intros Hn.
  destruct (generate_bars_canvas_spec bars) as (pixels & E & _ & P).
  destruct (fill_height_range (get (remaining_pct b) 100)) as (h & Eh & Hh).
  destruct (bar_color_bytes (get (remaining_pct b) 100)
              (get (time_remaining_pct b) 100)) as (c & Ec & _).
  exists pixels, h, c.
  split; [ exact E | ]. split; [ exact Eh | ]. split; [ exact Ec | ].
  intros px py Hx Hy.
  assert (Hk : (k < length bars)%nat) by (apply nth_error_Some; congruence).
  rewrite P by lia.
  destruct (bars_pixel_nth bars k PAD_X b px py (0, 0, 0, 0) Hn)
    as (h' & c' & Eh' & _ & Ec' & Eq); [ change PAD_X with 1; lia | ].
  rewrite Eh in Eh'. rewrite Ec in Ec'.
  injection Eh' as <-. injection Ec' as <-. exact Eq.
Qed.

Lemma bar_reflects_its_tier_witness :
  exists pixels h color,
    generate_bars_canvas [bar (Some 50%float) None; bar (Some 10%float) (Some 90%float)]
    = Some (5 * Z.of_nat 2, 22, pixels)
    /\ fill_height (get (Some 10%float) 100) = Some h
    /\ bar_color (get (Some 10%float) 100) (get (Some 90%float) 100) = Some color
    /\ forall px py,
         5 * Z.of_nat 1 <= px < 5 * Z.of_nat 1 + 5 -> 0 <= py < 22 ->
         pixel_at pixels px py
         = bar_pixel (1 + 5 * Z.of_nat 1) h color px py (0, 0, 0, 0).
Proof.
  apply (bar_reflects_its_tier
           [bar (Some 50%float) None; bar (Some 10%float) (Some 90%float)] 1
           (bar (Some 10%float) (Some 90%float))).
  reflexivity.
Defined.

(** X25: the margins of the icon stay transparent: the rows above and
    below the bars (0 to 4 and 16 to 21), the columns between the bars
    (those with [x mod 5] equal to 0 or 4), and the four corner pixels
    of every bar. *)
Theorem icon_margins_transparent bars :
  exists pixels,
    generate_bars_canvas bars = Some (5 * Z.of_nat (length bars), 22, pixels)
    /\ forall px py,
         0 <= px < 5 * Z.of_nat (length bars) -> 0 <= py < 22 ->
         py < 5 \/ 15 < py \/ px mod 5 = 0 \/ px mod 5 = 4
         \/ ((px mod 5 = 1 \/ px mod 5 = 3) /\ (py = 5 \/ py = 15)) ->
         pixel_at pixels px py = Some (0, 0, 0, 0).
Proof.
  destruct (generate_bars_canvas_spec bars) as (pixels & E & _ & P).
  exists pixels. split; [ exact E | ].
  intros px py Hx Hy Hm. rewrite P by lia.
  destruct Hm as [Hm | [Hm | [Hm | [Hm | [Hc Hr]]]]].
  - apply bars_pixel_outside. tauto.
  - apply bars_pixel_outside. tauto.
  - apply bars_pixel_outside. right; right; right. change PAD_X with 1.
    replace (px - 1) with (4 + (px / 5 - 1) * 5)
      by (pose proof (Z.div_mod px 5 ltac:(lia)); lia).
    rewrite Z_mod_plus_full. change (4 mod 5) with 4. lia.
  - apply bars_pixel_outside. right; right; right. change PAD_X with 1.
    replace (px - 1) with (3 + (px / 5) * 5)
      by (pose proof (Z.div_mod px 5 ltac:(lia)); lia).
    rewrite Z_mod_plus_full. change (3 mod 5) with 3. lia.
  - destruct (bar_of_column bars px Hx) as (b & Hn & Hb).
    destruct (bars_pixel_nth bars _ PAD_X b px py (0, 0, 0, 0) Hn)
      as (h & c & _ & Hh & _ & Eq); [ change PAD_X with 1; lia | ].
    rewrite Eq. apply bar_pixel_corner; [ exact Hh | | exact Hr ].
    change PAD_X with 1. rewrite Z2Nat.id by (apply Z.div_pos; lia).
    pose proof (Z.div_mod px 5 ltac:(lia)). lia.
Qed.

(** X28: the icon holds three kinds of pixels only: the transparent pixel,
    the track [(24, 24, 24, 45)] (the grey of the track composited over
    transparent), and fully opaque pixels of the fill, whose components are
    bytes. *)
Theorem icon_pixel_kinds bars :
  exists pixels,
    generate_bars_canvas bars = Some (5 * Z.of_nat (length bars), 22, pixels)
    /\ forall px py,
         0 <= px < 5 * Z.of_nat (length bars) -> 0 <= py < 22 ->
         pixel_at pixels px py = Some (0, 0, 0, 0)
         \/ pixel_at pixels px py = Some (24, 24, 24, 45)
         \/ exists r g b,
              pixel_at pixels px py = Some (r, g, b, 255)
              /\ byte_rgba (r, g, b, 255) = true.
Proof.
  destruct (generate_bars_canvas_spec bars) as (pixels & E & _ & P).
  exists pixels. split; [ exact E | ].
  intros px py Hx Hy. rewrite P by lia.
  destruct (bar_of_column bars px Hx) as (b & Hn & Hb).
  destruct (bars_pixel_nth bars _ PAD_X b px py (0, 0, 0, 0) Hn)
    as (h & c & _ & Hh & Ec & Eq); [ change PAD_X with 1; lia | ].
  rewrite Eq. clear Eq. unfold bar_pixel, paint.
  set (x := PAD_X + 5 * Z.of_nat (Z.to_nat (px / 5))).
  destruct (in_rounded (x, y_top + BAR_H - h, x + BAR_W - 1, y_top + BAR_H - 1) px py)
    eqn:F.
  - rewrite (fill_in_track x h px py Hh F), track_over_transparent. cbn [Py.bind].
    right; right.
    destruct (bar_color_bytes (get (remaining_pct b) 100)
                (get (time_remaining_pct b) 100)) as (c' & Ec' & Hc).
    rewrite Ec in Ec'. injection Ec' as <-.
    destruct (BarsProps.bar_color_palette (get (remaining_pct b) 100)
                (get (time_remaining_pct b) 100)) as (r & g & bl & Ep & _).
    rewrite Ec in Ep. injection Ep as ->.
    destruct (BlendFacts.blend_bytes (r, g, bl, 230) (24, 24, 24, 45) Hc eq_refl)
      as ([[[cr cg] cb] ca] & Eb & Hb').
    pose proof (blend_alpha _ _ _ _ _ _ _ _ _ Eb) as Ha. cbn in Ha. subst ca.
    exists cr, cg, cb. split; [ exact Eb | exact Hb' ].
  - destruct (in_rounded (x, y_top, x + BAR_W - 1, y_top + BAR_H - 1) px py).
    + rewrite track_over_transparent. cbn [Py.bind]. right; left. reflexivity.
    + cbn [Py.bind]. left. reflexivity.
Qed.

(** X24: the icon of a non-empty list of tiers is always a decodable PNG:
    with a compressor that its decompressor inverts and that at most
    doubles its input (plus 64 bytes), [generate_bars_image] never raises,
    and decoding the bytes it encodes in base 64 gives back the painted
    buffer, 22 rows of 5 pixels per bar. *)
Theorem generate_bars_image_decodes
    (compress : bytes -> bytes) (decompress : bytes -> option bytes)
    (b64encode : bytes -> string) bars :
  (forall d, decompress (compress d) = Some d) ->
  (forall d, Z.of_nat (length (compress d)) <= 2 * Z.of_nat (length d) + 64) ->
  bars <> [] -> Z.of_nat (length bars) < 2 ^ 20 ->
  exists pixels png,
    generate_bars_canvas bars = Some (5 * Z.of_nat (length bars), 22, pixels)
    /\ generate_bars_image compress b64encode bars = Some (b64encode png)
    /\ decode_png decompress png = Some (5 * Z.of_nat (length bars), 22, pixels).
Proof.
  intros Hz Hc Hne Hn.
  destruct (generate_bars_canvas_spec bars) as (pixels & E & Hwf & _).
  assert (Hl : 0 < Z.of_nat (length bars)) by (destruct bars; [ congruence | cbn; lia ]).
  assert (Hs : Z.of_nat (length (scanlines pixels))
               = 22 * (1 + 4 * (5 * Z.of_nat (length bars)))).
  { destruct Hwf as [[Hrows Hcols] _].
    rewrite (PngProps.length_scanlines _ pixels Hcols). lia. }
  assert (Hlen : Z.of_nat (length (compress (scanlines pixels))) < 2 ^ 31).
  { specialize (Hc (scanlines pixels)). rewrite Hs in Hc.
    change (2 ^ 20) with 1048576 in Hn. change (2 ^ 31) with 2147483648. lia. }
  exists pixels,
    (sig ++ framed tag_IHDR (ihdr_payload (5 * Z.of_nat (length bars)) 22)
         ++ framed tag_IDAT (compress (scanlines pixels))
         ++ framed tag_IEND []).
  split; [ exact E | ]. split.
  - unfold generate_bars_image. rewrite E. cbn [Py.bind].
    rewrite (create_png_of_raw compress _ 22 pixels (scanlines pixels)).
    + reflexivity.
    + change (2 ^ 20) with 1048576 in Hn. change (2 ^ 32) with 4294967296. lia.
    + split; [ discriminate | reflexivity ].
    + now apply raw_scanlines_ok.
    + change (2 ^ 31) with 2147483648 in Hlen. change (2 ^ 32) with 4294967296. lia.
  - apply (decode_png_framed compress decompress); try assumption.
    + change (2 ^ 20) with 1048576 in Hn. change (2 ^ 31) with 2147483648. lia.
    + split; reflexivity.
Qed.

Lemma generate_bars_image_decodes_witness :
  exists pixels png,
    generate_bars_canvas [bar (Some 50%float) (Some 50%float)]
    = Some (5 * Z.of_nat 1, 22, pixels)
    /\ generate_bars_image (fun d => d) (fun _ => "png"%string)
         [bar (Some 50%float) (Some 50%float)] = Some "png"%string
    /\ decode_png Some png = Some (5 * Z.of_nat 1, 22, pixels).
Proof.
  apply (generate_bars_image_decodes (fun d => d) Some (fun _ => "png"%string)
           [bar (Some 50%float) (Some 50%float)]).
  - reflexivity.
  - intros d. lia.
  - discriminate.
  - reflexivity.
Defined.

End IconProps.

(** ** The derived fields of [load_usage] *)

Module UsageProps.
Import FloatPred Usage.

Local Open Scope float_scope.


End UsageProps.
